(** * myrientDL: link ranking, report files and the retrying downloader

    A shallow embedding of [myrientdl.py].  Python values are modelled as
    follows:
    - [str] is [string]; every [ascii] stands for one character;
    - [int] is [Z];
    - a list is a [list]; a [dict] iterated with [.items()] is the list of
      its (key, value) pairs in insertion order;
    - [None] versus a value is [option];
    - console, error log, network and disk are explicit state, threaded
      through a small state-and-exception monad.

    Library calls are not part of the script.  The scorer of rapidfuzz,
    [str.lower] and [urllib.parse.unquote] are section variables; the
    network and the operating system are an environment record;
    [list.sort], slicing, [str.strip], [str.split], [os.path.join],
    [os.path.basename] (POSIX) and the one regular expression of the script
    are written out after their documented behaviour; the thread pool is a
    transition system. *)

From Stdlib Require Import ZArith List String Ascii Bool Lia Arith.
From Stdlib Require Import Permutation Sorted DecimalString.
Import ListNotations.

Local Open Scope string_scope.
Local Open Scope Z_scope.

(** ** Python built-ins used by the script *)

Module Py.

(** [lst[:stop]]: [None] keeps everything, a non-negative stop keeps that
    many leading elements, a negative stop counts from the end. *)
Definition slice_to {A : Type} (stop : option Z) (l : list A) : list A :=
  match stop with
  | None => l
  | Some k =>
      if 0 <=? k then firstn (Z.to_nat k) l
      else firstn (Z.to_nat (Z.of_nat (List.length l) + k)) l
  end.

Section Sort.
Context {A : Type} (key : A -> Z).

(** Insertion step of a descending stable sort: [x] stood before every
    element of [l] in the original list, so it goes in front of the first
    element whose key is not larger than its own. *)
Fixpoint insert_desc (x : A) (l : list A) : list A :=
  match l with
  | [] => [x]
  | y :: t => if key x <? key y then y :: insert_desc x t else x :: l
  end.

(** [lst.sort(reverse=True, key=key)]: keys in descending order, elements
    with equal keys in their original order (the reverse flag keeps the
    sort stable). *)
Fixpoint sort_reverse (l : list A) : list A :=
  match l with
  | [] => []
  | x :: t => insert_desc x (sort_reverse t)
  end.

End Sort.

(** [str(n)] and [f'{n}'] for an [int]. *)
Definition str_of_int (n : Z) : string := NilZero.string_of_int (Z.to_int n).

(** Characters for which [str.isspace] holds, among the first 256 code
    points: TAB, LF, VT, FF, CR, FS, GS, RS, US, space, NEL, NBSP. *)
Definition isspace (c : ascii) : bool :=
  let n := nat_of_ascii c in
  ((9 <=? n) && (n <=? 13) || (28 <=? n) && (n <=? 32)
   || (n =? 133) || (n =? 160))%nat.

Fixpoint lstrip (s : string) : string :=
  match s with
  | EmptyString => EmptyString
  | String c t => if isspace c then lstrip t else s
  end.

(** Right strip, as a right fold: a space character is dropped when all
    that follows it has been dropped. *)
Fixpoint rstrip (s : string) : string :=
  match s with
  | EmptyString => EmptyString
  | String c t =>
      match rstrip t with
      | EmptyString => if isspace c then EmptyString else String c EmptyString
      | t' => String c t'
      end
  end.

(** [s.strip()] *)
Definition strip (s : string) : string := rstrip (lstrip s).

(** [s.startswith(p)] *)
Fixpoint startswith (p s : string) : bool :=
  match p, s with
  | EmptyString, _ => true
  | String a p', String b s' => Ascii.eqb a b && startswith p' s'
  | String _ _, EmptyString => false
  end.

(** [s.split(sep)[-1]] for a one-character separator: what follows the
    last separator, the whole string when there is none. *)
Fixpoint split_last (sep : ascii) (s : string) : string :=
  match s with
  | EmptyString => EmptyString
  | String c t =>
      if Ascii.eqb c sep then split_last sep t
      else if existsb (Ascii.eqb sep) (list_ascii_of_string t)
           then split_last sep t else s
  end.

(** [s[:n]] for a non-negative [n]. *)
Definition take (n : nat) (s : string) : string := substring 0 n s.

End Py.

(** ** Order and position in lists *)

(** [l1] is the beginning of [l2]. *)
Definition Prefix {A} (l1 l2 : list A) : Prop := exists t, l2 = (l1 ++ t)%list.

(** [l1] is [l2] with some elements left out, the others in their order. *)
Inductive Subseq {A} : list A -> list A -> Prop :=
| Subseq_nil : Subseq [] []
| Subseq_skip x l1 l2 : Subseq l1 l2 -> Subseq l1 (x :: l2)
| Subseq_keep x l1 l2 : Subseq l1 l2 -> Subseq (x :: l1) (x :: l2).

(** [a] may stand before [b] in a list whose keys go down. *)
Definition descending {A} (key : A -> Z) (a b : A) : Prop := key b <= key a.

(** ** Matcher: [fuzzy_match] *)

(** An entry of [extract_links]: [{'href': ..., 'text': ...}]. *)
Record Link := { href : string; text : string }.

Section Matcher.
(** [fuzz.partial_ratio], a similarity between 0 and 100.  The script only
    compares scores, with 0 and with each other, so any numbering of the
    scores that keeps their order serves; the integers are used here. *)
Variable partial_ratio : string -> string -> Z.
(** [str.lower] *)
Variable lower : string -> string.

(** Lines 61 and 62: the score of one link. *)
Definition link_score (keyword : string) (link : Link) : Z :=
  partial_ratio (lower keyword) (lower (text link ++ " " ++ href link)).

(** One turn of the [for link in links] loop. *)
Definition score_step (keyword : string)
    (scored_links : list (Z * string)) (link : Link) : list (Z * string) :=
  let score := link_score keyword link in
  if 0 <? score then scored_links ++ [(score, href link)] else scored_links.

(** [scored_links] when the loop ends. *)
Definition scored_links (links : list Link) (keyword : string) : list (Z * string) :=
  fold_left (score_step keyword) links [].

(** [scored_links] after [.sort(reverse=True, key=lambda x: x[0])]. *)
Definition ranked_links (links : list Link) (keyword : string) : list (Z * string) :=
  Py.sort_reverse fst (scored_links links keyword).

(** [fuzzy_match(links, keyword, topn)] *)
Definition fuzzy_match (links : list Link) (keyword : string) (topn : option Z)
  : list string :=
  map snd (Py.slice_to topn (ranked_links links keyword)).

(** Every input link with its score, in input order. *)
Definition all_scored (links : list Link) (keyword : string) : list (Z * string) :=
  map (fun link => (link_score keyword link, href link)) links.

(** The links that score above 0, in input order. *)
Definition matches (links : list Link) (keyword : string) : list (Z * string) :=
  filter (fun p => 0 <? fst p) (all_scored links keyword).

End Matcher.

(** ** Report files: [save_links] and [read_links] *)

Definition LF : ascii := "010"%char.
Definition CR : ascii := "013"%char.
Definition QUOTE : ascii := "034"%char.
Definition nl : string := String LF EmptyString.

Module TextFile.

(** Reading in text mode translates the line ends CR LF and CR to LF. *)
Fixpoint universal_newlines (s : string) : string :=
  match s with
  | EmptyString => EmptyString
  | String c t =>
      if Ascii.eqb c CR then
        match t with
        | String d t' =>
            if Ascii.eqb d LF then String LF (universal_newlines t')
            else String LF (universal_newlines t)
        | EmptyString => String LF EmptyString
        end
      else String c (universal_newlines t)
  end.

(** The lines of a text whose only line end is LF, each with its line end;
    a last line without one is a line too. *)
Fixpoint lines_keepends (s : string) : list string :=
  match s with
  | EmptyString => []
  | String c t =>
      if Ascii.eqb c LF then nl :: lines_keepends t
      else match lines_keepends t with
           | [] => [String c EmptyString]
           | l :: ls => String c l :: ls
           end
  end.

(** [for line in f] on a file opened with [open(name, 'r')]. *)
Definition iter_lines (contents : string) : list string :=
  lines_keepends (universal_newlines contents).

(** [f.write(s)] on a file opened for writing: the contents grow by [s]. *)
Definition write (contents s : string) : string := contents ++ s.

End TextFile.

(** The files the report functions see: a path has contents or is absent. *)
Definition Files := string -> option string.

Definition store (fs : Files) (name contents : string) : Files :=
  fun n => if String.eqb n name then Some contents else fs n.

(** [read_keywords(keyword_file)]: the stripped lines that are not empty,
    or the message of [sys.exit] when the file is absent. *)
Definition read_keywords (fs : Files) (keyword_file : string) : string + list string :=
  match fs keyword_file with
  | None => inl ("Error: Keyword file " ++ keyword_file ++ " not found.")
  | Some contents =>
      inr (map Py.strip
             (filter (fun line => negb (String.eqb (Py.strip line) EmptyString))
                     (TextFile.iter_lines contents)))
  end.

(** The body of [for keyword, links in keyword_links.items()], on the
    contents written so far. *)
Definition save_links_block (f : string) (entry : string * list string) : string :=
  let '(keyword, links) := entry in
  let f := TextFile.write f ("--- " ++ keyword ++ " ---" ++ nl) in
  let f := fold_left (fun f link => TextFile.write f (link ++ nl)) links f in
  TextFile.write f nl.

(** What [save_links] leaves in [output_file]: [open(output_file, 'w')]
    starts from an empty file. *)
Definition save_links_contents (keyword_links : list (string * list string)) : string :=
  fold_left save_links_block keyword_links EmptyString.

(** [save_links(keyword_links, output_file)]: the files afterwards and the
    line printed. *)
Definition save_links (fs : Files) (keyword_links : list (string * list string))
    (output_file : string) : Files * string :=
  (store fs output_file (save_links_contents keyword_links),
   "Links saved to " ++ output_file).

(** [re.match(r'^https?://', s)] finds a match. *)
Definition match_http (s : string) : bool :=
  Py.startswith "http://" s || Py.startswith "https://" s.

(** The comprehension of [read_links] on the lines of the file. *)
Definition ingest (lines : list string) : list string :=
  map Py.strip (filter (fun line => match_http (Py.strip line)) lines).

(** [read_links(link_file)]: the list read, or the message of [sys.exit]
    when the file is absent. *)
Definition read_links (fs : Files) (link_file : string) : string + list string :=
  match fs link_file with
  | None => inl ("Error: Link file " ++ link_file ++ " not found.")
  | Some contents =>
      inr (ingest (TextFile.iter_lines contents))
  end.

(** One block of the report, as the format describes it: the header line,
    one line per link, one empty line. *)
Definition report_block (entry : string * list string) : string :=
  "--- " ++ fst entry ++ " ---" ++ nl
  ++ fold_right String.append EmptyString (map (fun link => link ++ nl) (snd entry))
  ++ nl.

(** The report as the format describes it: the blocks one after another. *)
Definition report (keyword_links : list (string * list string)) : string :=
  fold_right String.append EmptyString (map report_block keyword_links).

(** No character of [s] satisfies [p]. *)
Definition free_of (p : ascii -> bool) (s : string) : bool :=
  forallb (fun c => negb (p c)) (list_ascii_of_string s).

(** An href that begins with http:// or https:// and holds no white space. *)
Definition plain_url (h : string) : bool :=
  match_http h && free_of Py.isspace h.

(** A text without line end. *)
Definition one_line (s : string) : bool :=
  free_of (fun c => Ascii.eqb c LF || Ascii.eqb c CR) s.

(** A line as [for line in f] gives it: a text free of line ends, with or
    without a line feed after it. *)
Definition is_line (l : string) : Prop :=
  exists body, one_line body = true /\ (l = body ++ nl \/ l = body).

(** *** The ranking half of [main] *)

(** [d[key] = value] on a dict kept as its list of items: a key already
    there keeps its place and takes the new value, a new key goes last. *)
Fixpoint dict_set {V : Type} (d : list (string * V)) (key : string) (value : V)
  : list (string * V) :=
  match d with
  | [] => [(key, value)]
  | (k, v) :: rest =>
      if String.eqb k key then (k, value) :: rest
      else (k, v) :: dict_set rest key value
  end.

(** Lines 137 to 140: [keyword_links] after the loop over the keywords. *)
Definition main_keyword_links (partial_ratio : string -> string -> Z)
    (lower : string -> string) (links : list Link) (keywords : list string)
    (topn : option Z) : list (string * list string) :=
  fold_left
    (fun keyword_links keyword =>
       dict_set keyword_links keyword
         (fuzzy_match partial_ratio lower links keyword topn))
    keywords [].

(** ** Exceptions, the world, and the monad of the downloader *)

(** A raised exception: whether it is an instance of [Exception] (errors
    are; [KeyboardInterrupt] and [SystemExit] are not), and [str(e)]. *)
Record exn := { is_Exception : bool; exn_str : string }.

(** What the script can change outside itself while it downloads.  The
    files opened for appending (the error log) are kept apart from the
    downloaded files. *)
Record World := {
  requests_made : nat;             (* GET requests issued so far *)
  stdout : list string;            (* lines written by [print] *)
  logs : string -> string;         (* contents of the files opened with 'a' *)
  disk : list (string * string);   (* files opened with 'wb', last opened first *)
  bars : list (string * Z)         (* [tqdm] bars opened: description, total *)
}.

(** The reply to a GET once the connection is made. *)
Record Response := {
  status_error : option exn;           (* raised by [raise_for_status()], if any *)
  content_disposition : option string; (* [headers.get('Content-Disposition')] *)
  content_length : exn + Z;            (* [int(headers.get('content-length', 0))] *)
  chunks : list string;                (* yielded by [iter_content(8192)] *)
  stream_error : option exn            (* raised by [iter_content] after them *)
}.

(** The network and the operating system, as the downloader meets them:
    the reply to the [i]-th GET issued, and the exception, if any, raised
    when a path is opened for writing, when a path is opened for appending,
    and when a directory is created. *)
Record Env := {
  http_get : nat -> string -> exn + Response;
  open_wb : string -> option exn;   (* [open(name, 'wb')] *)
  open_a : string -> option exn;    (* [open(name, 'a')] *)
  makedirs : string -> option exn   (* [os.makedirs(name, exist_ok=True)] *)
}.

(** How a computation ends.  [OutOfFuel] belongs to the model only: the
    loop below is given the number of turns it may take. *)
Inductive outcome (A : Type) : Type :=
| Return (a : A)
| Raise (e : exn)
| OutOfFuel.
Arguments Return {A} a.
Arguments Raise {A} e.
Arguments OutOfFuel {A}.

Definition M (A : Type) : Type := World -> outcome A * World.

Definition ret {A} (a : A) : M A := fun w => (Return a, w).

Definition bind {A B} (m : M A) (k : A -> M B) : M B :=
  fun w =>
    match m w with
    | (Return a, w') => k a w'
    | (Raise e, w') => (Raise e, w')
    | (OutOfFuel, w') => (OutOfFuel, w')
    end.

Definition raise {A} (e : exn) : M A := fun w => (Raise e, w).

(** [try: body  except Exception as e: handler(e)]: an exception outside
    [Exception] is not caught. *)
Definition try_except_Exception {A} (body : M A) (handler : exn -> M A) : M A :=
  fun w =>
    match body w with
    | (Raise e, w') => if is_Exception e then handler e w' else (Raise e, w')
    | r => r
    end.

(** The files after [s] is appended to the one called [name]. *)
Definition append_to (files : string -> string) (name s : string) : string -> string :=
  fun n => if String.eqb n name then files n ++ s else files n.

(** [print(line)]; writing to the console is taken to succeed. *)
Definition print (line : string) : M unit :=
  fun w => (Return tt,
            {| requests_made := requests_made w; stdout := stdout w ++ [line];
               logs := logs w; disk := disk w; bars := bars w |}).

(** [with open(error_log, 'a') as log_file: log_file.write(s)]: opening
    the file raises and nothing is written, or the text is appended; the
    write to the opened file is taken to succeed, as it is for the file
    that is downloaded. *)
Definition log_append (env : Env) (error_log s : string) : M unit :=
  fun w =>
    match open_a env error_log with
    | Some e => (Raise e, w)
    | None =>
        (Return tt,
         {| requests_made := requests_made w; stdout := stdout w;
            logs := append_to (logs w) error_log s;
            disk := disk w; bars := bars w |})
    end.

(** [requests.get(url, stream=True)]: one more request is made; it raises
    or gives a response. *)
Definition requests_get (env : Env) (url : string) : M Response :=
  fun w =>
    let w' := {| requests_made := S (requests_made w); stdout := stdout w;
                 logs := logs w; disk := disk w; bars := bars w |} in
    match http_get env (requests_made w) url with
    | inl e => (Raise e, w')
    | inr r => (Return r, w')
    end.

(** Raise the exception, if there is one. *)
Definition raise_if (e : option exn) : M unit :=
  match e with
  | Some e => raise e
  | None => ret tt
  end.

(** [int(r.headers.get('content-length', 0))] *)
Definition int_content_length (r : Response) : M Z :=
  match content_length r with
  | inl e => raise e
  | inr n => ret n
  end.

(** [open(local_filename, 'wb')]: raises, or leaves an empty file. *)
Definition open_for_write (env : Env) (local_filename : string) : M unit :=
  fun w =>
    match open_wb env local_filename with
    | Some e => (Raise e, w)
    | None =>
        (Return tt,
         {| requests_made := requests_made w; stdout := stdout w;
            logs := logs w; disk := (local_filename, EmptyString) :: disk w;
            bars := bars w |})
    end.

(** [tqdm(desc=display_name, total=total_size, ...)] *)
Definition tqdm_open (display_name : string) (total_size : Z) : M unit :=
  fun w => (Return tt,
            {| requests_made := requests_made w; stdout := stdout w;
               logs := logs w; disk := disk w;
               bars := bars w ++ [(display_name, total_size)] |}).

(** [f.write(chunk)] on the file opened last. *)
Definition write_chunk (chunk : string) : M unit :=
  fun w =>
    (Return tt,
     {| requests_made := requests_made w; stdout := stdout w;
        logs := logs w;
        disk := match disk w with
                | (name, bytes) :: rest => (name, bytes ++ chunk) :: rest
                | [] => []
                end;
        bars := bars w |}).

(** [for chunk in r.iter_content(chunk_size=8192): f.write(chunk); ...] *)
Fixpoint write_chunks (cs : list string) : M unit :=
  match cs with
  | [] => ret tt
  | chunk :: rest => bind (write_chunk chunk) (fun _ => write_chunks rest)
  end.

(** ** File names *)

Module OsPath.

(** [os.path.join(a, b)] (POSIX): an absolute [b] replaces [a]; otherwise
    the two are put together with one separator between them. *)
Definition join (a b : string) : string :=
  if Py.startswith "/" b then b
  else match a with
       | EmptyString => b
       | _ => if Ascii.eqb (last (list_ascii_of_string a) "/"%char) "/"%char
              then a ++ b else a ++ "/" ++ b
       end.

(** [os.path.basename(p)] (POSIX): what follows the last separator. *)
Definition basename (p : string) : string := Py.split_last "/"%char p.

End OsPath.

Module Re.

(** The text up to the first line feed: what [.+] can run over at most. *)
Fixpoint upto_newline (s : string) : string :=
  match s with
  | EmptyString => EmptyString
  | String c t => if Ascii.eqb c LF then EmptyString else String c (upto_newline t)
  end.

(** Position of the last double quote. *)
Fixpoint rindex_quote (s : string) : option nat :=
  match s with
  | EmptyString => None
  | String c t =>
      match rindex_quote t with
      | Some j => Some (S j)
      | None => if Ascii.eqb c QUOTE then Some O else None
      end
  end.

(** A match of [filename="(.+)"] at the very start of [s]: the group, and
    the length of the match.  [.+] is greedy and takes at least one
    character, so the closing quote is the last one of the line. *)
Definition match_here (s : string) : option (string * nat) :=
  if Py.startswith ("filename=" ++ String QUOTE EmptyString) s then
    let line := upto_newline (substring 10 (String.length s) s) in
    match rindex_quote line with
    | Some (S j) => Some (substring 0 (S j) line, (10 + S j + 1)%nat)
    | _ => None
    end
  else None.

(** Scan from left to right; [skip] characters belong to the match found
    last and start no new one. *)
Fixpoint findall_from (skip : nat) (s : string) : list string :=
  match s with
  | EmptyString => []
  | String _ t =>
      match skip with
      | S k => findall_from k t
      | O =>
          match match_here s with
          | Some (group, len) => group :: findall_from (Nat.pred len) t
          | None => findall_from O t
          end
      end
  end.

(** [re.findall('filename="(.+)"', s)] *)
Definition findall_filename (s : string) : list string := findall_from O s.

End Re.

(** What the words for a file name mean, written apart from the functions
    above: [seg] is the final segment of [s] when it holds no [sep] and is
    what follows the last [sep] of [s], or the whole of [s] when [s] holds
    none. *)
Definition final_segment (sep : ascii) (s seg : string) : Prop :=
  free_of (Ascii.eqb sep) seg = true
  /\ (s = seg \/ exists before, s = before ++ String sep seg).

(** ** Retrying fetcher: [download_link] *)

Section Fetcher.
(** [urllib.parse.unquote] *)
Variable unquote : string -> string.
Variable env : Env.

Local Notation "x <- m ;; k" := (bind m (fun x => k))
  (at level 61, m at next level, right associativity).
Local Notation "m ;; k" := (bind m (fun _ => k))
  (at level 61, right associativity).

(** Lines 90 to 95: the path the body is written to. *)
Definition local_filename_of (url path : string) (r : Response) : string :=
  match content_disposition r with
  | Some (String _ _ as filename) =>
      match Re.findall_filename filename with
      | name :: _ => OsPath.join path name
      | [] => OsPath.join path (Py.split_last "/"%char url)
      end
  | _ => OsPath.join path (Py.split_last "/"%char url)
  end.

(** Lines 97 and 98: the description of the progress bar. *)
Definition display_name_of (local_filename : string) : string :=
  let readable_name := unquote (OsPath.basename local_filename) in
  if (String.length readable_name <=? 30)%nat then readable_name
  else Py.take 27 readable_name ++ "...".

(** The body of the [try] once [requests.get] has given the response [r]:
    lines 89 to 112. *)
Definition after_response (url path : string) (r : Response) : M string :=
  raise_if (status_error r) ;;
  let local_filename := local_filename_of url path r in
  let display_name := display_name_of local_filename in
  total_size <- int_content_length r ;;
  open_for_write env local_filename ;;
  tqdm_open display_name total_size ;;
  write_chunks (chunks r) ;;
  raise_if (stream_error r) ;;
  ret ("Downloaded " ++ url ++ " to " ++ local_filename).

(** The body of the [try]: one attempt, ending in the [return]. *)
Definition attempt_once (url path : string) : M string :=
  r <- requests_get env url ;;
  after_response url path r.

(** [while attempt < retries: try: ... except Exception as e: ...], with
    [fuel] turns allowed; falling out of the loop returns [None]. *)
Fixpoint retry_loop (fuel : nat) (url path : string) (retries : Z)
    (error_log : string) (attempt : Z) : M (option string) :=
  if attempt <? retries then
    match fuel with
    | O => fun w => (OutOfFuel, w)
    | S fuel' =>
        try_except_Exception
          (msg <- attempt_once url path ;; ret (Some msg))
          (fun e =>
             let attempt := attempt + 1 in
             if attempt =? retries then
               log_append env error_log
                 ("Failed to download " ++ url ++ " after "
                  ++ Py.str_of_int retries ++ " attempts: " ++ exn_str e ++ nl) ;;
               ret (Some ("Failed to download " ++ url ++ ": " ++ exn_str e))
             else
               print ("Retrying " ++ url ++ " (" ++ Py.str_of_int attempt
                      ++ "/" ++ Py.str_of_int retries ++ ")...") ;;
               retry_loop fuel' url path retries error_log attempt)
    end
  else ret None.

(** [download_link(url, path, retries, error_log)]; the loop takes at most
    [retries] turns. *)
Definition download_link (url path : string) (retries : Z) (error_log : string)
  : M (option string) :=
  retry_loop (Z.to_nat retries) url path retries error_log 0.

(** The [except] clause of one turn, lines 113 to 119: it ends the call
    with the failure message ([inl]) or leaves the count for the next turn
    ([inr]). *)
Definition on_Exception (url : string) (retries : Z) (error_log : string)
    (attempt : Z) (e : exn) : M (option string + Z) :=
  let attempt := attempt + 1 in
  if attempt =? retries then
    log_append env error_log
      ("Failed to download " ++ url ++ " after "
       ++ Py.str_of_int retries ++ " attempts: " ++ exn_str e ++ nl) ;;
    ret (inl (Some ("Failed to download " ++ url ++ ": " ++ exn_str e)))
  else
    print ("Retrying " ++ url ++ " (" ++ Py.str_of_int attempt
           ++ "/" ++ Py.str_of_int retries ++ ")...") ;;
    ret (inr attempt).

(** One turn of the loop from the point where [requests.get] has returned
    or raised [answer]: the rest of the [try] and the [except] clause. *)
Definition loop_turn (url path : string) (retries : Z) (error_log : string)
    (attempt : Z) (answer : outcome Response) : M (option string + Z) :=
  try_except_Exception
    (msg <- (r <- (fun w => (answer, w)) ;; after_response url path r) ;;
     ret (inl (Some msg)))
    (on_Exception url retries error_log attempt).

(** The two shapes of a result. *)
Definition Success (url : string) (result : option string) : Prop :=
  exists local_filename,
    result = Some ("Downloaded " ++ url ++ " to " ++ local_filename).

Definition Failure (url : string) (result : option string) : Prop :=
  exists e, result = Some ("Failed to download " ++ url ++ ": " ++ exn_str e).

(** The notice printed before attempt [attempt + 1]. *)
Definition retry_notice (url : string) (attempt retries : Z) : string :=
  "Retrying " ++ url ++ " (" ++ Py.str_of_int attempt ++ "/"
  ++ Py.str_of_int retries ++ ")...".

(** The notices for the failed attempts [first], [first + 1], ..., [k] of
    them. *)
Fixpoint retry_notices (url : string) (retries first : Z) (k : nat) : list string :=
  match k with
  | O => []
  | S k' => retry_notice url first retries :: retry_notices url retries (first + 1) k'
  end.

(** The line of the error log for a download given up. *)
Definition error_log_line (url : string) (attemptsMade : Z) (lastError : exn) : string :=
  "Failed to download " ++ url ++ " after " ++ Py.str_of_int attemptsMade
  ++ " attempts: " ++ exn_str lastError ++ nl.

(** The [i]-th GET issued fails an attempt for [url] under [path]: the
    attempt made with it raises an instance of [Exception]. *)
Definition attempt_fails (i : nat) (url path : string) (e : exn) : Prop :=
  is_Exception e = true /\
  forall w, requests_made w = i ->
    exists w', attempt_once url path w = (Raise e, w').

(** The [i]-th GET issued gives an attempt that runs to its [return]. *)
Definition attempt_succeeds (i : nat) (url path : string) (msg : string) : Prop :=
  forall w, requests_made w = i ->
    exists w', attempt_once url path w = (Return msg, w').

End Fetcher.

(** ** Download coordinator: [download_links]

    [ThreadPoolExecutor(max_workers)] is modelled as a transition system:
    a work queue, at most [max_workers] worker threads that each take one
    queued task at a time and run it to its end, and futures that hold what
    the task returned or raised.  The main thread creates the directory,
    submits one task per link and then takes the futures as they complete.
    A task is the call [download_link(url, path)] with the default
    [retries=3] and [error_log="error_log.txt"].  The threads share the
    world and take turns: a step of a running task is the test of its loop
    with the GET that follows, or what the turn does with the answer, the
    rest of the [try] and the [except] clause. *)

Inductive Phase :=
| Begin                   (* before [os.makedirs] *)
| MadeDirs                (* before [ThreadPoolExecutor(...)] *)
| Submitting (next : nat) (* in the comprehension, [next] links submitted *)
| Collecting              (* in the loop over [as_completed(futures)] *)
| Finished                (* [download_links] has returned *)
| Aborted (e : exn).      (* the main thread raised *)

(** Where a running task is in [download_link]: its [attempt], and the
    answer of [requests.get] when it has one. *)
Inductive Stage :=
| AtLoop (attempt : Z)
| Answered (attempt : Z) (answer : outcome Response).

Record Pool := {
  phase : Phase;
  dirs : list string;                          (* directories created *)
  queue : list nat;                            (* submitted, not started *)
  workers : list (option nat);                 (* threads: idle, or the task run *)
  locals : nat -> Stage;                       (* the local state of each task *)
  done : list (nat * outcome (option string)); (* completed futures, not yet yielded *)
  results : list (nat * option string);        (* [future.result()] printed so far *)
  world : World
}.

Definition set_local (i : nat) (st : Stage) (f : nat -> Stage) : nat -> Stage :=
  fun j => if (j =? i)%nat then st else f j.

(** The tasks in flight: one per busy worker. *)
Fixpoint in_flight (ws : list (option nat)) : list nat :=
  match ws with
  | [] => []
  | Some i :: t => i :: in_flight t
  | None :: t => in_flight t
  end.

(** Every task handed to the executor so far, wherever it is now. *)
Definition dispatched (s : Pool) : list nat :=
  queue s ++ in_flight (workers s) ++ map fst (done s) ++ map fst (results s).

(** What is left to do for the tasks handed over: a measure that goes down
    when a queued task is taken, when a running task ends and when a
    completed future is yielded. *)
Definition backlog (s : Pool) : nat :=
  3 * List.length (queue s) + 2 * List.length (in_flight (workers s))
  + List.length (done s).

(** [str(result)] as [print] shows it. *)
Definition str_of_result (r : option string) : string :=
  match r with
  | Some s => s
  | None => "None"
  end.

Definition initial (w : World) : Pool :=
  {| phase := Begin; dirs := []; queue := []; workers := [];
     locals := fun _ => AtLoop 0; done := []; results := []; world := w |}.

Section Coordinator.
Variable unquote : string -> string.
Variable env : Env.
Variable links : list string.
Variable max_workers : Z.
Variable path : string.

Inductive download_links_step : Pool -> Pool -> Prop :=
| step_makedirs s :
    phase s = Begin -> makedirs env path = None ->
    download_links_step s {| phase := MadeDirs; dirs := path :: dirs s; queue := queue s;
              workers := workers s; locals := locals s; done := done s;
              results := results s; world := world s |}
| step_makedirs_raises s e :
    phase s = Begin -> makedirs env path = Some e ->
    download_links_step s {| phase := Aborted e; dirs := dirs s; queue := queue s;
              workers := workers s; locals := locals s; done := done s;
              results := results s; world := world s |}
| step_executor s :
    phase s = MadeDirs -> 1 <= max_workers ->
    download_links_step s {| phase := Submitting 0; dirs := dirs s; queue := queue s;
              workers := workers s; locals := locals s; done := done s;
              results := results s; world := world s |}
| step_executor_invalid s :
    phase s = MadeDirs -> max_workers <= 0 ->
    download_links_step s {| phase := Aborted {| is_Exception := true;
                                  exn_str := "max_workers must be greater than 0" |};
              dirs := dirs s; queue := queue s;
              workers := workers s; locals := locals s; done := done s;
              results := results s; world := world s |}
| step_submit s i url :
    phase s = Submitting i -> nth_error links i = Some url ->
    download_links_step s {| phase := Submitting (S i); dirs := dirs s; queue := queue s ++ [i];
              workers := workers s; locals := locals s; done := done s;
              results := results s; world := world s |}
| step_submitted s :
    phase s = Submitting (List.length links) ->
    download_links_step s {| phase := Collecting; dirs := dirs s; queue := queue s;
              workers := workers s; locals := locals s; done := done s;
              results := results s; world := world s |}
| step_spawn s i :
    (phase s = Submitting (S i) \/ phase s = Collecting) ->
    Z.of_nat (List.length (workers s)) < max_workers ->
    download_links_step s {| phase := phase s; dirs := dirs s; queue := queue s;
              workers := workers s ++ [None]; locals := locals s; done := done s;
              results := results s; world := world s |}
| step_take s ws1 ws2 i q :
    (* a thread takes a task from the queue and enters [download_link] *)
    workers s = (ws1 ++ None :: ws2)%list -> queue s = i :: q ->
    download_links_step s {| phase := phase s; dirs := dirs s; queue := q;
              workers := ws1 ++ Some i :: ws2;
              locals := set_local i (AtLoop 0) (locals s); done := done s;
              results := results s; world := world s |}
| step_request s ws1 ws2 i url attempt :
    (* [while attempt < retries] holds and [requests.get] is called *)
    workers s = (ws1 ++ Some i :: ws2)%list -> nth_error links i = Some url ->
    locals s i = AtLoop attempt -> attempt < 3 ->
    download_links_step s {| phase := phase s; dirs := dirs s; queue := queue s;
              workers := workers s;
              locals := set_local i
                          (Answered attempt (fst (requests_get env url (world s))))
                          (locals s);
              done := done s; results := results s;
              world := snd (requests_get env url (world s)) |}
| step_falls_out s ws1 ws2 i attempt :
    (* [while attempt < retries] fails: the call returns [None] *)
    workers s = (ws1 ++ Some i :: ws2)%list ->
    locals s i = AtLoop attempt -> 3 <= attempt ->
    download_links_step s {| phase := phase s; dirs := dirs s; queue := queue s;
              workers := ws1 ++ None :: ws2; locals := locals s;
              done := done s ++ [(i, Return None)];
              results := results s; world := world s |}
| step_turn_again s ws1 ws2 i url attempt answer attempt' w' :
    (* the attempt failed and the loop goes on *)
    workers s = (ws1 ++ Some i :: ws2)%list -> nth_error links i = Some url ->
    locals s i = Answered attempt answer ->
    loop_turn unquote env url path 3 "error_log.txt" attempt answer (world s)
    = (Return (inr attempt'), w') ->
    download_links_step s {| phase := phase s; dirs := dirs s; queue := queue s;
              workers := workers s;
              locals := set_local i (AtLoop attempt') (locals s);
              done := done s; results := results s; world := w' |}
| step_turn_returns s ws1 ws2 i url attempt answer v w' :
    (* the call returns a message: the future is completed *)
    workers s = (ws1 ++ Some i :: ws2)%list -> nth_error links i = Some url ->
    locals s i = Answered attempt answer ->
    loop_turn unquote env url path 3 "error_log.txt" attempt answer (world s)
    = (Return (inl v), w') ->
    download_links_step s {| phase := phase s; dirs := dirs s; queue := queue s;
              workers := ws1 ++ None :: ws2; locals := locals s;
              done := done s ++ [(i, Return v)];
              results := results s; world := w' |}
| step_turn_raises s ws1 ws2 i url attempt answer e w' :
    (* the call raises: the future holds the exception *)
    workers s = (ws1 ++ Some i :: ws2)%list -> nth_error links i = Some url ->
    locals s i = Answered attempt answer ->
    loop_turn unquote env url path 3 "error_log.txt" attempt answer (world s)
    = (Raise e, w') ->
    download_links_step s {| phase := phase s; dirs := dirs s; queue := queue s;
              workers := ws1 ++ None :: ws2; locals := locals s;
              done := done s ++ [(i, Raise e)];
              results := results s; world := w' |}
| step_result s d1 d2 i v :
    phase s = Collecting -> done s = (d1 ++ (i, Return v) :: d2)%list ->
    download_links_step s {| phase := Collecting; dirs := dirs s; queue := queue s;
              workers := workers s; locals := locals s; done := d1 ++ d2;
              results := results s ++ [(i, v)];
              world := snd (print (str_of_result v) (world s)) |}
| step_result_raises s d1 d2 i e :
    phase s = Collecting -> done s = (d1 ++ (i, Raise e) :: d2)%list ->
    download_links_step s {| phase := Aborted e; dirs := dirs s; queue := queue s;
              workers := workers s; locals := locals s; done := d1 ++ d2;
              results := results s; world := world s |}
| step_return s :
    phase s = Collecting -> List.length (results s) = List.length links ->
    download_links_step s {| phase := Finished; dirs := dirs s; queue := queue s;
              workers := workers s; locals := locals s; done := done s;
              results := results s; world := world s |}.

(** The states a run of [download_links(links, max_workers, path)] passes
    through. *)
Inductive reachable (s0 : Pool) : Pool -> Prop :=
| reach_here : reachable s0 s0
| reach_step s s' : reachable s0 s -> download_links_step s s' -> reachable s0 s'.

End Coordinator.

(** [e] is an exception that the network or the opening of a file for
    writing raises. *)
Definition env_raises (env : Env) (e : exn) : Prop :=
  (exists i url, http_get env i url = inl e)
  \/ (exists i url r, http_get env i url = inr r
        /\ (status_error r = Some e \/ content_length r = inl e
            \/ stream_error r = Some e))
  \/ (exists name, open_wb env name = Some e).

(** Every exception the network and the file system raise is an instance of
    [Exception]. *)
Definition only_Exceptions (env : Env) : Prop :=
  (forall i url e, http_get env i url = inl e -> is_Exception e = true) /\
  (forall i url r e, http_get env i url = inr r ->
     status_error r = Some e \/ content_length r = inl e \/ stream_error r = Some e ->
     is_Exception e = true) /\
  (forall name e, open_wb env name = Some e -> is_Exception e = true).

(** *** What holds in every state of a run *)

(** How often task [j] occurs in a list of tasks. *)
Definition occ (j : nat) (l : list nat) : nat := count_occ Nat.eq_dec l j.

(** How many links the main thread has submitted when it is in phase [p];
    nothing is said once it has raised. *)
Definition submitted (n : nat) (p : Phase) : option nat :=
  match p with
  | Begin | MadeDirs => Some O
  | Submitting i => Some i
  | Collecting | Finished => Some n
  | Aborted _ => None
  end.

Section CoordinatorInvariant.
Variable unquote : string -> string.
Variable env : Env.
Variable links : list string.
Variable max_workers : Z.
Variable path : string.

(** A value printed by the main thread is an outcome for link [i]. *)
Definition outcome_of (i : nat) (v : option string) : Prop :=
  exists url, nth_error links i = Some url /\ (Success url v \/ Failure url v).

(** What the future of task [i] may hold: an outcome, an exception outside
    [Exception] that one of its attempts raised, or the exception raised
    when the error log was opened. *)
Definition future_of (i : nat) (r : outcome (option string)) : Prop :=
  (exists v, r = Return v /\ outcome_of i v)
  \/ (exists e, r = Raise e
        /\ ((env_raises env e /\ is_Exception e = false)
            \/ open_a env "error_log.txt" = Some e)).

(** The answer a task holds is one that the network gave. *)
Definition asked (answer : outcome Response) : Prop :=
  (exists i url e, http_get env i url = inl e /\ answer = Raise e)
  \/ (exists i url r, http_get env i url = inr r /\ answer = Return r).

(** The local state of a task that runs: its count is that of a turn of
    the loop. *)
Definition stage_ok (st : Stage) : Prop :=
  match st with
  | AtLoop attempt => 0 <= attempt < 3
  | Answered attempt answer => 0 <= attempt < 3 /\ asked answer
  end.

Definition pool_inv (s : Pool) : Prop :=
  Z.of_nat (List.length (workers s)) <= max_workers
  /\ (In path (dirs s)
      \/ (dispatched s = [] /\ (phase s = Begin \/ exists e, phase s = Aborted e)))
  /\ match submitted (List.length links) (phase s) with
     | Some k =>
         (k <= List.length links)%nat
         /\ forall j, occ j (dispatched s) = if (j <? k)%nat then 1%nat else 0%nat
     | None => True
     end
  /\ Forall (fun d => future_of (fst d) (snd d)) (done s)
  /\ Forall (fun d => outcome_of (fst d) (snd d)) (results s)
  /\ (phase s = Finished -> List.length (results s) = List.length links)
  /\ (forall i, In i (in_flight (workers s)) -> stage_ok (locals s i)).

End CoordinatorInvariant.

(** ** Values used in the examples *)

Module Sample.

(** A scorer: 100 when the keyword occurs in the text, 0 when it does not. *)
Definition exact_ratio (keyword txt : string) : Z :=
  match String.index 0 keyword txt with
  | Some _ => 100
  | None => 0
  end.

(** Lower case for the letters A to Z. *)
Definition lower_char (c : ascii) : ascii :=
  let n := nat_of_ascii c in
  if ((65 <=? n) && (n <=? 90))%nat then ascii_of_nat (n + 32) else c.

Fixpoint lower (s : string) : string :=
  match s with
  | EmptyString => EmptyString
  | String c t => String (lower_char c) (lower t)
  end.

Definition links : list Link :=
  [ {| href := "http://h/mario1.zip"; text := "Super Mario Bros (USA).zip" |};
    {| href := "http://h/other.zip"; text := "Unrelated File.zip" |};
    {| href := "http://h/mario3.zip"; text := "Super MARIO Bros 3.zip" |} ].

(** Percent-decoding that leaves every name as it is. *)
Definition unquote (s : string) : string := s.

(** Percent-decoding of the names of the examples: [%20] is a space, the
    other characters stand for themselves. *)
Fixpoint unquote_spaces (s : string) : string :=
  match s with
  | String "%" (String "2" (String "0" t)) => String " " (unquote_spaces t)
  | String c t => String c (unquote_spaces t)
  | EmptyString => EmptyString
  end.

Definition timeout : exn := {| is_Exception := true; exn_str := "timed out" |}.

Definition reply : Response :=
  {| status_error := None; content_disposition := None;
     content_length := inr 5; chunks := ["ab"; "cde"]; stream_error := None |}.

(** A reply that names the file in its Content-Disposition header. *)
Definition reply_named : Response :=
  {| status_error := None;
     content_disposition :=
       Some ("attachment; filename=" ++ String QUOTE "Super%20Mario%20Bros%20(USA)%20(Rev%201).zip"
             ++ String QUOTE EmptyString);
     content_length := inr 5; chunks := ["ab"; "cde"]; stream_error := None |}.

(** Every request times out. *)
Definition env_down : Env :=
  {| http_get := fun _ _ => inl timeout; open_wb := fun _ => None;
     open_a := fun _ => None; makedirs := fun _ => None |}.

(** The first two requests time out, the later ones are answered. *)
Definition env_flaky : Env :=
  {| http_get := fun i _ => if (i <? 2)%nat then inl timeout else inr reply;
     open_wb := fun _ => None; open_a := fun _ => None; makedirs := fun _ => None |}.


Definition w0 : World :=
  {| requests_made := 0; stdout := []; logs := fun _ => EmptyString;
     disk := []; bars := [] |}.

End Sample.

(** ** Further definitions: texts, the page fetch and [main] *)

(** A text written one element per line, each line ended by [line_end]. *)
Definition lines_text (line_end : string) (ls : list string) : string :=
  fold_right String.append EmptyString (map (fun l => l ++ line_end) ls).

(** The keys of a dict filled in the order of [keys]: each key once, at the
    place of its first occurrence. *)
Definition first_occurrences (keys : list string) : list string :=
  fold_left
    (fun seen key => if existsb (String.eqb key) seen then seen else (seen ++ [key])%list)
    keys [].

(** The classes of exception that [fetch_page] tells apart: [HTTPError],
    the other instances of [RequestException], and all the rest. *)
Inductive RequestsClass := HTTPError | RequestException | OtherException.

(** The web as [fetch_page] meets it: [requests.get(url)], then
    [raise_for_status()], then [.text] raise an exception of some class or
    give the text of the page. *)
Definition PageEnv := string -> (RequestsClass * exn) + string.

(** How a function that may call [sys.exit] ends. *)
Inductive ended (A : Type) : Type :=
| Value (a : A)
| SysExit (msg : string)
| Raised (e : exn).
Arguments Value {A} a.
Arguments SysExit {A} msg.
Arguments Raised {A} e.

(** [fetch_page(url)]: the first [except] clause takes an [HTTPError], the
    second every other [RequestException]; anything else is not caught. *)
Definition fetch_page (net : PageEnv) (url : string) : ended string :=
  match net url with
  | inr page => Value page
  | inl (HTTPError, e) => SysExit ("HTTP error occurred: " ++ exn_str e)
  | inl (RequestException, e) => SysExit ("Error fetching the page: " ++ exn_str e)
  | inl (OtherException, e) => Raised e
  end.

(** The namespace that [parse_arguments] returns. *)
Record Args := {
  args_url : option string;
  args_keywords : option string;
  args_output : string;
  args_download : bool;
  args_linkfile : option string;
  args_concurrent : Z;
  args_path : string;
  args_topn : option Z
}.

(** An option as a condition: [None] and the empty string count as false. *)
Definition truthy (o : option string) : option string :=
  match o with
  | Some (String _ _ as s) => Some s
  | _ => None
  end.

(** How [main] ends: it returns, it leaves through [sys.exit], an exception
    leaves it, or it goes on as [download_links(links, max_workers, path)]. *)
Inductive MainEnd :=
| MainReturns
| MainExits (msg : string)
| MainRaises (e : exn)
| MainDownloads (links : list string) (max_workers : Z) (path : string).

Section Main.
Variable partial_ratio : string -> string -> Z.
Variable lower : string -> string.
Variable net : PageEnv.
(** [extract_links(html_content, base_url)] *)
Variable extract_links : string -> string -> list Link.

(** Lines 144 to 148: the files are those the first half left. *)
Definition main_download (args : Args) (fs : Files) : MainEnd :=
  if args_download args then
    match truthy (args_linkfile args) with
    | None => MainExits "Error: Link file is required for downloading."
    | Some linkfile =>
        match read_links fs linkfile with
        | inl msg => MainExits msg
        | inr links_to_download =>
            MainDownloads links_to_download (args_concurrent args) (args_path args)
        end
    end
  else MainReturns.

(** [main()] on the parsed arguments: the files afterwards, the lines
    printed, and how it ends. *)
Definition main (args : Args) (fs : Files) : Files * list string * MainEnd :=
  match truthy (args_url args), truthy (args_keywords args) with
  | Some url, Some keyword_file =>
      match read_keywords fs keyword_file with
      | inl msg => (fs, [], MainExits msg)
      | inr keywords =>
          match fetch_page net url with
          | SysExit msg => (fs, [], MainExits msg)
          | Raised e => (fs, [], MainRaises e)
          | Value html_content =>
              let links := extract_links html_content url in
              let keyword_links :=
                main_keyword_links partial_ratio lower links keywords (args_topn args) in
              let '(fs', line) := save_links fs keyword_links (args_output args) in
              (fs', [line], main_download args fs')
          end
      end
  | _, _ => (fs, [], main_download args fs)
  end.

End Main.

(** ** The requests of a batch *)

(** The GET requests a running task has made, read off its local state:
    one for each turn it has behind it, and the one of the turn it is in
    once that is answered. *)
Definition requests_of (st : Stage) : nat :=
  match st with
  | AtLoop attempt => Z.to_nat attempt
  | Answered attempt _ => S (Z.to_nat attempt)
  end.

(** The requests that the tasks in flight have made so far. *)
Definition running_requests (s : Pool) : nat :=
  list_sum (map (fun i => requests_of (locals s i)) (in_flight (workers s))).

(** The downloads that have come to an end: the futures completed and not
    yet yielded, and the results printed. *)
Definition ended_tasks (s : Pool) : nat :=
  (List.length (done s) + List.length (results s))%nat.

(** The future whose exception the main thread raised again is in neither
    list any more. *)
Definition raised_tasks (p : Phase) : nat :=
  match p with
  | Aborted _ => 1%nat
  | _ => 0%nat
  end.

(** What [print(result)] has put on the console, in the order of the loop. *)
Definition printed_results (s : Pool) : list string :=
  map (fun d => str_of_result (snd d)) (results s).

(** The requests made and the lines printed since the world was [w0]; no
    task waits or runs twice. *)
Definition pool_tally (w0 : World) (s : Pool) : Prop :=
  NoDup (queue s ++ in_flight (workers s))
  /\ (requests_made w0 + running_requests s + ended_tasks s
      <= requests_made (world s))%nat
  /\ (requests_made (world s)
      <= requests_made w0 + running_requests s
         + 3 * (ended_tasks s + raised_tasks (phase s)))%nat
  /\ Subseq (printed_results s) (stdout (world s)).

Module SampleFiles.

(** A keyword file with spaces, an empty line and a CR LF line end; a link
    file with a header, a link and an empty line. *)
Definition fs : Files :=
  fun name =>
    if String.eqb name "keywords.txt"
    then Some ("  mario " ++ nl ++ nl ++ "zelda" ++ String CR nl)
    else if String.eqb name "links.txt"
    then Some ("--- mario ---" ++ nl ++ " http://h/mario1.zip" ++ nl ++ nl)
    else None.

(** A page whose links are [Sample.links], fetched without error. *)
Definition net : PageEnv := fun _ => inr "<html>".
Definition extract_links (html_content base_url : string) : list Link := Sample.links.

(** [-u http://h/ -kw keywords.txt -o out.txt -d -l out.txt -c 2 -p dl] *)
Definition args : Args :=
  {| args_url := Some "http://h/"; args_keywords := Some "keywords.txt";
     args_output := "out.txt"; args_download := true;
     args_linkfile := Some "out.txt"; args_concurrent := 2; args_path := "dl";
     args_topn := None |}.



(** The error log cannot be opened and every request times out. *)
Definition permission_denied : exn :=
  {| is_Exception := true; exn_str := "[Errno 13] Permission denied: 'error_log.txt'" |}.

Definition env_no_log : Env :=
  {| http_get := fun _ _ => inl Sample.timeout; open_wb := fun _ => None;
     open_a := fun _ => Some permission_denied; makedirs := fun _ => None |}.



(** A pool in which the one thread has taken the one task. *)
Definition pool_running : Pool :=
  {| phase := Collecting; dirs := ["dl"]; queue := []; workers := [Some O];
     locals := fun _ => AtLoop 0; done := []; results := []; world := Sample.w0 |}.

End SampleFiles.

(** * Properties *)

(** ** Lists: prefixes and subsequences *)

Lemma Prefix_firstn {A} (n : nat) (l : list A) : Prefix (firstn n l) l.
Proof. exists (skipn n l). symmetry. apply firstn_skipn. Qed.

Lemma Prefix_map {A B} (f : A -> B) (l1 l2 : list A) :
  Prefix l1 l2 -> Prefix (map f l1) (map f l2).
Proof. intros [t ->]. exists (map f t). apply map_app. Qed.

Lemma Prefix_In {A} (l1 l2 : list A) (x : A) : Prefix l1 l2 -> In x l1 -> In x l2.
Proof. intros [t ->] H. apply in_or_app. now left. Qed.

Lemma Subseq_filter {A} (f : A -> bool) (l : list A) : Subseq (filter f l) l.
Proof.
  induction l as [|x l IH]; simpl.
  - constructor.
  - destruct (f x); now constructor.
Qed.

Lemma slice_to_firstn {A} (stop : option Z) (l : list A) :
  exists n, Py.slice_to stop l = firstn n l.
Proof.
  destruct stop as [k|]; simpl.
  - destruct (0 <=? k); eexists; reflexivity.
  - exists (List.length l). symmetry. apply firstn_all.
Qed.

Lemma slice_to_Prefix {A} (stop : option Z) (l : list A) :
  Prefix (Py.slice_to stop l) l.
Proof.
  destruct (slice_to_firstn stop l) as [n ->]. apply Prefix_firstn.
Qed.

Lemma slice_to_length {A} (k : Z) (l : list A) :
  Z.of_nat (List.length (Py.slice_to (Some k) l)) =
  if 0 <=? k then Z.min k (Z.of_nat (List.length l))
  else Z.max 0 (Z.of_nat (List.length l) + k).
Proof.
  unfold Py.slice_to.
  destruct (Z.leb_spec 0 k); rewrite length_firstn; lia.
Qed.

(** ** The sort *)

Section SortFacts.
Context {A : Type} (key : A -> Z).

Lemma insert_desc_perm (x : A) (l : list A) :
  Permutation (Py.insert_desc key x l) (x :: l).
Proof.
  induction l as [|y t IH]; simpl.
  - apply Permutation_refl.
  - destruct (key x <? key y).
    + eapply Permutation_trans; [apply perm_skip, IH | apply perm_swap].
    + apply Permutation_refl.
Qed.

Lemma sort_reverse_perm (l : list A) : Permutation (Py.sort_reverse key l) l.
Proof.
  induction l as [|x t IH]; simpl.
  - constructor.
  - eapply Permutation_trans; [apply insert_desc_perm | now apply perm_skip].
Qed.

Lemma insert_desc_sorted (x : A) (l : list A) :
  StronglySorted (descending key) l -> StronglySorted (descending key) (Py.insert_desc key x l).
Proof.
  induction 1 as [|y t Ht IH Hy]; simpl.
  - repeat constructor.
  - destruct (Z.ltb_spec (key x) (key y)).
    + constructor; [exact IH|].
      eapply Permutation_Forall; [apply Permutation_sym, insert_desc_perm|].
      constructor; [unfold descending; lia | exact Hy].
    + constructor; [now constructor|].
      constructor; [unfold descending; lia|].
      eapply Forall_impl; [|exact Hy].
      unfold descending. intros; lia.
Qed.

Lemma sort_reverse_sorted (l : list A) :
  StronglySorted (descending key) (Py.sort_reverse key l).
Proof.
  induction l; simpl; [constructor | now apply insert_desc_sorted].
Qed.

(** Elements with one and the same key: the sort leaves them in the order
    they had. *)
Lemma insert_desc_ties (s : Z) (x : A) (l : list A) :
  filter (fun a => key a =? s) (Py.insert_desc key x l) =
  filter (fun a => key a =? s) (x :: l).
Proof.
  induction l as [|y t IH]; simpl; [reflexivity|].
  destruct (Z.ltb_spec (key x) (key y)); simpl; [|reflexivity].
  simpl in IH. rewrite IH.
  destruct (Z.eqb_spec (key x) s), (Z.eqb_spec (key y) s); try reflexivity; lia.
Qed.

Lemma sort_reverse_ties (s : Z) (l : list A) :
  filter (fun a => key a =? s) (Py.sort_reverse key l) =
  filter (fun a => key a =? s) l.
Proof.
  induction l as [|x t IH]; simpl; [reflexivity|].
  rewrite insert_desc_ties. simpl. now rewrite IH.
Qed.

End SortFacts.

(** A list sorted by descending key is fixed by its elements of each key
    taken in order: [list.sort(reverse=True, key=...)], whatever algorithm
    runs it, returns what [Py.sort_reverse] returns. *)
Lemma stable_descending_unique {A} (key : A -> Z) (l1 l2 : list A) :
  StronglySorted (descending key) l1 ->
  StronglySorted (descending key) l2 ->
  (forall s, filter (fun a => key a =? s) l1 = filter (fun a => key a =? s) l2) ->
  l1 = l2.
Proof.
  intros H1. revert l2.
  induction H1 as [|x t1 Ht1 IH Hx]; intros l2 H2 Heq.
  - destruct l2 as [|y t2]; [reflexivity|].
    specialize (Heq (key y)). simpl in Heq. rewrite Z.eqb_refl in Heq. discriminate.
  - destruct H2 as [|y t2 Ht2 Hy].
    + specialize (Heq (key x)). simpl in Heq. rewrite Z.eqb_refl in Heq. discriminate.
    + assert (Hxy : key x = key y).
      { pose proof (Heq (key x)) as Ex. pose proof (Heq (key y)) as Ey.
        simpl in Ex, Ey. rewrite Z.eqb_refl in Ex, Ey.
        destruct (Z.eqb_spec (key y) (key x)) as [|Nyx]; [congruence|].
        destruct (Z.eqb_spec (key x) (key y)) as [|Nxy]; [congruence|].
        assert (In x t2) as Hin2.
        { assert (In x (filter (fun a => key a =? key x) t2)) as Hin
            by (rewrite <- Ex; now left).
          apply filter_In in Hin. tauto. }
        assert (In y t1) as Hin1.
        { assert (In y (filter (fun a => key a =? key y) t1)) as Hin
            by (rewrite Ey; now left).
          apply filter_In in Hin. tauto. }
        rewrite Forall_forall in Hx, Hy.
        specialize (Hx _ Hin1). specialize (Hy _ Hin2).
        unfold descending in Hx, Hy. lia. }
      assert (x = y) as ->.
      { specialize (Heq (key x)). simpl in Heq.
        rewrite Hxy, Z.eqb_refl in Heq. congruence. }
      f_equal. apply IH; [exact Ht2|].
      intros s. specialize (Heq s). simpl in Heq.
      destruct (key y =? s); congruence.
Qed.

(** ** Matcher *)

Section MatcherFacts.
Variable partial_ratio : string -> string -> Z.
Variable lower : string -> string.


(** The loop collects the links that score above 0, in input order. *)
Lemma score_loop (keyword : string) (links : list Link) (acc : list (Z * string)) :
  fold_left (score_step partial_ratio lower keyword) links acc
  = (acc ++ matches partial_ratio lower links keyword)%list.
Proof.
  revert acc. induction links as [|link links IH]; intros acc; simpl.
  - now rewrite app_nil_r.
  - rewrite IH. unfold score_step, matches. simpl.
    destruct (0 <? link_score partial_ratio lower keyword link).
    + now rewrite <- app_assoc.
    + reflexivity.
Qed.

Lemma scored_links_matches (links : list Link) (keyword : string) :
  scored_links partial_ratio lower links keyword = matches partial_ratio lower links keyword.
Proof. unfold scored_links. now rewrite score_loop. Qed.

Lemma ranked_links_perm (links : list Link) (keyword : string) :
  Permutation (ranked_links partial_ratio lower links keyword) (matches partial_ratio lower links keyword).
Proof.
  unfold ranked_links. rewrite scored_links_matches.
  apply sort_reverse_perm.
Qed.

Lemma fuzzy_match_prefix (links : list Link) (keyword : string) (topn : option Z) :
  Prefix (fuzzy_match partial_ratio lower links keyword topn) (fuzzy_match partial_ratio lower links keyword None).
Proof. unfold fuzzy_match. apply Prefix_map, slice_to_Prefix. Qed.

Lemma fuzzy_match_all_length (links : list Link) (keyword : string) :
  List.length (fuzzy_match partial_ratio lower links keyword None) = List.length (matches partial_ratio lower links keyword).
Proof.
  unfold fuzzy_match. simpl. rewrite length_map.
  apply Permutation_length, ranked_links_perm.
Qed.

End MatcherFacts.

Lemma Subseq_map {A B} (f : A -> B) (l1 l2 : list A) :
  Subseq l1 l2 -> Subseq (map f l1) (map f l2).
Proof. induction 1; simpl; now constructor. Qed.

Lemma all_scored_hrefs partial_ratio lower (links : list Link) (keyword : string) :
  map snd (all_scored partial_ratio lower links keyword) = map href links.
Proof. unfold all_scored. rewrite map_map. reflexivity. Qed.

(** Whatever the cut-off, every href returned is the href of an input
    link. *)
Lemma fuzzy_match_hrefs partial_ratio lower (links : list Link) (keyword : string)
    (topn : option Z) (h : string) :
  In h (fuzzy_match partial_ratio lower links keyword topn) -> In h (map href links).
Proof.
  intros Hh. eapply Prefix_In in Hh; [|apply fuzzy_match_prefix].
  unfold fuzzy_match in Hh. simpl in Hh.
  eapply Permutation_in in Hh; [|apply Permutation_map, ranked_links_perm].
  rewrite <- (all_scored_hrefs partial_ratio lower links keyword).
  apply in_map_iff in Hh. destruct Hh as [p [<- Hp]].
  apply in_map. unfold matches in Hp. apply filter_In in Hp. tauto.
Qed.

(** C2. With no cut-off, [fuzzy_match] returns the hrefs of the ranked
    list, and the ranked list is the sub-sequence of the input links that
    score above 0 (every link scoring 0 dropped, every other link kept as
    often as it occurs), put in order of descending score, links of equal
    score in their input order.  With any cut-off, every href returned is
    the href of an input link. *)
Theorem fuzzy_match_ranking
    (partial_ratio : string -> string -> Z) (lower : string -> string)
    (links : list Link) (keyword : string) :
  let kept := matches partial_ratio lower links keyword in
  let ranked := ranked_links partial_ratio lower links keyword in
  fuzzy_match partial_ratio lower links keyword None = map snd ranked
  /\ Subseq (map snd kept) (map href links)
  /\ Permutation ranked kept
  /\ Permutation (fuzzy_match partial_ratio lower links keyword None) (map snd kept)
  /\ StronglySorted (descending fst) ranked
  /\ (forall s, filter (fun p => fst p =? s) ranked = filter (fun p => fst p =? s) kept)
  /\ Forall (fun p => 0 < fst p) ranked
  /\ (forall link, In link links -> 0 < link_score partial_ratio lower keyword link ->
        In (href link) (fuzzy_match partial_ratio lower links keyword None))
  /\ (forall topn h, In h (fuzzy_match partial_ratio lower links keyword topn) ->
        In h (map href links)).
Proof.
  intros kept ranked.
  assert (Hperm : Permutation ranked kept) by apply ranked_links_perm.
  assert (Hsub : Subseq (map snd kept) (map href links)).
  { rewrite <- (all_scored_hrefs partial_ratio lower links keyword).
    apply Subseq_map, Subseq_filter. }
  repeat split.
  - exact Hsub.
  - exact Hperm.
  - unfold fuzzy_match. simpl. now apply Permutation_map.
  - unfold ranked, ranked_links. apply sort_reverse_sorted.
  - intros s. unfold ranked, ranked_links.
    rewrite sort_reverse_ties. now rewrite scored_links_matches.
  - eapply Permutation_Forall; [apply Permutation_sym, Hperm|].
    apply Forall_forall. intros p Hp. unfold kept, matches in Hp.
    apply filter_In in Hp. destruct Hp as [_ Hp]. now apply Z.ltb_lt.
  - intros link Hin Hpos. unfold fuzzy_match. simpl.
    change (href link) with (snd (link_score partial_ratio lower keyword link, href link)).
    apply in_map. eapply Permutation_in; [apply Permutation_sym, Hperm|].
    unfold kept, matches. apply filter_In. split.
    + unfold all_scored.
      apply (in_map (fun l => (link_score partial_ratio lower keyword l, href l))), Hin.
    + now apply Z.ltb_lt.
  - intros topn h. apply fuzzy_match_hrefs.
Qed.

(** C6, as the code has it.  For every cut-off [k], negative ones too, the
    result is a prefix of the result without cut-off, and the result without
    cut-off has one entry per match.  For [k >= 0] the result has
    [min k matchCount] entries; for [k < 0] the slice leaves out the last
    [-k] matches. *)
Theorem fuzzy_match_topn
    (partial_ratio : string -> string -> Z) (lower : string -> string)
    (links : list Link) (keyword : string) (k : Z) :
  let all := fuzzy_match partial_ratio lower links keyword None in
  let top := fuzzy_match partial_ratio lower links keyword (Some k) in
  let matchCount := Z.of_nat (List.length (matches partial_ratio lower links keyword)) in
  Prefix top all
  /\ Z.of_nat (List.length all) = matchCount
  /\ (0 <= k -> Z.of_nat (List.length top) = Z.min k matchCount)
  /\ (k < 0 -> Z.of_nat (List.length top) = Z.max 0 (matchCount + k)).
Proof.
  intros all top matchCount.
  assert (Hlen : Z.of_nat (List.length all) = matchCount).
  { unfold all, matchCount. now rewrite fuzzy_match_all_length. }
  assert (Htop : Z.of_nat (List.length top) =
                 if 0 <=? k then Z.min k matchCount else Z.max 0 (matchCount + k)).
  { unfold top, fuzzy_match. rewrite length_map, slice_to_length.
    unfold all, fuzzy_match in Hlen. simpl in Hlen. rewrite length_map in Hlen.
    now rewrite Hlen. }
  repeat split.
  - apply fuzzy_match_prefix.
  - exact Hlen.
  - intros Hk. rewrite Htop. destruct (Z.leb_spec 0 k); [reflexivity | lia].
  - intros Hk. rewrite Htop. destruct (Z.leb_spec 0 k); [lia | reflexivity].
Qed.

Lemma fuzzy_match_topn_witness :
  0 <= 1 /\
  Z.of_nat (List.length
              (fuzzy_match Sample.exact_ratio Sample.lower Sample.links "mario" (Some 1)))
  = Z.min 1 (Z.of_nat (List.length
                         (matches Sample.exact_ratio Sample.lower Sample.links "mario"))).
Proof.
  split; [lia|].
  apply (fuzzy_match_topn Sample.exact_ratio Sample.lower Sample.links "mario" 1).
  lia.
Defined.

(** C6 as stated fails at [topn = -1]: two links match, one href is
    returned, and [min (-1) 2] is negative. *)
Lemma fuzzy_match_topn_negative :
  fuzzy_match Sample.exact_ratio Sample.lower Sample.links "mario" (Some (-1))
    = ["http://h/mario1.zip"]
  /\ fuzzy_match Sample.exact_ratio Sample.lower Sample.links "mario" None
    = ["http://h/mario1.zip"; "http://h/mario3.zip"]
  /\ ~ (Z.of_nat (List.length
          (fuzzy_match Sample.exact_ratio Sample.lower Sample.links "mario" (Some (-1))))
        <= Z.min (-1)
             (Z.of_nat (List.length
                (fuzzy_match Sample.exact_ratio Sample.lower Sample.links "mario" None)))).
Proof.
  split; [reflexivity|]. split; [reflexivity|].
  vm_compute. intros H. apply H. reflexivity.
Qed.

(** ** Report files *)

Lemma append_assoc (a b c : string) : (a ++ b) ++ c = a ++ (b ++ c).
Proof. induction a as [|x a IH]; simpl; [reflexivity | now rewrite IH]. Qed.

Lemma append_nil_r (a : string) : a ++ EmptyString = a.
Proof. induction a as [|x a IH]; simpl; [reflexivity | now rewrite IH]. Qed.

(** Writing the links of a block one by one appends their lines. *)
Lemma write_links (links : list string) (f : string) :
  fold_left (fun f link => TextFile.write f (link ++ nl)) links f
  = f ++ fold_right String.append EmptyString (map (fun link => link ++ nl) links).
Proof.
  revert f. induction links as [|link links IH]; intros f; simpl.
  - now rewrite append_nil_r.
  - rewrite IH. unfold TextFile.write. now rewrite append_assoc.
Qed.

Lemma save_links_block_report (f : string) (entry : string * list string) :
  save_links_block f entry = f ++ report_block entry.
Proof.
  destruct entry as [keyword links]. unfold save_links_block, report_block.
  rewrite write_links. unfold TextFile.write. simpl fst. simpl snd.
  now rewrite !append_assoc.
Qed.

Lemma save_links_loop (keyword_links : list (string * list string)) (f : string) :
  fold_left save_links_block keyword_links f = f ++ report keyword_links.
Proof.
  revert f. induction keyword_links as [|entry rest IH]; intros f; simpl.
  - unfold report. simpl. now rewrite append_nil_r.
  - rewrite IH, save_links_block_report. unfold report. simpl.
    now rewrite append_assoc.
Qed.

Lemma save_links_contents_report (keyword_links : list (string * list string)) :
  save_links_contents keyword_links = report keyword_links.
Proof. unfold save_links_contents. now rewrite save_links_loop. Qed.

Lemma store_same (fs : Files) (name contents : string) :
  store fs name contents name = Some contents.
Proof. unfold store. now rewrite String.eqb_refl. Qed.

(** C10. What [save_links] leaves in the output file is one block per
    entry of the mapping, in the order of the mapping: the header line
    [--- keyword ---], one line per href, one empty line; for an entry
    without hrefs the block is the header line and the empty line. *)
Theorem save_links_blocks
    (fs : Files) (keyword_links : list (string * list string)) (output_file : string) :
  fst (save_links fs keyword_links output_file) output_file
    = Some (fold_right String.append EmptyString (map report_block keyword_links))
  /\ List.length (map report_block keyword_links) = List.length keyword_links
  /\ (forall keyword links,
        report_block (keyword, links)
        = "--- " ++ keyword ++ " ---" ++ nl
          ++ fold_right String.append EmptyString (map (fun link => link ++ nl) links)
          ++ nl)
  /\ (forall keyword, report_block (keyword, []) = "--- " ++ keyword ++ " ---" ++ nl ++ nl).
Proof.
  repeat split.
  - unfold save_links. simpl. rewrite store_same, save_links_contents_report.
    reflexivity.
  - apply length_map.
Qed.

(** *** Reading the report back *)

Lemma free_of_cons (p : ascii -> bool) (c : ascii) (s : string) :
  free_of p (String c s) = true -> p c = false /\ free_of p s = true.
Proof.
  unfold free_of. simpl. intros H. apply andb_prop in H. destruct H as [H1 H2].
  split; [now apply negb_true_iff | exact H2].
Qed.

(** A text without line end, written with its line end, is read back as
    one line. *)
Lemma iter_lines_line (s rest : string) :
  one_line s = true ->
  TextFile.iter_lines (s ++ nl ++ rest) = (s ++ nl) :: TextFile.iter_lines rest.
Proof.
  unfold TextFile.iter_lines, one_line.
  induction s as [|c s IH]; intros H.
  - reflexivity.
  - apply free_of_cons in H. destruct H as [Hc Hs].
    apply orb_false_elim in Hc. destruct Hc as [Hlf Hcr].
    simpl. rewrite Hcr. simpl. rewrite Hlf.
    simpl in IH. rewrite (IH Hs). reflexivity.
Qed.

Lemma iter_lines_lines (ls : list string) (rest : string) :
  Forall (fun s => one_line s = true) ls ->
  TextFile.iter_lines
    (fold_right String.append EmptyString (map (fun s => s ++ nl) ls) ++ rest)
  = (map (fun s => (s ++ nl)%string) ls ++ TextFile.iter_lines rest)%list.
Proof.
  induction 1 as [|s ls Hs Hls IH]; simpl; [reflexivity|].
  rewrite !append_assoc. rewrite iter_lines_line by exact Hs. now rewrite IH.
Qed.

Lemma ingest_app (l1 l2 : list string) :
  ingest (l1 ++ l2) = (ingest l1 ++ ingest l2)%list.
Proof. unfold ingest. now rewrite filter_app, map_app. Qed.

Lemma rstrip_line (s : string) :
  free_of Py.isspace s = true -> Py.rstrip (s ++ nl) = s.
Proof.
  induction s as [|c s IH]; intros H.
  - reflexivity.
  - apply free_of_cons in H. destruct H as [Hc Hs].
    simpl. rewrite (IH Hs). rewrite Hc. now destruct s.
Qed.

Lemma strip_line (s : string) :
  free_of Py.isspace s = true -> Py.strip (s ++ nl) = s.
Proof.
  intros H. unfold Py.strip.
  destruct s as [|c s].
  - reflexivity.
  - pose proof (free_of_cons _ _ _ H) as [Hc _].
    change (Py.lstrip (String c s ++ nl)) with
      (if Py.isspace c then Py.lstrip (s ++ nl) else String c s ++ nl).
    rewrite Hc. now apply rstrip_line.
Qed.

Lemma space_is_linebreak_free (h : string) :
  free_of Py.isspace h = true -> one_line h = true.
Proof.
  unfold one_line, free_of. rewrite !forallb_forall. intros H c Hin.
  specialize (H c Hin). apply negb_true_iff in H. apply negb_true_iff.
  apply orb_false_intro.
  - destruct (Ascii.eqb_spec c LF) as [->|]; [discriminate H | reflexivity].
  - destruct (Ascii.eqb_spec c CR) as [->|]; [discriminate H | reflexivity].
Qed.

Lemma ingest_urls (links : list string) :
  Forall (fun h => plain_url h = true) links ->
  ingest (map (fun h => h ++ nl) links) = links.
Proof.
  induction 1 as [|h links Hh Hl IH]; [reflexivity|].
  unfold plain_url in Hh. apply andb_prop in Hh. destruct Hh as [Hm Hs].
  unfold ingest in *. simpl. rewrite (strip_line h Hs), Hm. simpl.
  rewrite (strip_line h Hs). now rewrite IH.
Qed.

(** The header line starts with a dash and stays out. *)
Lemma rstrip_head (c : ascii) (s : string) :
  Py.isspace c = false -> exists t, Py.rstrip (String c s) = String c t.
Proof.
  intros Hc. simpl. destruct (Py.rstrip s); [rewrite Hc|]; eexists; reflexivity.
Qed.

Lemma header_not_url (keyword : string) :
  match_http (Py.strip ("--- " ++ keyword ++ " ---" ++ nl)) = false.
Proof.
  unfold Py.strip.
  change (Py.lstrip ("--- " ++ keyword ++ " ---" ++ nl))
    with (String "-" ("-- " ++ keyword ++ " ---" ++ nl)).
  destruct (rstrip_head "-"%char ("-- " ++ keyword ++ " ---" ++ nl) eq_refl)
    as [t ->].
  reflexivity.
Qed.

Lemma ingest_header (keyword : string) :
  ingest [("--- " ++ keyword ++ " ---" ++ nl)%string] = [].
Proof. unfold ingest. cbn [filter]. now rewrite header_not_url. Qed.

Lemma iter_lines_block (entry : string * list string) (rest : string) :
  one_line (fst entry) = true ->
  Forall (fun h => plain_url h = true) (snd entry) ->
  TextFile.iter_lines (report_block entry ++ rest)
  = (("--- " ++ fst entry ++ " ---" ++ nl)%string
       :: map (fun h => (h ++ nl)%string) (snd entry)
       ++ nl :: TextFile.iter_lines rest)%list.
Proof.
  intros Hk Hl. unfold report_block.
  replace (("--- " ++ fst entry ++ " ---" ++ nl
            ++ fold_right String.append EmptyString (map (fun link => link ++ nl) (snd entry))
            ++ nl) ++ rest)
    with (("--- " ++ fst entry ++ " ---") ++ nl
          ++ (fold_right String.append EmptyString (map (fun link => link ++ nl) (snd entry))
              ++ (EmptyString ++ nl ++ rest))).
  2:{ simpl. rewrite !append_assoc. simpl. rewrite !append_assoc. reflexivity. }
  rewrite iter_lines_line.
  - rewrite iter_lines_lines.
    + rewrite iter_lines_line by reflexivity. simpl.
      now rewrite !append_assoc.
    + eapply Forall_impl; [|exact Hl]. intros h Hh.
      apply space_is_linebreak_free.
      unfold plain_url in Hh. apply andb_prop in Hh. tauto.
  - unfold one_line, free_of in *.
    change ("--- " ++ fst entry ++ " ---") with
      (String "-" (String "-" (String "-" (String " " (fst entry ++ " ---"))))).
    simpl. clear Hl. induction (fst entry) as [|c k IH]; [reflexivity|].
    simpl in Hk |- *. apply andb_prop in Hk. destruct Hk as [Hc Hk].
    rewrite Hc. simpl. now apply IH.
Qed.

Lemma ingest_report (keyword_links : list (string * list string)) :
  Forall (fun entry => one_line (fst entry) = true) keyword_links ->
  Forall (fun entry => Forall (fun h => plain_url h = true) (snd entry)) keyword_links ->
  ingest (TextFile.iter_lines (report keyword_links)) = List.concat (map snd keyword_links).
Proof.
  induction 1 as [|entry rest Hk Hrest IH]; intros Hl.
  - reflexivity.
  - inversion Hl as [|? ? Hentry Hl']; subst.
    specialize (IH Hl').
    change (report (entry :: rest)) with (report_block entry ++ report rest).
    rewrite iter_lines_block by assumption.
    change (?x :: ?l ++ ?y :: ?r)%list with ([x] ++ l ++ [y] ++ r)%list.
    rewrite !ingest_app, ingest_header, ingest_urls by assumption.
    rewrite IH. reflexivity.
Qed.

(** *** Keywords read from a file hold no line end *)

Lemma free_of_String (p : ascii -> bool) (c : ascii) (s : string) :
  free_of p (String c s) = negb (p c) && free_of p s.
Proof. reflexivity. Qed.

Lemma universal_newlines_no_CR (s : string) :
  free_of (Ascii.eqb CR) (TextFile.universal_newlines s) = true.
Proof.
  assert (H : forall n s, (String.length s <= n)%nat ->
              free_of (Ascii.eqb CR) (TextFile.universal_newlines s) = true).
  { clear s. induction n as [|n IH]; intros [|c s] Hlen;
      cbn [String.length] in Hlen; try reflexivity; try lia.
    cbn [TextFile.universal_newlines]. destruct (Ascii.eqb c CR) eqn:Ec.
    - destruct s as [|d s]; [reflexivity|].
      destruct (Ascii.eqb d LF); rewrite free_of_String;
        (change (Ascii.eqb CR LF) with false); cbn [negb andb];
        apply IH; cbn [String.length] in *; lia.
    - rewrite free_of_String, Ascii.eqb_sym, Ec. cbn [negb andb].
      apply IH. lia. }
  apply (H (String.length s)). lia.
Qed.

Lemma one_line_cons (c : ascii) (s : string) :
  Ascii.eqb c LF = false -> Ascii.eqb c CR = false -> one_line s = true ->
  one_line (String c s) = true.
Proof.
  intros H1 H2 H3. unfold one_line in *. rewrite free_of_String.
  now rewrite H1, H2, H3.
Qed.

Lemma lines_keepends_lines (s : string) :
  free_of (Ascii.eqb CR) s = true -> Forall is_line (TextFile.lines_keepends s).
Proof.
  induction s as [|c s IH]; intros H; [constructor|].
  apply free_of_cons in H. destruct H as [Hc Hs]. specialize (IH Hs).
  rewrite Ascii.eqb_sym in Hc. simpl.
  destruct (Ascii.eqb c LF) eqn:Elf.
  - constructor; [|exact IH]. exists EmptyString. split; [reflexivity | now left].
  - destruct (TextFile.lines_keepends s) as [|l ls].
    + constructor; [|constructor]. exists (String c EmptyString).
      split; [now apply one_line_cons | now right].
    + inversion IH as [|? ? [body [Hb Hl]] Hls]; subst.
      constructor; [|exact Hls]. exists (String c body).
      split; [now apply one_line_cons|].
      destruct Hl as [->| ->]; [now left | now right].
Qed.

Lemma one_line_inv (c : ascii) (s : string) :
  one_line (String c s) = true ->
  Ascii.eqb c LF = false /\ Ascii.eqb c CR = false /\ one_line s = true.
Proof.
  intros H. apply free_of_cons in H. destruct H as [Hc Hs].
  apply orb_false_elim in Hc. tauto.
Qed.

Lemma rstrip_one_line (body : string) :
  one_line body = true ->
  one_line (Py.rstrip body) = true /\ one_line (Py.rstrip (body ++ nl)) = true.
Proof.
  induction body as [|c body IH]; intros H; [split; reflexivity|].
  apply one_line_inv in H. destruct H as [H1 [H2 H3]].
  destruct (IH H3) as [IHa IHb]. simpl. split.
  - destruct (Py.rstrip body); [destruct (Py.isspace c); [reflexivity|]|];
      now apply one_line_cons.
  - destruct (Py.rstrip (body ++ nl)); [destruct (Py.isspace c); [reflexivity|]|];
      now apply one_line_cons.
Qed.

Lemma lstrip_line (body : string) :
  one_line body = true ->
  (exists body', one_line body' = true /\ Py.lstrip body = body')
  /\ (exists body', one_line body' = true
        /\ (Py.lstrip (body ++ nl) = body' ++ nl \/ Py.lstrip (body ++ nl) = body')).
Proof.
  induction body as [|c body IH]; intros H.
  - split; exists EmptyString; split; try reflexivity. now right.
  - pose proof (one_line_inv _ _ H) as [_ [_ H3]]. destruct (IH H3) as [IHa IHb].
    simpl. destruct (Py.isspace c); [split; assumption|].
    split; exists (String c body); split; try assumption; try reflexivity.
    now left.
Qed.

Lemma strip_is_one_line (l : string) : is_line l -> one_line (Py.strip l) = true.
Proof.
  intros [body [Hb Hl]]. unfold Py.strip.
  destruct (lstrip_line body Hb) as [[b1 [Hb1 E1]] [b2 [Hb2 E2]]].
  destruct Hl as [->| ->].
  - destruct E2 as [->| ->]; now apply rstrip_one_line.
  - rewrite E1. now apply rstrip_one_line.
Qed.

(** Every keyword that [read_keywords] returns is free of line ends. *)
Lemma read_keywords_one_line (fs : Files) (keyword_file : string) (keywords : list string) :
  read_keywords fs keyword_file = inr keywords ->
  Forall (fun keyword => one_line keyword = true) keywords.
Proof.
  unfold read_keywords. destruct (fs keyword_file) as [contents|]; [|discriminate].
  intros H. inversion H; subst keywords. clear H.
  apply Forall_forall. intros keyword Hin. apply in_map_iff in Hin.
  destruct Hin as [line [<- Hline]]. apply filter_In in Hline. destruct Hline as [Hline _].
  apply strip_is_one_line.
  pose proof (lines_keepends_lines _ (universal_newlines_no_CR contents)) as Hall.
  rewrite Forall_forall in Hall. now apply Hall.
Qed.

(** C7, as the code has it.  When every keyword of the mapping is free of
    line ends, and every href begins with http:// or https:// and holds no
    white space, reading back the file that [save_links] wrote gives the
    href lists of the keywords one after another, in order: header lines
    and empty lines are left out. *)
Theorem report_round_trip
    (fs : Files) (keyword_links : list (string * list string)) (output_file : string) :
  (forall entry, In entry keyword_links -> one_line (fst entry) = true) ->
  (forall entry h, In entry keyword_links -> In h (snd entry) -> plain_url h = true) ->
  read_links (fst (save_links fs keyword_links output_file)) output_file
  = inr (List.concat (map snd keyword_links)).
Proof.
  intros Hk Hl. unfold read_links, save_links. simpl.
  rewrite store_same, save_links_contents_report. f_equal.
  apply ingest_report.
  - apply Forall_forall. exact Hk.
  - apply Forall_forall. intros entry He. apply Forall_forall. intros h Hh.
    exact (Hl entry h He Hh).
Qed.

(** *** The report of a run of [main] reads back *)

Lemma dict_set_entries {V : Type} (P : string * V -> Prop) (d : list (string * V))
    (key : string) (value : V) :
  Forall P d -> P (key, value) -> (forall k v, k = key -> P (k, v) -> P (k, value)) ->
  Forall P (dict_set d key value).
Proof.
  intros Hd Hnew Hupd. induction Hd as [|[k v] rest Hkv Hrest IH]; simpl.
  - constructor; [exact Hnew | constructor].
  - destruct (String.eqb_spec k key) as [Heq|Hne].
    + constructor; [|exact Hrest]. now apply (Hupd k v).
    + constructor; assumption.
Qed.

Lemma main_keyword_links_entries (partial_ratio : string -> string -> Z)
    (lower : string -> string) (links : list Link) (keywords : list string)
    (topn : option Z) :
  Forall (fun keyword => one_line keyword = true) keywords ->
  Forall (fun link => plain_url (href link) = true) links ->
  Forall (fun entry => one_line (fst entry) = true
                       /\ Forall (fun h => plain_url h = true) (snd entry))
    (main_keyword_links partial_ratio lower links keywords topn).
Proof.
  intros Hk Hl. unfold main_keyword_links.
  assert (Hvals : forall keyword,
            Forall (fun h => plain_url h = true)
              (fuzzy_match partial_ratio lower links keyword topn)).
  { intros keyword. apply Forall_forall. intros h Hh.
    apply fuzzy_match_hrefs in Hh.
    apply in_map_iff in Hh. destruct Hh as [link [<- Hlink]].
    rewrite Forall_forall in Hl. now apply Hl. }
  assert (Hgen : forall acc,
            Forall (fun entry => one_line (fst entry) = true
                                 /\ Forall (fun h => plain_url h = true) (snd entry)) acc ->
            Forall (fun entry => one_line (fst entry) = true
                                 /\ Forall (fun h => plain_url h = true) (snd entry))
              (fold_left
                 (fun keyword_links keyword =>
                    dict_set keyword_links keyword
                      (fuzzy_match partial_ratio lower links keyword topn))
                 keywords acc)).
  { induction Hk as [|keyword keywords Hkw Hkws IH]; intros acc Hacc; [exact Hacc|].
    simpl. apply IH. apply dict_set_entries.
    - exact Hacc.
    - split; [exact Hkw | apply Hvals].
    - intros k v -> [Hk' _]. split; [exact Hk' | apply Hvals]. }
  apply Hgen. constructor.
Qed.

(** The script's own report: keywords as [read_keywords] returns them,
    links whose hrefs begin with http:// or https:// and hold no white
    space.  Reading the saved report back gives the saved href lists. *)
Lemma main_report_round_trip (partial_ratio : string -> string -> Z)
    (lower : string -> string) (fs : Files) (keyword_file output_file : string)
    (keywords : list string) (links : list Link) (topn : option Z) :
  read_keywords fs keyword_file = inr keywords ->
  Forall (fun link => plain_url (href link) = true) links ->
  let keyword_links := main_keyword_links partial_ratio lower links keywords topn in
  read_links (fst (save_links fs keyword_links output_file)) output_file
  = inr (List.concat (map snd keyword_links)).
Proof.
  intros Hread Hlinks keyword_links.
  pose proof (main_keyword_links_entries partial_ratio lower links keywords topn
                (read_keywords_one_line _ _ _ Hread) Hlinks) as Hall.
  fold keyword_links in Hall. rewrite Forall_forall in Hall.
  unfold read_links, save_links. simpl.
  rewrite store_same, save_links_contents_report. f_equal.
  apply ingest_report; apply Forall_forall; intros entry He; now apply Hall.
Qed.

Lemma report_round_trip_witness :
  read_links
    (fst (save_links (fun _ => None)
            [("mario", ["http://h/mario1.zip"; "https://h/mario3.zip"]); ("zelda", [])]
            "links.txt"))
    "links.txt"
  = inr ["http://h/mario1.zip"; "https://h/mario3.zip"].
Proof.
  apply (report_round_trip (fun _ => None)
           [("mario", ["http://h/mario1.zip"; "https://h/mario3.zip"]); ("zelda", [])]
           "links.txt").
  - intros entry [<-|[<-|[]]]; reflexivity.
  - intros entry h [<-|[<-|[]]]; simpl; [intros [<-|[<-|[]]]; reflexivity | intros []].
Defined.

(** C7 as stated fails for a keyword that holds a line end: the rest of its
    header line is read back as a link, although the mapping has no href
    at all. *)
Lemma report_round_trip_multiline_keyword :
  let keyword_links := [(("a" ++ nl ++ "http://x")%string, @nil string)] in
  (forall entry h, In entry keyword_links -> In h (snd entry) -> plain_url h = true)
  /\ read_links (fst (save_links (fun _ => None) keyword_links "links.txt")) "links.txt"
     = inr ["http://x ---"]
  /\ read_links (fst (save_links (fun _ => None) keyword_links "links.txt")) "links.txt"
     <> inr (List.concat (map snd keyword_links)).
Proof.
  intros keyword_links. split; [|split].
  - intros entry h [<-|[]] [].
  - reflexivity.
  - vm_compute. discriminate.
Qed.

(** ** Retrying fetcher *)

Section FetcherFacts.
Variable unquote : string -> string.
Variable env : Env.

(** Streaming the body touches the open file only. *)
Lemma write_chunks_spec (cs : list string) (w : World) :
  exists w', write_chunks cs w = (Return tt, w')
    /\ requests_made w' = requests_made w /\ stdout w' = stdout w
    /\ logs w' = logs w /\ bars w' = bars w
    /\ disk w' = match disk w with
                 | (name, bytes) :: rest =>
                     (name, bytes ++ fold_right String.append EmptyString cs) :: rest
                 | [] => []
                 end.
Proof.
  revert w. induction cs as [|chunk cs IH]; intros w.
  - exists w. simpl. repeat split; try reflexivity.
    destruct (disk w) as [|[name bytes] rest]; [reflexivity|].
    now rewrite append_nil_r.
  - simpl. unfold bind at 1. unfold write_chunk at 1.
    match goal with |- context [write_chunks cs ?w1] =>
      destruct (IH w1) as [w' [E [H1 [H2 [H3 [H4 H5]]]]]] end.
    exists w'. rewrite E. simpl in *. repeat split; try assumption.
    rewrite H5. destruct (disk w) as [|[name bytes] rest]; [reflexivity|].
    now rewrite append_assoc.
Qed.

(** One attempt issues one request, prints nothing, leaves the log alone,
    and ends by its [return] or by an exception. *)
Lemma attempt_once_frame (url path : string) (w w' : World) (r : outcome string) :
  attempt_once unquote env url path w = (r, w') ->
  requests_made w' = S (requests_made w) /\ stdout w' = stdout w
  /\ logs w' = logs w /\ r <> OutOfFuel.
Proof.
  unfold attempt_once, after_response, bind, requests_get, raise_if,
    int_content_length, open_for_write, tqdm_open, raise, ret.
  destruct (http_get env (requests_made w) url) as [e|resp].
  { intros E; inversion E; subst; simpl; repeat split; discriminate. }
  destruct (status_error resp) as [e|].
  { intros E; inversion E; subst; simpl; repeat split; discriminate. }
  destruct (content_length resp) as [e|n].
  { intros E; inversion E; subst; simpl; repeat split; discriminate. }
  destruct (open_wb env _) as [e|].
  { intros E; inversion E; subst; simpl; repeat split; discriminate. }
  match goal with |- context [write_chunks ?cs ?w1] =>
    destruct (write_chunks_spec cs w1) as [w2 [E2 [H1 [H2 [H3 _]]]]] end.
  rewrite E2. simpl in H1, H2, H3.
  destruct (stream_error resp) as [e|];
    intros E; inversion E; subst; repeat split; try assumption; discriminate.
Qed.

(** An attempt that reaches its [return]: the response was good, the file
    was opened under the derived name and holds the body, the bar carries
    the display name, and the message names the URL and the file. *)
Lemma attempt_once_return (url path : string) (w w' : World) (msg : string) :
  attempt_once unquote env url path w = (Return msg, w') ->
  exists resp total,
    http_get env (requests_made w) url = inr resp
    /\ content_length resp = inr total
    /\ let local_filename := local_filename_of url path resp in
       msg = "Downloaded " ++ url ++ " to " ++ local_filename
       /\ disk w' = (local_filename,
                     fold_right String.append EmptyString (chunks resp)) :: disk w
       /\ bars w' = (bars w ++ [(display_name_of unquote local_filename, total)])%list.
Proof.
  unfold attempt_once, after_response, bind, requests_get, raise_if,
    int_content_length, open_for_write, tqdm_open, raise, ret.
  destruct (http_get env (requests_made w) url) as [e|resp] eqn:Eg; [discriminate|].
  destruct (status_error resp) as [e|]; [discriminate|].
  destruct (content_length resp) as [e|n] eqn:Ec; [discriminate|].
  destruct (open_wb env _) as [e|]; [discriminate|].
  match goal with |- context [write_chunks ?cs ?w1] =>
    destruct (write_chunks_spec cs w1) as [w2 [E2 [_ [_ [_ [H4 H5]]]]]] end.
  rewrite E2. simpl in H4, H5.
  destruct (stream_error resp) as [e|]; [discriminate|].
  intros E; inversion E; subst. exists resp, n.
  split; [reflexivity|]. split; [exact Ec|]. cbv zeta.
  split; [reflexivity|]. split.
  - rewrite H5. reflexivity.
  - exact H4.
Qed.

(** Where the exception of a failed attempt comes from. *)
Lemma attempt_once_raise (url path : string) (w w' : World) (e : exn) :
  attempt_once unquote env url path w = (Raise e, w') ->
  http_get env (requests_made w) url = inl e
  \/ (exists resp, http_get env (requests_made w) url = inr resp
        /\ (status_error resp = Some e \/ content_length resp = inl e
            \/ stream_error resp = Some e))
  \/ (exists name, open_wb env name = Some e).
Proof.
  unfold attempt_once, after_response, bind, requests_get, raise_if,
    int_content_length, open_for_write, tqdm_open, raise, ret.
  destruct (http_get env (requests_made w) url) as [e0|resp] eqn:Eg.
  { intros E; inversion E; subst. now left. }
  destruct (status_error resp) as [e0|] eqn:Es.
  { intros E; inversion E; subst. right; left. exists resp. tauto. }
  destruct (content_length resp) as [e0|n] eqn:Ec.
  { intros E; inversion E; subst. right; left. exists resp. tauto. }
  destruct (open_wb env _) as [e0|] eqn:Eo.
  { intros E; inversion E; subst. right; right. eexists. exact Eo. }
  match goal with |- context [write_chunks ?cs ?w1] =>
    destruct (write_chunks_spec cs w1) as [w2 [E2 _]] end.
  rewrite E2.
  destruct (stream_error resp) as [e0|] eqn:Est; [|discriminate].
  intros E; inversion E; subst. right; left. exists resp. tauto.
Qed.

Lemma attempt_once_raise_Exception (url path : string) (w w' : World) (e : exn) :
  only_Exceptions env ->
  attempt_once unquote env url path w = (Raise e, w') -> is_Exception e = true.
Proof.
  intros [Hget [Hresp Hopen]] E. apply attempt_once_raise in E.
  destruct E as [E | [[resp [Eg E]] | [name E]]].
  - eapply Hget, E.
  - eapply Hresp; [exact Eg | exact E].
  - eapply Hopen, E.
Qed.

End FetcherFacts.

Section RetryFacts.
Variable unquote : string -> string.
Variable env : Env.
Variables url path error_log : string.
Variable retries : Z.

(** One turn of the loop, for each way the attempt can end. *)
Lemma retry_loop_return (fuel : nat) (attempt : Z) (w w1 : World) (msg : string) :
  attempt < retries ->
  attempt_once unquote env url path w = (Return msg, w1) ->
  retry_loop unquote env (S fuel) url path retries error_log attempt w
  = (Return (Some msg), w1).
Proof.
  intros Ha E. simpl. apply Z.ltb_lt in Ha. rewrite Ha.
  unfold try_except_Exception, bind. rewrite E. reflexivity.
Qed.

Lemma retry_loop_propagate (fuel : nat) (attempt : Z) (w w1 : World) (e : exn) :
  attempt < retries -> is_Exception e = false ->
  attempt_once unquote env url path w = (Raise e, w1) ->
  retry_loop unquote env (S fuel) url path retries error_log attempt w
  = (Raise e, w1).
Proof.
  intros Ha He E. simpl. apply Z.ltb_lt in Ha. rewrite Ha.
  unfold try_except_Exception, bind. rewrite E, He. reflexivity.
Qed.

Lemma retry_loop_give_up (fuel : nat) (attempt : Z) (w w1 : World) (e : exn) :
  attempt + 1 = retries -> is_Exception e = true ->
  attempt_once unquote env url path w = (Raise e, w1) ->
  open_a env error_log = None ->
  retry_loop unquote env (S fuel) url path retries error_log attempt w
  = (Return (Some ("Failed to download " ++ url ++ ": " ++ exn_str e)),
     {| requests_made := requests_made w1; stdout := stdout w1;
        logs := append_to (logs w1) error_log (error_log_line url retries e);
        disk := disk w1; bars := bars w1 |}).
Proof.
  intros Ha He E Hlog. simpl.
  assert ((attempt <? retries) = true) as -> by (apply Z.ltb_lt; lia).
  unfold try_except_Exception, bind at 1. rewrite E, He.
  apply Z.eqb_eq in Ha. rewrite Ha.
  unfold bind, log_append. rewrite Hlog. reflexivity.
Qed.

(** The error log cannot be opened: the exception of [open] leaves the
    [except] clause, and with it the call, and nothing is appended. *)
Lemma retry_loop_log_raises (fuel : nat) (attempt : Z) (w w1 : World) (e e' : exn) :
  attempt + 1 = retries -> is_Exception e = true ->
  attempt_once unquote env url path w = (Raise e, w1) ->
  open_a env error_log = Some e' ->
  retry_loop unquote env (S fuel) url path retries error_log attempt w
  = (Raise e', w1).
Proof.
  intros Ha He E Hlog. simpl.
  assert ((attempt <? retries) = true) as -> by (apply Z.ltb_lt; lia).
  unfold try_except_Exception, bind at 1. rewrite E, He.
  apply Z.eqb_eq in Ha. rewrite Ha.
  unfold bind, log_append. rewrite Hlog. reflexivity.
Qed.

Lemma retry_loop_again (fuel : nat) (attempt : Z) (w w1 : World) (e : exn) :
  attempt + 1 < retries -> is_Exception e = true ->
  attempt_once unquote env url path w = (Raise e, w1) ->
  retry_loop unquote env (S fuel) url path retries error_log attempt w
  = retry_loop unquote env fuel url path retries error_log (attempt + 1)
      (snd (print (retry_notice url (attempt + 1) retries) w1)).
Proof.
  intros Ha He E. simpl.
  assert ((attempt <? retries) = true) as -> by (apply Z.ltb_lt; lia).
  unfold try_except_Exception, bind at 1. rewrite E, He.
  assert ((attempt + 1 =? retries) = false) as -> by (apply Z.eqb_neq; lia).
  reflexivity.
Qed.


(** [k] attempts fail and the next one succeeds: the loop returns what
    that attempt returned. *)
Lemma retry_loop_recovers (k : nat) :
  forall (errs : nat -> exn) (fuel : nat) (attempt : Z) (w : World) (msg : string),
  attempt + Z.of_nat k < retries -> (S k <= fuel)%nat ->
  (forall j, (j < k)%nat ->
     attempt_fails unquote env (requests_made w + j) url path (errs j)) ->
  attempt_succeeds unquote env (requests_made w + k) url path msg ->
  exists w',
    retry_loop unquote env fuel url path retries error_log attempt w
    = (Return (Some msg), w')
    /\ requests_made w' = (requests_made w + S k)%nat
    /\ stdout w' = (stdout w ++ retry_notices url retries (attempt + 1) k)%list
    /\ logs w' = logs w.
Proof.
  induction k as [|k IH]; intros errs fuel attempt w msg Hr Hfuel Hfail Hok;
    (destruct fuel as [|fuel]; [lia|]).
  - destruct (Hok w (eq_sym (Nat.add_0_r _))) as [w1 E1].
    destruct (attempt_once_frame _ _ _ _ _ _ _ E1) as [F1 [F2 [F3 _]]].
    rewrite (retry_loop_return fuel attempt w w1 msg) by (assumption || lia).
    exists w1. rewrite F1, F2, F3, app_nil_r. repeat split. lia.
  - destruct (Hfail O ltac:(lia)) as [Hexc Hrun].
    destruct (Hrun w (eq_sym (Nat.add_0_r _))) as [w1 E1].
    destruct (attempt_once_frame _ _ _ _ _ _ _ E1) as [F1 [F2 [F3 _]]].
    rewrite (retry_loop_again fuel attempt w w1 (errs O)) by (assumption || lia).
    destruct (IH (fun j => errs (S j)) fuel (attempt + 1)
                 (snd (print (retry_notice url (attempt + 1) retries) w1)) msg)
      as [w' [E [G1 [G2 G3]]]].
    + lia.
    + lia.
    + intros j Hj. simpl.
      replace (requests_made w1 + j)%nat with (requests_made w + S j)%nat by lia.
      apply Hfail. lia.
    + simpl.
      replace (requests_made w1 + k)%nat with (requests_made w + S k)%nat by lia.
      exact Hok.
    + exists w'. split; [exact E|]. simpl in G1, G2, G3.
      rewrite G1, G2, G3, F1, F2, F3. repeat split.
      * lia.
      * simpl. now rewrite <- app_assoc.
Qed.

(** With at least one turn to make, the loop ends in one of four ways:
    the message of a finished download, the message of a download given
    up, an exception outside [Exception] that an attempt raised, or the
    exception raised when the error log was opened. *)
Lemma retry_loop_ends (fuel : nat) :
  forall (attempt : Z) (w : World),
  attempt < retries -> retries - attempt <= Z.of_nat fuel ->
  exists r w',
    retry_loop unquote env fuel url path retries error_log attempt w = (r, w')
    /\ ((exists v, r = Return v /\ (Success url v \/ Failure url v))
        \/ (exists e w1 w2, r = Raise e /\ is_Exception e = false
              /\ attempt_once unquote env url path w1 = (Raise e, w2))
        \/ (exists e, r = Raise e /\ open_a env error_log = Some e)).
Proof.
  induction fuel as [|fuel IH]; intros attempt w Ha Hfuel; [lia|].
  destruct (attempt_once unquote env url path w) as [res w1] eqn:E1.
  destruct res as [msg|e|].
  - rewrite (retry_loop_return fuel attempt w w1 msg) by assumption.
    do 2 eexists. split; [reflexivity|]. left. eexists. split; [reflexivity|].
    left. apply attempt_once_return in E1.
    destruct E1 as [resp [total [_ [_ [-> _]]]]]. eexists. reflexivity.
  - destruct (is_Exception e) eqn:He.
    + destruct (Z.eq_dec (attempt + 1) retries) as [Hlast|Hmore].
      * destruct (open_a env error_log) as [e'|] eqn:Hlog.
        -- rewrite (retry_loop_log_raises fuel attempt w w1 e e') by assumption.
           do 2 eexists. split; [reflexivity|]. right; right. now exists e'.
        -- rewrite (retry_loop_give_up fuel attempt w w1 e) by assumption.
           do 2 eexists. split; [reflexivity|]. left. eexists.
           split; [reflexivity|]. right. exists e. reflexivity.
      * rewrite (retry_loop_again fuel attempt w w1 e) by (assumption || lia).
        apply IH; lia.
    + rewrite (retry_loop_propagate fuel attempt w w1 e) by assumption.
      do 2 eexists. split; [reflexivity|]. right; left. exists e, w, w1. auto.
  - apply attempt_once_frame in E1. destruct E1 as [_ [_ [_ E1]]]. now elim E1.
Qed.

End RetryFacts.

Lemma append_to_same (files : string -> string) (name s : string) :
  append_to files name s name = files name ++ s.
Proof. unfold append_to. now rewrite String.eqb_refl. Qed.

Lemma append_to_other (files : string -> string) (name s other : string) :
  other <> name -> append_to files name s other = files other.
Proof.
  intros H. unfold append_to. apply String.eqb_neq in H. now rewrite H.
Qed.

Lemma retry_notices_length (url : string) (retries first : Z) (k : nat) :
  List.length (retry_notices url retries first k) = k.
Proof. revert first. induction k; intros; simpl; [reflexivity | now rewrite IHk]. Qed.




(** C5. With [retries = N], [k < N] failed attempts and a successful
    attempt [k + 1], [download_link] returns the message of the finished
    download after [k + 1] requests, prints the [k] retry notices numbered 1
    to [k], and leaves the error log as it was. *)
Theorem download_link_recovers
    (unquote : string -> string) (env : Env) (url path error_log : string)
    (N : Z) (k : nat) (errs : nat -> exn) (msg : string) (w : World) :
  Z.of_nat k < N ->
  (forall j, (j < k)%nat ->
     attempt_fails unquote env (requests_made w + j) url path (errs j)) ->
  attempt_succeeds unquote env (requests_made w + k) url path msg ->
  exists w',
    download_link unquote env url path N error_log w = (Return (Some msg), w')
    /\ Success url (Some msg)
    /\ requests_made w' = (requests_made w + k + 1)%nat
    /\ stdout w' = (stdout w ++ retry_notices url N 1 k)%list
    /\ List.length (retry_notices url N 1 k) = k
    /\ logs w' = logs w.
Proof.
  intros Hk Hfail Hok. unfold download_link.
  destruct (retry_loop_recovers unquote env url path error_log N k errs
              (Z.to_nat N) 0 w msg) as [w' [E [G1 [G2 G3]]]];
    [lia | lia | exact Hfail | exact Hok |].
  exists w'. split; [exact E|]. split.
  - set (w1 := {| requests_made := requests_made w + k; stdout := stdout w;
                  logs := logs w; disk := disk w; bars := bars w |}).
    destruct (Hok w1 eq_refl) as [w2 E2]. apply attempt_once_return in E2.
    destruct E2 as [resp [total [_ [_ [-> _]]]]]. eexists. reflexivity.
  - split; [lia|]. split; [exact G2|]. split; [apply retry_notices_length | exact G3].
Qed.

Lemma env_flaky_fails (j : nat) (url path : string) :
  (j < 2)%nat ->
  attempt_fails Sample.unquote Sample.env_flaky (0 + j) url path Sample.timeout.
Proof.
  intros Hj. split; [reflexivity|]. intros w Hw. eexists.
  unfold attempt_once, bind, requests_get. rewrite Hw. simpl.
  destruct j as [|[|j]]; [reflexivity | reflexivity | lia].
Qed.

Lemma download_link_recovers_witness :
  exists w',
    download_link Sample.unquote Sample.env_flaky "http://h/f.zip" "." 3
      "error_log.txt" Sample.w0
    = (Return (Some "Downloaded http://h/f.zip to ./f.zip"), w')
    /\ stdout w' = ["Retrying http://h/f.zip (1/3)..."; "Retrying http://h/f.zip (2/3)..."]
    /\ logs w' = logs Sample.w0.
Proof.
  destruct (download_link_recovers Sample.unquote Sample.env_flaky
              "http://h/f.zip" "." "error_log.txt" 3 2 (fun _ => Sample.timeout)
              "Downloaded http://h/f.zip to ./f.zip" Sample.w0)
    as [w' [E [_ [_ [G2 [_ G3]]]]]].
  - lia.
  - intros j Hj. now apply env_flaky_fails.
  - intros w Hw. eexists.
    unfold attempt_once, bind, requests_get. rewrite Hw. vm_compute. reflexivity.
  - exists w'. split; [exact E|]. split; [exact G2 | exact G3].
Defined.

(** With [retries >= 1] the call ends in a message, in an exception
    outside [Exception], or in the exception raised when the error log was
    opened: it does not fall out of the loop. *)
Lemma download_link_ends
    (unquote : string -> string) (env : Env) (url path error_log : string)
    (retries : Z) (w : World) :
  1 <= retries ->
  exists r w',
    download_link unquote env url path retries error_log w = (r, w')
    /\ ((exists v, r = Return v /\ (Success url v \/ Failure url v))
        \/ (exists e w1 w2, r = Raise e /\ is_Exception e = false
              /\ attempt_once unquote env url path w1 = (Raise e, w2))
        \/ (exists e, r = Raise e /\ open_a env error_log = Some e)).
Proof.
  intros H. unfold download_link. apply retry_loop_ends; lia.
Qed.

(** The turns given to the loop are enough: the call never ends for want
    of fuel. *)
Lemma download_link_fuel_suffices
    (unquote : string -> string) (env : Env) (url path error_log : string)
    (retries : Z) (w : World) :
  fst (download_link unquote env url path retries error_log w) <> OutOfFuel.
Proof.
  destruct (Z_lt_le_dec retries 1) as [Hle|Hge].
  - unfold download_link.
    assert (Z.to_nat retries = O) as -> by lia. simpl.
    assert ((0 <? retries) = false) as -> by (apply Z.ltb_ge; lia).
    discriminate.
  - destruct (download_link_ends unquote env url path error_log retries w Hge)
      as [r [w' [E [[v [-> _]] | [[e [w1 [w2 [-> _]]]] | [e [-> _]]]]]]];
      rewrite E; discriminate.
Qed.




(** C9. With [retries <= 0] the loop body never runs: [download_link]
    returns [None] and the world is as before, so no request was made,
    nothing was printed or logged, and the result is neither kind of
    message. *)
Theorem download_link_no_retries
    (unquote : string -> string) (env : Env) (url path error_log : string)
    (retries : Z) (w : World) :
  retries <= 0 ->
  download_link unquote env url path retries error_log w = (Return None, w)
  /\ ~ Success url None /\ ~ Failure url None.
Proof.
  intros H. split.
  - unfold download_link.
    assert (Z.to_nat retries = O) as -> by lia. simpl.
    assert ((0 <? retries) = false) as -> by (apply Z.ltb_ge; lia).
    reflexivity.
  - split; intros [x Hx]; discriminate Hx.
Qed.

Lemma download_link_no_retries_witness :
  download_link Sample.unquote Sample.env_flaky "http://h/f.zip" "." 0
    "error_log.txt" Sample.w0 = (Return None, Sample.w0).
Proof.
  apply (download_link_no_retries Sample.unquote Sample.env_flaky
           "http://h/f.zip" "." "error_log.txt" 0 Sample.w0).
  lia.
Defined.

(** The other direction: with [retries >= 1] the result is never [None]. *)
Lemma download_link_not_None
    (unquote : string -> string) (env : Env) (url path error_log : string)
    (retries : Z) (w : World) :
  1 <= retries ->
  fst (download_link unquote env url path retries error_log w) <> Return None.
Proof.
  intros Hr.
  destruct (download_link_ends unquote env url path error_log retries w Hr)
    as [r [w' [E [[v [-> Hv]] | [[e [w1 [w2 [-> _]]]] | [e [-> _]]]]]]];
    rewrite E; simpl.
  - destruct Hv as [[x ->] | [x ->]]; discriminate.
  - discriminate.
  - discriminate.
Qed.

(** ** File names *)

Lemma length_append (a b : string) :
  String.length (a ++ b) = (String.length a + String.length b)%nat.
Proof. induction a as [|c a IH]; simpl; [reflexivity | now rewrite IH]. Qed.

Lemma length_take (n : nat) (s : string) :
  String.length (Py.take n s) = Nat.min n (String.length s).
Proof.
  unfold Py.take. revert n. induction s as [|c s IH]; intros [|n]; simpl;
    try reflexivity.
  now rewrite IH.
Qed.

Lemma display_name_length (unquote : string -> string) (local_filename : string) :
  (String.length (display_name_of unquote local_filename) <= 30)%nat.
Proof.
  unfold display_name_of.
  destruct (Nat.leb_spec (String.length (unquote (OsPath.basename local_filename))) 30).
  - assumption.
  - rewrite length_append, length_take.
    change (String.length "...") with 3%nat. lia.
Qed.

(** *** The pattern [filename="(.+)"] *)

Lemma substring_all (s : string) :
  forall m, (String.length s <= m)%nat -> substring 0 m s = s.
Proof.
  induction s as [|c s IH]; intros [|m] Hm; simpl in *; try reflexivity; try lia.
  f_equal. apply IH. lia.
Qed.

Lemma startswith_split (p s : string) (m : nat) :
  Py.startswith p s = true -> (String.length s <= m)%nat ->
  s = p ++ substring (String.length p) m s.
Proof.
  revert s. induction p as [|a p IH]; intros s H Hm.
  - simpl. symmetry. now apply substring_all.
  - destruct s as [|c s]; [discriminate H|]. simpl in H.
    apply andb_prop in H. destruct H as [Hc Hs].
    apply Ascii.eqb_eq in Hc. subst c. simpl. f_equal.
    apply IH; [exact Hs | simpl in Hm; lia].
Qed.

Lemma upto_newline_split (s : string) :
  exists rest, s = Re.upto_newline s ++ rest.
Proof.
  induction s as [|c s [rest IH]]; [now exists EmptyString|]. simpl.
  destruct (Ascii.eqb c LF).
  - now exists (String c s).
  - exists rest. simpl. now rewrite <- IH.
Qed.

Lemma rindex_quote_split (s : string) (j : nat) :
  Re.rindex_quote s = Some j ->
  exists post, s = substring 0 j s ++ String QUOTE post.
Proof.
  revert j. induction s as [|c s IH]; intros j H; [discriminate H|].
  simpl in H. destruct (Re.rindex_quote s) as [j'|].
  - inversion H; subst j. destruct (IH j' eq_refl) as [post Hpost].
    exists post. simpl. now rewrite <- Hpost.
  - destruct (Ascii.eqb_spec c QUOTE) as [->|]; [|discriminate H].
    inversion H; subst j. now exists s.
Qed.

(** A match found at the start of [s] is there: [s] begins with
    [filename=], a double quote, the group and a double quote; the group is
    not empty. *)
Lemma match_here_sound (s group : string) (len : nat) :
  Re.match_here s = Some (group, len) ->
  group <> EmptyString /\
  exists post, s = "filename=" ++ String QUOTE EmptyString ++ group ++ String QUOTE post.
Proof.
  unfold Re.match_here.
  destruct (Py.startswith _ s) eqn:Hs; [|discriminate].
  apply (startswith_split _ s (String.length s)) in Hs; [|lia].
  change (String.length ("filename=" ++ String QUOTE EmptyString)) with 10%nat in Hs.
  set (rest := substring 10 (String.length s) s) in *.
  destruct (upto_newline_split rest) as [tail Htail].
  destruct (Re.rindex_quote (Re.upto_newline rest)) as [[|j]|] eqn:Hq; try discriminate.
  intros H. inversion H; subst group len. clear H.
  destruct (rindex_quote_split _ _ Hq) as [post Hpost]. split.
  - destruct (Re.upto_newline rest); [discriminate Hq | discriminate].
  - exists (post ++ tail). rewrite Hs at 1. rewrite Htail at 1. rewrite Hpost at 1.
    rewrite !append_assoc. reflexivity.
Qed.

(** Every group that [re.findall] returns stands somewhere in the text,
    after [filename=] and a double quote and before a double quote. *)
Lemma findall_from_sound (s : string) :
  forall (skip : nat) (name : string),
  In name (Re.findall_from skip s) ->
  name <> EmptyString /\
  exists pre post,
    s = pre ++ "filename=" ++ String QUOTE EmptyString ++ name ++ String QUOTE post.
Proof.
  induction s as [|c s IH]; intros skip name Hin; [now elim Hin|].
  assert (Hlater : forall k, In name (Re.findall_from k s) ->
            name <> EmptyString /\
            exists pre post,
              String c s = pre ++ "filename=" ++ String QUOTE EmptyString
                           ++ name ++ String QUOTE post).
  { intros k Hk. destruct (IH k name Hk) as [Hne [pre [post Hs]]].
    split; [exact Hne|]. exists (String c pre), post.
    exact (f_equal (String c) Hs). }
  cbn [Re.findall_from] in Hin. destruct skip as [|k]; [|now apply (Hlater k)].
  destruct (Re.match_here (String c s)) as [[group len]|] eqn:Hm;
    [|now apply (Hlater O)].
  destruct Hin as [<-|Hin]; [|now apply (Hlater (Nat.pred len))].
  destruct (match_here_sound _ _ _ Hm) as [Hne [post Hs]].
  split; [exact Hne|]. exists EmptyString, post. exact Hs.
Qed.

(** *** File names and headers *)

Lemma list_ascii_app (a b : string) :
  list_ascii_of_string (a ++ b)
  = (list_ascii_of_string a ++ list_ascii_of_string b)%list.
Proof. induction a as [|c a IH]; simpl; [reflexivity | now rewrite IH]. Qed.

Lemma split_last_app (sep : ascii) (a b : string) :
  Py.split_last sep (a ++ String sep b) = Py.split_last sep b.
Proof.
  induction a as [|c a IH]; simpl.
  - now rewrite Ascii.eqb_refl.
  - destruct (Ascii.eqb c sep); [exact IH|].
    rewrite list_ascii_app, existsb_app. simpl. rewrite Ascii.eqb_refl.
    rewrite orb_true_r. exact IH.
Qed.

(** What follows the last separator holds no separator. *)
Lemma split_last_free (sep : ascii) (s : string) :
  existsb (Ascii.eqb sep) (list_ascii_of_string (Py.split_last sep s)) = false.
Proof.
  induction s as [|c s IH]; [reflexivity|]. simpl.
  destruct (Ascii.eqb c sep) eqn:Hc; [exact IH|].
  destruct (existsb (Ascii.eqb sep) (list_ascii_of_string s)) eqn:He; [exact IH|].
  simpl. now rewrite Ascii.eqb_sym, Hc, He.
Qed.

Lemma split_last_whole (sep : ascii) (s : string) :
  existsb (Ascii.eqb sep) (list_ascii_of_string s) = false -> Py.split_last sep s = s.
Proof.
  destruct s as [|c s]; [reflexivity|]. simpl. intros H.
  apply orb_false_elim in H. destruct H as [Hc Hs].
  now rewrite Ascii.eqb_sym, Hc, Hs.
Qed.

Lemma ends_with_slash (a : string) :
  a <> EmptyString -> last (list_ascii_of_string a) "/"%char = "/"%char ->
  exists a0, a = a0 ++ "/".
Proof.
  induction a as [|c a IH]; intros Hne Hlast; [now elim Hne|].
  destruct a as [|d a].
  - simpl in Hlast. subst c. now exists EmptyString.
  - destruct IH as [a0 Ha0]; [discriminate | exact Hlast|].
    exists (String c a0). simpl. now rewrite <- Ha0.
Qed.

Lemma basename_join (a b : string) :
  OsPath.basename (OsPath.join a b) = OsPath.basename b.
Proof.
  unfold OsPath.basename, OsPath.join.
  destruct (Py.startswith "/" b); [reflexivity|].
  destruct a as [|c a]; [reflexivity|].
  destruct (Ascii.eqb (last (list_ascii_of_string (String c a)) "/"%char) "/"%char) eqn:He.
  - apply Ascii.eqb_eq in He.
    destruct (ends_with_slash (String c a)) as [a0 Ha0]; [discriminate | exact He|].
    rewrite Ha0, append_assoc. apply split_last_app.
  - apply split_last_app.
Qed.

Lemma startswith_app (p r : string) : Py.startswith p (p ++ r) = true.
Proof. induction p as [|c p IH]; simpl; [reflexivity | now rewrite Ascii.eqb_refl]. Qed.

Lemma substring_skip (p r : string) (m : nat) :
  (String.length r <= m)%nat -> substring (String.length p) m (p ++ r) = r.
Proof.
  intros H. induction p as [|c p IH]; simpl; [now apply substring_all | exact IH].
Qed.

Lemma substring_prefix (a b : string) : substring 0 (String.length a) (a ++ b) = a.
Proof.
  induction a as [|c a IH]; simpl; [now destruct b | now rewrite IH].
Qed.

Lemma upto_newline_app (a b : string) :
  free_of (Ascii.eqb LF) a = true ->
  Re.upto_newline (a ++ b) = a ++ Re.upto_newline b.
Proof.
  induction a as [|c a IH]; intros H; [reflexivity|].
  apply free_of_cons in H. destruct H as [Hc Ha]. simpl.
  rewrite Ascii.eqb_sym, Hc. now rewrite (IH Ha).
Qed.

Lemma upto_newline_free (p : ascii -> bool) (s : string) :
  free_of p s = true -> free_of p (Re.upto_newline s) = true.
Proof.
  induction s as [|c s IH]; intros H; [reflexivity|].
  apply free_of_cons in H. destruct H as [Hc Hs]. simpl.
  destruct (Ascii.eqb c LF); [reflexivity|].
  rewrite free_of_String, Hc. simpl. now apply IH.
Qed.

Lemma rindex_quote_none (s : string) :
  free_of (Ascii.eqb QUOTE) s = true -> Re.rindex_quote s = None.
Proof.
  induction s as [|c s IH]; intros H; [reflexivity|].
  apply free_of_cons in H. destruct H as [Hc Hs]. simpl.
  rewrite (IH Hs). now rewrite Ascii.eqb_sym, Hc.
Qed.

Lemma rindex_quote_closing (a b : string) :
  free_of (Ascii.eqb QUOTE) a = true -> free_of (Ascii.eqb QUOTE) b = true ->
  Re.rindex_quote (a ++ String QUOTE b) = Some (String.length a).
Proof.
  intros Ha Hb. induction a as [|c a IH]; simpl.
  - rewrite (rindex_quote_none b Hb). reflexivity.
  - apply free_of_cons in Ha. destruct Ha as [_ Ha]. now rewrite (IH Ha).
Qed.

Lemma findall_from_skip (a s : string) (k : nat) :
  Re.findall_from (String.length a + k) (a ++ s) = Re.findall_from k s.
Proof. induction a as [|c a IH]; simpl; [reflexivity | exact IH]. Qed.

Lemma findall_from_no_quote (s : string) (k : nat) :
  free_of (Ascii.eqb QUOTE) s = true -> Re.findall_from k s = [].
Proof.
  intros H. destruct (Re.findall_from k s) as [|name names] eqn:E; [reflexivity|].
  destruct (findall_from_sound s k name) as [_ [pre [post Hs]]];
    [rewrite E; now left|].
  exfalso. rewrite Hs in H. unfold free_of in H.
  rewrite list_ascii_app, forallb_app in H. apply andb_prop in H. destruct H as [_ H].
  change ("filename=" ++ String QUOTE EmptyString ++ name ++ String QUOTE post)
    with ("filename=" ++ String QUOTE (name ++ String QUOTE post)) in H.
  rewrite list_ascii_app, forallb_app in H. apply andb_prop in H. destruct H as [_ H].
  simpl in H. discriminate H.
Qed.

Lemma findall_from_before (pre s : string) :
  free_of (Ascii.eqb "f"%char) pre = true ->
  Re.findall_from O (pre ++ s) = Re.findall_from O s.
Proof.
  induction pre as [|c pre IH]; intros H; [reflexivity|].
  apply free_of_cons in H. destruct H as [Hc Hp].
  change (String c pre ++ s) with (String c (pre ++ s)). cbn [Re.findall_from].
  assert (Re.match_here (String c (pre ++ s)) = None) as ->.
  { unfold Re.match_here.
    change (Py.startswith ("filename=" ++ String QUOTE EmptyString) (String c (pre ++ s)))
      with (Ascii.eqb "f"%char c
            && Py.startswith ("ilename=" ++ String QUOTE EmptyString) (pre ++ s)).
    now rewrite Hc. }
  now apply IH.
Qed.


(** A header of the usual form: text without the letter f, [filename=],
    the name in double quotes, text without a double quote.  The pattern
    finds the name and nothing else. *)
Lemma findall_filename_header (pre name post : string) :
  free_of (Ascii.eqb "f"%char) pre = true ->
  name <> EmptyString ->
  free_of (fun c => Ascii.eqb QUOTE c || Ascii.eqb LF c) name = true ->
  free_of (Ascii.eqb QUOTE) post = true ->
  Re.findall_filename
    (pre ++ ("filename=" ++ String QUOTE EmptyString) ++ name ++ String QUOTE post)
  = [name].
Proof.
  intros Hpre Hne Hname Hpost.
  assert (Hq : free_of (Ascii.eqb QUOTE) name = true
               /\ free_of (Ascii.eqb LF) name = true).
  { unfold free_of in *. rewrite !forallb_forall in *.
    split; intros c Hc; specialize (Hname c Hc);
      apply negb_true_iff, orb_false_elim in Hname; apply negb_true_iff; tauto. }
  destruct Hq as [Hq Hlf].
  unfold Re.findall_filename. rewrite findall_from_before by exact Hpre.
  set (pat := "filename=" ++ String QUOTE EmptyString).
  set (body := name ++ String QUOTE post).
  assert (Hm : Re.match_here (pat ++ body)
               = Some (name, (10 + String.length name + 1)%nat)).
  { unfold Re.match_here. fold pat. rewrite startswith_app. cbv zeta.
    assert (Hline : Re.upto_newline
                      (substring 10 (String.length (pat ++ body)) (pat ++ body))
                    = name ++ String QUOTE (Re.upto_newline post)).
    { change 10%nat with (String.length pat).
      rewrite substring_skip by (rewrite length_append; lia).
      unfold body. rewrite upto_newline_app by exact Hlf. reflexivity. }
    rewrite Hline.
    rewrite rindex_quote_closing by (try exact Hq; now apply upto_newline_free).
    destruct name as [|c name]; [now elim Hne|].
    change (String.length (String c name)) with (S (String.length name)).
    cbv beta iota. f_equal. f_equal.
    exact (substring_prefix (String c name) _). }
  change (pat ++ body) with (String "f" ("ilename=" ++ String QUOTE EmptyString ++ body))
    in Hm |- *.
  cbn [Re.findall_from]. rewrite Hm. f_equal.
  match goal with |- Re.findall_from ?k ?t = _ =>
    replace t
      with ((("ilename=" ++ String QUOTE EmptyString) ++ name ++ String QUOTE EmptyString)
            ++ post)
      by (unfold body; rewrite !append_assoc; reflexivity);
    replace k
      with (String.length
              (("ilename=" ++ String QUOTE EmptyString) ++ name ++ String QUOTE EmptyString)
            + 0)%nat
      by (rewrite !length_append; simpl; lia)
  end.
  rewrite findall_from_skip. now apply findall_from_no_quote.
Qed.

(** *** Final segments *)

Lemma free_of_existsb (p : ascii -> bool) (s : string) :
  free_of p s = negb (existsb p (list_ascii_of_string s)).
Proof.
  unfold free_of. induction (list_ascii_of_string s) as [|c l IH]; [reflexivity|].
  simpl. rewrite IH. now destruct (p c).
Qed.

(** What [split] leaves last is the final segment. *)
Lemma final_segment_split_last (sep : ascii) (s : string) :
  final_segment sep s (Py.split_last sep s).
Proof.
  split.
  - rewrite free_of_existsb, split_last_free. reflexivity.
  - induction s as [|c s IH]; [now left|]. simpl.
    destruct (Ascii.eqb_spec c sep) as [->|Hc].
    + right. destruct IH as [IH | [before IH]].
      * exists EmptyString. simpl. now rewrite <- IH.
      * exists (String sep before). simpl. now rewrite <- IH.
    + destruct (existsb (Ascii.eqb sep) (list_ascii_of_string s)) eqn:He; [|now left].
      right. destruct IH as [IH | [before IH]].
      * exfalso. pose proof (split_last_free sep s) as Hf.
        rewrite <- IH in Hf. congruence.
      * exists (String c before). simpl. now rewrite <- IH.
Qed.

(** There is one final segment, and [split] finds it. *)
Lemma final_segment_unique (sep : ascii) (s seg : string) :
  final_segment sep s seg -> Py.split_last sep s = seg.
Proof.
  intros [Hfree Hs]. rewrite free_of_existsb in Hfree.
  apply negb_true_iff in Hfree.
  destruct Hs as [-> | [before ->]].
  - now apply split_last_whole.
  - rewrite split_last_app. now apply split_last_whole.
Qed.

Lemma join_plain (path name : string) :
  Py.startswith "/" name = false -> path <> EmptyString ->
  (forall d, path <> d ++ "/") ->
  OsPath.join path name = path ++ "/" ++ name.
Proof.
  intros Hn Hp Hd. unfold OsPath.join. rewrite Hn.
  destruct path as [|c path]; [now elim Hp|].
  destruct (Ascii.eqb_spec (last (list_ascii_of_string (String c path)) "/"%char)
              "/"%char) as [He|He]; [|reflexivity].
  destruct (ends_with_slash (String c path)) as [d Hd']; [discriminate | exact He|].
  now elim (Hd d).
Qed.

(** C8. For a response [resp] to a request for [url]: the file is written
    under [path] joined with the first name that the pattern
    [filename="(.+)"] finds in the Content-Disposition header, a name that
    stands in the header after [filename=] and a double quote and before a
    double quote; for a header of the usual form that is the name between
    the quotes.  Without
    the header, or when the pattern finds nothing in it, as in a header with
    no double quote, the file is written under [path] joined with the final
    segment of the URL.  The bar shows the percent-decoded final segment of
    that path: as it is when it has at most 30 characters, else its first 27
    characters and three dots, 30 characters in all.  An attempt that ends
    in its [return] has written that file, opened that bar and names that
    path in its message. *)
Theorem download_link_file_names
    (unquote : string -> string) (url path : string) (resp : Response) :
  let local_filename := local_filename_of url path resp in
  let display_name := display_name_of unquote local_filename in
  (forall header name others,
     content_disposition resp = Some header ->
     Re.findall_filename header = name :: others ->
     local_filename = OsPath.join path name
     /\ name <> EmptyString
     /\ exists pre post,
          header = pre ++ "filename=" ++ String QUOTE EmptyString
                   ++ name ++ String QUOTE post)
  /\ (forall pre name post,
        content_disposition resp
        = Some (pre ++ ("filename=" ++ String QUOTE EmptyString)
                ++ name ++ String QUOTE post) ->
        free_of (Ascii.eqb "f"%char) pre = true ->
        name <> EmptyString ->
        free_of (fun c => Ascii.eqb QUOTE c || Ascii.eqb LF c) name = true ->
        free_of (Ascii.eqb QUOTE) post = true ->
        local_filename = OsPath.join path name)
  /\ ((content_disposition resp = None
       \/ exists header, content_disposition resp = Some header
                         /\ (Re.findall_filename header = []
                             \/ free_of (Ascii.eqb QUOTE) header = true)) ->
      forall seg, final_segment "/"%char url seg ->
        local_filename = OsPath.join path seg)
  /\ (exists seg, final_segment "/"%char url seg)
  /\ (forall name,
        Py.startswith "/" name = false -> path <> EmptyString ->
        (forall d, path <> d ++ "/") ->
        OsPath.join path name = path ++ "/" ++ name)
  /\ (forall base, final_segment "/"%char local_filename base ->
        ((String.length (unquote base) <= 30)%nat -> display_name = unquote base)
        /\ ((30 < String.length (unquote base))%nat ->
            display_name = substring 0 27 (unquote base) ++ "..."
            /\ String.length display_name = 30%nat))
  /\ (exists base, final_segment "/"%char local_filename base)
  /\ (String.length display_name <= 30)%nat
  /\ (forall env w w' msg,
        http_get env (requests_made w) url = inr resp ->
        attempt_once unquote env url path w = (Return msg, w') ->
        msg = "Downloaded " ++ url ++ " to " ++ local_filename
        /\ (exists body, disk w' = (local_filename, body) :: disk w)
        /\ (exists total, bars w' = (bars w ++ [(display_name, total)])%list)).
Proof.
  intros local_filename display_name.
  assert (Hfound : forall header name others,
            content_disposition resp = Some header ->
            Re.findall_filename header = name :: others ->
            local_filename = OsPath.join path name).
  { intros header name others Hh Hm. unfold local_filename, local_filename_of.
    rewrite Hh. destruct header as [|c header]; [discriminate Hm|].
    now rewrite Hm. }
  split; [|split; [|split; [|split; [|split; [|split; [|split; [|split]]]]]]].
  - intros header name others Hh Hm. split; [now apply (Hfound header name others)|].
    apply (findall_from_sound header O name).
    unfold Re.findall_filename in Hm. rewrite Hm. now left.
  - intros pre name post Hh Hpre Hne Hname Hpost.
    apply (Hfound _ name [] Hh). now apply findall_filename_header.
  - intros Hno seg Hseg. apply final_segment_unique in Hseg. subst seg.
    unfold local_filename, local_filename_of.
    destruct Hno as [-> | [header [-> Hm]]]; [reflexivity|].
    destruct header as [|c header]; [reflexivity|].
    destruct Hm as [Hm | Hq]; [now rewrite Hm|].
    unfold Re.findall_filename. now rewrite (findall_from_no_quote _ O Hq).
  - eexists. apply final_segment_split_last.
  - apply join_plain.
  - intros base Hbase. apply final_segment_unique in Hbase.
    unfold display_name, display_name_of, OsPath.basename. rewrite Hbase. split.
    + intros Hlen. apply Nat.leb_le in Hlen. now rewrite Hlen.
    + intros Hlen.
      assert ((String.length (unquote base) <=? 30)%nat = false) as ->
        by (apply Nat.leb_gt; exact Hlen).
      split; [reflexivity|]. rewrite length_append.
      fold (Py.take 27 (unquote base)). rewrite length_take.
      change (String.length "...") with 3%nat. lia.
  - eexists. apply final_segment_split_last.
  - apply display_name_length.
  - intros env w w' msg Hget Hrun.
    apply attempt_once_return in Hrun.
    destruct Hrun as [resp' [total [Hget' [_ [Hmsg [Hdisk Hbars]]]]]].
    rewrite Hget in Hget'. inversion Hget'; subst resp'.
    split; [exact Hmsg|]. split; [eexists; exact Hdisk | eexists; exact Hbars].
Qed.

Lemma download_link_file_names_witness :
  local_filename_of "http://h/get?id=7" "dl" Sample.reply_named
  = "dl/Super%20Mario%20Bros%20(USA)%20(Rev%201).zip"
  /\ display_name_of Sample.unquote_spaces
       (local_filename_of "http://h/get?id=7" "dl" Sample.reply_named)
     = "Super Mario Bros (USA) (Rev..."
  /\ local_filename_of "http://h/a/b/f.zip" "dl" Sample.reply = "dl/f.zip".
Proof.
  assert (Hdl : forall d, "dl" <> d ++ "/").
  { intros d H. destruct d as [|a [|b [|c d]]]; discriminate H. }
  destruct (download_link_file_names Sample.unquote_spaces "http://h/get?id=7" "dl"
              Sample.reply_named) as [_ [Hheader [_ [_ [Hjoin [Hshown _]]]]]].
  assert (Hfile : local_filename_of "http://h/get?id=7" "dl" Sample.reply_named
                  = "dl/Super%20Mario%20Bros%20(USA)%20(Rev%201).zip").
  { rewrite (Hheader "attachment; " "Super%20Mario%20Bros%20(USA)%20(Rev%201).zip"
               EmptyString);
      [ | reflexivity | vm_compute; reflexivity | discriminate
        | vm_compute; reflexivity | reflexivity ].
    rewrite Hjoin; [reflexivity | reflexivity | discriminate | exact Hdl]. }
  split; [exact Hfile|]. split.
  - destruct (Hshown "Super%20Mario%20Bros%20(USA)%20(Rev%201).zip") as [_ Hlong].
    + split; [vm_compute; reflexivity|]. right. exists "dl". rewrite Hfile. reflexivity.
    + destruct Hlong as [Hlong _]; [vm_compute; lia|]. rewrite Hlong.
      vm_compute. reflexivity.
  - destruct (download_link_file_names Sample.unquote_spaces "http://h/a/b/f.zip" "dl"
                Sample.reply) as [_ [_ [Hurl [_ [Hjoin' _]]]]].
    rewrite (Hurl (or_introl eq_refl) "f.zip").
    + rewrite Hjoin'; [reflexivity | reflexivity | discriminate | exact Hdl].
    + split; [vm_compute; reflexivity|]. right. now exists "http://h/a/b".
Defined.


(** ** One turn of the loop *)

Section TurnFacts.
Variable unquote : string -> string.
Variable env : Env.
Variables url path error_log : string.
Variable retries : Z.

(** What follows the answer of [requests.get] makes no request, prints
    nothing and leaves the log alone; it ends in the message of the finished
    download or in an exception of the response or of the opening of the
    file. *)
Lemma after_response_ends (r : Response) (w : World) :
  exists o w',
    after_response unquote env url path r w = (o, w')
    /\ requests_made w' = requests_made w /\ stdout w' = stdout w
    /\ logs w' = logs w
    /\ (o = Return ("Downloaded " ++ url ++ " to " ++ local_filename_of url path r)
        \/ exists e, o = Raise e
             /\ (status_error r = Some e \/ content_length r = inl e
                 \/ stream_error r = Some e
                 \/ open_wb env (local_filename_of url path r) = Some e)).
Proof.
  unfold after_response, bind, raise_if, int_content_length, open_for_write,
    tqdm_open, raise, ret.
  destruct (status_error r) as [e|] eqn:Es.
  { do 2 eexists. split; [reflexivity|]. repeat split. right. exists e. auto. }
  destruct (content_length r) as [e|n] eqn:Ec.
  { do 2 eexists. split; [reflexivity|]. repeat split. right. exists e. auto. }
  destruct (open_wb env _) as [e|] eqn:Eo.
  { do 2 eexists. split; [reflexivity|]. repeat split. right. exists e. auto. }
  match goal with |- context [write_chunks ?cs ?w1] =>
    destruct (write_chunks_spec cs w1) as [w2 [E2 [H1 [H2 [H3 _]]]]] end.
  rewrite E2. simpl in H1, H2, H3.
  destruct (stream_error r) as [e|] eqn:Est.
  - do 2 eexists. split; [reflexivity|]. repeat split; try assumption.
    right. exists e. auto.
  - do 2 eexists. split; [reflexivity|]. repeat split; try assumption.
    now left.
Qed.

(** The [except] clause ends the call with the failure message and a line
    in the log, goes on to the next turn with a notice, or is left by the
    exception raised when the log is opened. *)
Lemma on_Exception_cases (attempt : Z) (e : exn) (w : World) :
  (attempt + 1 = retries /\ open_a env error_log = None
   /\ on_Exception env url retries error_log attempt e w
      = (Return (inl (Some ("Failed to download " ++ url ++ ": " ++ exn_str e))),
         {| requests_made := requests_made w; stdout := stdout w;
            logs := append_to (logs w) error_log (error_log_line url retries e);
            disk := disk w; bars := bars w |}))
  \/ (exists e', attempt + 1 = retries /\ open_a env error_log = Some e'
        /\ on_Exception env url retries error_log attempt e w = (Raise e', w))
  \/ (attempt + 1 <> retries
      /\ on_Exception env url retries error_log attempt e w
         = (Return (inr (attempt + 1)),
            snd (print (retry_notice url (attempt + 1) retries) w))).
Proof.
  unfold on_Exception. cbv zeta.
  destruct (Z.eqb_spec (attempt + 1) retries) as [Hlast|Hmore].
  - unfold bind, log_append. destruct (open_a env error_log) as [e'|].
    + right; left. exists e'. auto.
    + left. auto.
  - right; right. split; [exact Hmore | reflexivity].
Qed.

Lemma requests_get_asked (w : World) : asked env (fst (requests_get env url w)).
Proof.
  unfold requests_get, asked.
  destruct (http_get env (requests_made w) url) as [e|r] eqn:E.
  - left. exists (requests_made w), url, e. auto.
  - right. exists (requests_made w), url, r. auto.
Qed.

Lemma requests_get_frame (w : World) :
  requests_made (snd (requests_get env url w)) = S (requests_made w)
  /\ stdout (snd (requests_get env url w)) = stdout w
  /\ logs (snd (requests_get env url w)) = logs w
  /\ fst (requests_get env url w) <> OutOfFuel.
Proof.
  unfold requests_get.
  destruct (http_get env (requests_made w) url); simpl; repeat split; discriminate.
Qed.

(** A turn, from the answer on: it makes no request, prints at most the
    retry notice, and ends the call with an outcome, goes on with the next
    count, or raises: an exception outside [Exception] that the network or
    the file raised, or the exception of the opening of the log. *)
Lemma loop_turn_cases (attempt : Z) (answer : outcome Response) (w w' : World)
    (o : outcome (option string + Z)) :
  asked env answer ->
  loop_turn unquote env url path retries error_log attempt answer w = (o, w') ->
  requests_made w' = requests_made w
  /\ (stdout w' = stdout w
      \/ stdout w' = (stdout w ++ [retry_notice url (attempt + 1) retries])%list)
  /\ ((exists v, o = Return (inl v) /\ (Success url v \/ Failure url v))
      \/ (o = Return (inr (attempt + 1)) /\ attempt + 1 <> retries)
      \/ (exists e, o = Raise e
            /\ ((env_raises env e /\ is_Exception e = false)
                \/ open_a env error_log = Some e))).
Proof.
  intros Hasked.
  assert (Hhandler : forall e w1 o1 w2,
            requests_made w1 = requests_made w -> stdout w1 = stdout w ->
            on_Exception env url retries error_log attempt e w1 = (o1, w2) ->
            requests_made w2 = requests_made w
            /\ (stdout w2 = stdout w
                \/ stdout w2 = (stdout w ++ [retry_notice url (attempt + 1) retries])%list)
            /\ ((exists v, o1 = Return (inl v) /\ (Success url v \/ Failure url v))
                \/ (o1 = Return (inr (attempt + 1)) /\ attempt + 1 <> retries)
                \/ (exists e', o1 = Raise e'
                      /\ ((env_raises env e' /\ is_Exception e' = false)
                          \/ open_a env error_log = Some e')))).
  { intros e w1 o1 w2 Hr Hs E.
    destruct (on_Exception_cases attempt e w1)
      as [[_ [_ E']] | [[e' [_ [Hlog E']]] | [Hmore E']]];
      rewrite E' in E; injection E as <- <-; simpl.
    - split; [exact Hr|]. split; [now left|]. left. eexists.
      split; [reflexivity|]. right. now exists e.
    - split; [exact Hr|]. split; [now left|]. right; right. exists e'. auto.
    - split; [exact Hr|]. split; [right; now rewrite Hs|]. right; left. auto. }
  unfold loop_turn, try_except_Exception, bind.
  destruct Hasked as [[k [u [e0 [Hget ->]]]] | [k [u [r [Hget ->]]]]].
  - destruct (is_Exception e0) eqn:He.
    + intros E. now apply (Hhandler e0 w o w').
    + intros E. injection E as <- <-. split; [reflexivity|]. split; [now left|].
      right; right. exists e0. split; [reflexivity|]. left. split; [|exact He].
      left. now exists k, u.
  - destruct (after_response_ends r w) as [o1 [w1 [E1 [F1 [F2 [_ H]]]]]].
    rewrite E1. destruct H as [-> | [e [-> He]]].
    + intros E. injection E as <- <-. split; [exact F1|]. split; [now left|].
      left. eexists. split; [reflexivity|]. left. eexists. reflexivity.
    + destruct (is_Exception e) eqn:Hexc.
      * intros E. now apply (Hhandler e w1 o w').
      * intros E. injection E as <- <-. split; [exact F1|]. split; [now left|].
        right; right. exists e. split; [reflexivity|]. left. split; [|exact Hexc].
        destruct He as [He | [He | [He | He]]].
        -- right; left. exists k, u, r. auto.
        -- right; left. exists k, u, r. auto.
        -- right; left. exists k, u, r. auto.
        -- right; right. eexists. exact He.
Qed.

(** The loop of [download_link], one turn unfolded: the GET, then the turn
    from the answer on. *)
Lemma retry_loop_turn (fuel : nat) (attempt : Z) (w : World) :
  attempt < retries ->
  retry_loop unquote env (S fuel) url path retries error_log attempt w
  = match loop_turn unquote env url path retries error_log attempt
            (fst (requests_get env url w)) (snd (requests_get env url w)) with
    | (Return (inl v), w2) => (Return v, w2)
    | (Return (inr attempt'), w2) =>
        retry_loop unquote env fuel url path retries error_log attempt' w2
    | (Raise e, w2) => (Raise e, w2)
    | (OutOfFuel, w2) => (OutOfFuel, w2)
    end.
Proof.
  intros Ha. cbn [retry_loop]. apply Z.ltb_lt in Ha. rewrite Ha.
  unfold loop_turn, try_except_Exception, attempt_once, on_Exception, bind.
  destruct (requests_get env url w) as [[r|e|] w1]; cbn [fst snd]; cbv beta iota.
  - destruct (after_response unquote env url path r w1) as [[msg|e|] w2];
      [reflexivity | | reflexivity].
    destruct (is_Exception e); [|reflexivity]. cbv zeta.
    destruct (attempt + 1 =? retries); [|reflexivity].
    unfold log_append, ret. destruct (open_a env error_log); reflexivity.
  - destruct (is_Exception e); [|reflexivity]. cbv zeta.
    destruct (attempt + 1 =? retries); [|reflexivity].
    unfold log_append, ret. destruct (open_a env error_log); reflexivity.
  - reflexivity.
Qed.

(** With fuel for the turns that are left the loop does not end for want
    of it. *)
Lemma retry_loop_fuel (fuel : nat) (attempt : Z) (w : World) :
  retries - attempt <= Z.of_nat fuel ->
  fst (retry_loop unquote env fuel url path retries error_log attempt w) <> OutOfFuel.
Proof.
  intros Hfuel. destruct (Z_lt_le_dec attempt retries) as [Hlt|Hge].
  - destruct (retry_loop_ends unquote env url path error_log retries fuel attempt w
                Hlt Hfuel)
      as [r [w' [E [[v [-> _]] | [[e [w1 [w2 [-> _]]]] | [e [-> _]]]]]]];
      rewrite E; discriminate.
  - assert ((attempt <? retries) = false) as Hf by (apply Z.ltb_ge; lia).
    destruct fuel; simpl; rewrite Hf; discriminate.
Qed.

End TurnFacts.

(** ** Download coordinator *)

Lemma in_flight_app (a b : list (option nat)) :
  in_flight (a ++ b) = (in_flight a ++ in_flight b)%list.
Proof.
  induction a as [|[i|] a IH]; simpl; [reflexivity | now rewrite IH | exact IH].
Qed.


Lemma occ_app (j : nat) (a b : list nat) : occ j (a ++ b) = (occ j a + occ j b)%nat.
Proof. apply count_occ_app. Qed.

Lemma occ_cons (j i : nat) (l : list nat) :
  occ j (i :: l) = ((if (i =? j)%nat then 1 else 0) + occ j l)%nat.
Proof.
  unfold occ. simpl. destruct (Nat.eq_dec i j) as [->|H].
  - now rewrite Nat.eqb_refl.
  - apply Nat.eqb_neq in H. now rewrite H.
Qed.

Lemma occ_nil (j : nat) : occ j [] = 0%nat.
Proof. reflexivity. Qed.

Lemma occ_seq (j n : nat) : occ j (seq 0 n) = if (j <? n)%nat then 1%nat else 0%nat.
Proof.
  induction n as [|n IH].
  - reflexivity.
  - rewrite seq_S, occ_app, IH. change (0 + n)%nat with n.
    rewrite occ_cons, occ_nil.
    destruct (Nat.ltb_spec j n), (Nat.ltb_spec j (S n)), (Nat.eqb_spec n j); lia.
Qed.

(** A list of [n] tasks in which each task below [n] occurs at most once,
    and no other task, holds each of them once. *)
Lemma occ_bounded_perm (l : list nat) (n : nat) :
  List.length l = n ->
  (forall j, (occ j l <= if (j <? n)%nat then 1 else 0)%nat) ->
  Permutation l (seq 0 n).
Proof.
  intros Hlen Hocc. apply NoDup_Permutation_bis.
  - apply (NoDup_count_occ Nat.eq_dec). intros j. specialize (Hocc j).
    unfold occ in Hocc. destruct (j <? n)%nat; lia.
  - rewrite length_seq. lia.
  - intros j Hj. apply in_seq. split; [lia|]. simpl.
    apply (count_occ_In Nat.eq_dec) in Hj. specialize (Hocc j). unfold occ in Hocc.
    destruct (Nat.ltb_spec j n); [assumption | lia].
Qed.

Lemma occ_all_zero (l : list nat) : (forall j, occ j l = 0%nat) -> l = [].
Proof. intros H. apply (count_occ_inv_nil Nat.eq_dec). exact H. Qed.

Lemma set_local_same (i : nat) (st : Stage) (f : nat -> Stage) :
  set_local i st f i = st.
Proof. unfold set_local. now rewrite Nat.eqb_refl. Qed.

Lemma set_local_other (i j : nat) (st : Stage) (f : nat -> Stage) :
  j <> i -> set_local i st f j = f j.
Proof. intros H. unfold set_local. apply Nat.eqb_neq in H. now rewrite H. Qed.

Lemma dispatched_running (s : Pool) (ws1 ws2 : list (option nat)) (i : nat) :
  workers s = (ws1 ++ Some i :: ws2)%list -> dispatched s <> [].
Proof.
  intros Hw H. unfold dispatched in H. rewrite Hw, in_flight_app in H.
  apply app_eq_nil in H. destruct H as [_ H].
  apply app_eq_nil in H. destruct H as [H _].
  apply app_eq_nil in H. destruct H as [_ H]. discriminate H.
Qed.

Lemma dispatched_queued (s : Pool) (i : nat) (q : list nat) :
  queue s = i :: q -> dispatched s <> [].
Proof. intros Hq H. unfold dispatched in H. rewrite Hq in H. discriminate H. Qed.

Lemma in_flight_split (ws : list (option nat)) :
  in_flight ws <> [] -> exists ws1 i ws2, ws = (ws1 ++ Some i :: ws2)%list.
Proof.
  induction ws as [|[i|] ws IH]; simpl; intros H.
  - now elim H.
  - exists [], i, ws. reflexivity.
  - destruct (IH H) as [ws1 [i [ws2 ->]]]. exists (None :: ws1), i, ws2. reflexivity.
Qed.

Lemma in_flight_idle (ws : list (option nat)) :
  in_flight ws = [] -> ws = [] \/ exists ws2, ws = None :: ws2.
Proof.
  destruct ws as [|[i|] ws]; simpl; intros H; [now left | discriminate | right].
  now exists ws.
Qed.

Lemma in_flight_running (ws1 ws2 : list (option nat)) (i : nat) :
  In i (in_flight (ws1 ++ Some i :: ws2)).
Proof. rewrite in_flight_app. apply in_or_app. right. now left. Qed.

Lemma in_flight_others (ws1 ws2 : list (option nat)) (x : option nat) (j : nat) :
  In j (in_flight (ws1 ++ None :: ws2)) -> In j (in_flight (ws1 ++ x :: ws2)).
Proof.
  rewrite !in_flight_app. intros H. apply in_app_or in H. apply in_or_app.
  destruct H as [H|H]; [now left | right].
  simpl in H. destruct x; [now right | exact H].
Qed.

Section CoordinatorFacts.
Variable unquote : string -> string.
Variable env : Env.
Variable links : list string.
Variable max_workers : Z.
Variable path : string.
Hypothesis max_workers_positive : 1 <= max_workers.

Local Notation "'inv' s" := (pool_inv env links max_workers path s)
  (at level 10, s at level 9, only parsing).
Local Notation "s '-->' s'" := (download_links_step unquote env links max_workers path s s')
  (at level 70, only parsing).

Lemma pool_inv_initial (w : World) : inv (initial w).
Proof.
  unfold pool_inv. simpl.
  split; [lia|]. split; [right; split; [reflexivity | now left]|].
  split; [split; [lia | reflexivity]|].
  split; [constructor|]. split; [constructor|].
  split; [discriminate | intros i []].
Qed.

Ltac occ_norm :=
  unfold dispatched in *; cbn [queue workers done results] in *;
  repeat match goal with
    | H : queue _ = _ |- _ => rewrite H in *; clear H
    | H : workers _ = _ |- _ => rewrite H in *; clear H
    | H : done _ = _ |- _ => rewrite H in *; clear H
    end;
  repeat (rewrite ?map_app, ?in_flight_app, ?occ_app, ?occ_cons, ?occ_nil in *;
          cbn [map in_flight fst app] in * ).

Ltac occ_solve I3 :=
  let j := fresh "j" in
  intros j; specialize (I3 j); occ_norm;
  repeat match goal with
    | |- context [(?a <? ?b)%nat] => destruct (Nat.ltb_spec a b)
    | H : context [(?a <? ?b)%nat] |- _ => destruct (Nat.ltb_spec a b)
    | |- context [(?a =? ?b)%nat] => destruct (Nat.eqb_spec a b)
    | H : context [(?a =? ?b)%nat] |- _ => destruct (Nat.eqb_spec a b)
    end; lia.

(** At most [max_workers] threads. *)
Lemma pool_threads_step (s s' : Pool) :
  Z.of_nat (List.length (workers s)) <= max_workers -> s --> s' ->
  Z.of_nat (List.length (workers s')) <= max_workers.
Proof.
  intros I1 Hstep.
  destruct Hstep; cbn [workers]; try assumption;
    try (match goal with H : workers _ = _ |- _ => rewrite H in I1 end;
         rewrite length_app in *; simpl in *; lia).
  rewrite length_app. simpl. lia.
Qed.

(** The directory is there, or nothing has been handed over and the main
    thread has not come past [os.makedirs]. *)
Lemma pool_dirs_step (s s' : Pool) :
  In path (dirs s)
  \/ (dispatched s = [] /\ (phase s = Begin \/ exists e, phase s = Aborted e)) ->
  s --> s' ->
  In path (dirs s')
  \/ (dispatched s' = [] /\ (phase s' = Begin \/ exists e, phase s' = Aborted e)).
Proof.
  intros [Hin | [Hd Hph]] Hstep.
  - left. destruct Hstep; cbn [dirs]; try assumption. now right.
  - assert (Hphase : forall p, phase s = p -> p <> Begin ->
              (forall e, p <> Aborted e) -> False).
    { intros p Hp Hb Ha. destruct Hph as [Hph | [e Hph]]; rewrite Hph in Hp.
      - now elim Hb.
      - now elim (Ha e). }
    destruct Hstep;
      try (exfalso; eapply Hphase; [eassumption | discriminate | discriminate]);
      try (exfalso; eapply dispatched_running; eassumption);
      try (exfalso; eapply dispatched_queued; eassumption).
    + left. cbn [dirs]. now left.
    + right. split; [exact Hd | right; eexists; reflexivity].
    + exfalso.
      match goal with H : _ \/ _ |- _ => destruct H as [H|H] end;
        (eapply Hphase; [exact H | discriminate | discriminate]).
Qed.

(** Each link submitted so far is handed over once. *)
Lemma pool_occ_step (s s' : Pool) :
  match submitted (List.length links) (phase s) with
  | Some k =>
      (k <= List.length links)%nat
      /\ forall j, occ j (dispatched s) = if (j <? k)%nat then 1%nat else 0%nat
  | None => True
  end ->
  s --> s' ->
  match submitted (List.length links) (phase s') with
  | Some k =>
      (k <= List.length links)%nat
      /\ forall j, occ j (dispatched s') = if (j <? k)%nat then 1%nat else 0%nat
  | None => True
  end.
Proof.
  intros I3 Hstep.
  destruct Hstep as
    [ s Hp Hm | s e Hp Hm | s Hp Hc | s Hp Hc | s i url Hp Hi | s Hp | s i Hp Hw
    | s ws1 ws2 i q Hw Hq
    | s ws1 ws2 i url attempt Hw Hi Hl Ha
    | s ws1 ws2 i attempt Hw Hl Ha
    | s ws1 ws2 i url attempt answer attempt' w' Hw Hi Hl Hrun
    | s ws1 ws2 i url attempt answer v w' Hw Hi Hl Hrun
    | s ws1 ws2 i url attempt answer e w' Hw Hi Hl Hrun
    | s d1 d2 i v Hp Hd | s d1 d2 i e Hp Hd | s Hp Hlen ];
    cbn [phase]; try rewrite Hp in *; cbn [submitted] in *;
    try exact I; try exact I3.
  - (* submit *)
    assert (i < List.length links)%nat by (apply nth_error_Some; congruence).
    destruct I3 as [_ I3]. split; [lia|]. occ_solve I3.
  - (* spawn *)
    destruct (submitted _ _); [|exact I].
    destruct I3 as [I3a I3]. split; [exact I3a|]. occ_solve I3.
  - (* take *)
    destruct (submitted _ _); [|exact I].
    destruct I3 as [I3a I3]. split; [exact I3a|]. occ_solve I3.
  - (* the loop is left *)
    destruct (submitted _ _); [|exact I].
    destruct I3 as [I3a I3]. split; [exact I3a|]. occ_solve I3.
  - (* the call returns *)
    destruct (submitted _ _); [|exact I].
    destruct I3 as [I3a I3]. split; [exact I3a|]. occ_solve I3.
  - (* the call raises *)
    destruct (submitted _ _); [|exact I].
    destruct I3 as [I3a I3]. split; [exact I3a|]. occ_solve I3.
  - (* result *)
    destruct I3 as [I3a I3]. split; [exact I3a|]. occ_solve I3.
Qed.

(** The local state of the running tasks. *)
Lemma pool_locals_step (s s' : Pool) :
  (forall i, In i (in_flight (workers s)) -> stage_ok env (locals s i)) ->
  s --> s' ->
  forall i, In i (in_flight (workers s')) -> stage_ok env (locals s' i).
Proof.
  intros I7 Hstep.
  destruct Hstep as
    [ s Hp Hm | s e Hp Hm | s Hp Hc | s Hp Hc | s i url Hp Hi | s Hp | s i Hp Hw
    | s ws1 ws2 i q Hw Hq
    | s ws1 ws2 i url attempt Hw Hi Hl Ha
    | s ws1 ws2 i attempt Hw Hl Ha
    | s ws1 ws2 i url attempt answer attempt' w' Hw Hi Hl Hrun
    | s ws1 ws2 i url attempt answer v w' Hw Hi Hl Hrun
    | s ws1 ws2 i url attempt answer e w' Hw Hi Hl Hrun
    | s d1 d2 i v Hp Hd | s d1 d2 i e Hp Hd | s Hp Hlen ];
    cbn [workers locals]; try exact I7.
  - (* spawn *)
    intros j Hj. apply I7. rewrite in_flight_app in Hj. simpl in Hj.
    now rewrite app_nil_r in Hj.
  - (* take *)
    intros j Hj. destruct (Nat.eq_dec j i) as [->|Hne].
    + rewrite set_local_same. simpl. lia.
    + rewrite set_local_other by exact Hne. apply I7. rewrite Hw.
      rewrite in_flight_app in *. apply in_app_or in Hj. apply in_or_app.
      destruct Hj as [Hj|[Hj|Hj]]; [now left | now elim Hne | now right].
  - (* the GET *)
    intros j Hj. destruct (Nat.eq_dec j i) as [->|Hne].
    + rewrite set_local_same. specialize (I7 i Hj). rewrite Hl in I7. simpl in I7.
      simpl. split; [exact I7 | apply requests_get_asked].
    + rewrite set_local_other by exact Hne. now apply I7.
  - (* the loop is left *)
    intros j Hj. apply I7. rewrite Hw. now apply in_flight_others.
  - (* the next turn *)
    intros j Hj. destruct (Nat.eq_dec j i) as [->|Hne].
    + rewrite set_local_same. specialize (I7 i Hj). rewrite Hl in I7.
      destruct I7 as [Hrange Hasked].
      destruct (loop_turn_cases unquote env url path "error_log.txt" 3 attempt
                  answer (world s) w' _ Hasked Hrun)
        as [_ [_ [[v [E _]] | [[E Hmore] | [e [E _]]]]]]; try discriminate E.
      injection E as ->. simpl. lia.
    + rewrite set_local_other by exact Hne. now apply I7.
  - (* the call returns *)
    intros j Hj. apply I7. rewrite Hw. now apply in_flight_others.
  - (* the call raises *)
    intros j Hj. apply I7. rewrite Hw. now apply in_flight_others.
Qed.

(** What the futures hold. *)
Lemma pool_futures_step (s s' : Pool) :
  (forall i, In i (in_flight (workers s)) -> stage_ok env (locals s i)) ->
  Forall (fun d => future_of env links (fst d) (snd d)) (done s) ->
  s --> s' ->
  Forall (fun d => future_of env links (fst d) (snd d)) (done s').
Proof.
  intros I7 I4 Hstep.
  destruct Hstep as
    [ s Hp Hm | s e Hp Hm | s Hp Hc | s Hp Hc | s i url Hp Hi | s Hp | s i Hp Hw
    | s ws1 ws2 i q Hw Hq
    | s ws1 ws2 i url attempt Hw Hi Hl Ha
    | s ws1 ws2 i attempt Hw Hl Ha
    | s ws1 ws2 i url attempt answer attempt' w' Hw Hi Hl Hrun
    | s ws1 ws2 i url attempt answer v w' Hw Hi Hl Hrun
    | s ws1 ws2 i url attempt answer e w' Hw Hi Hl Hrun
    | s d1 d2 i v Hp Hd | s d1 d2 i e Hp Hd | s Hp Hlen ];
    cbn [done]; try exact I4.
  - (* the loop is left: not with a count below 3 *)
    assert (Hi : In i (in_flight (workers s)))
      by (rewrite Hw; apply in_flight_running).
    specialize (I7 i Hi). rewrite Hl in I7. simpl in I7. lia.
  - (* the call returns *)
    assert (Hin : In i (in_flight (workers s)))
      by (rewrite Hw; apply in_flight_running).
    specialize (I7 i Hin). rewrite Hl in I7. destruct I7 as [_ Hasked].
    destruct (loop_turn_cases unquote env url path "error_log.txt" 3 attempt
                answer (world s) w' _ Hasked Hrun)
      as [_ [_ [[v' [E Hv]] | [[E _] | [e [E _]]]]]]; try discriminate E.
    injection E as <-.
    apply Forall_app. split; [exact I4|]. constructor; [|constructor].
    left. exists v. split; [reflexivity|]. exists url. auto.
  - (* the call raises *)
    assert (Hin : In i (in_flight (workers s)))
      by (rewrite Hw; apply in_flight_running).
    specialize (I7 i Hin). rewrite Hl in I7. destruct I7 as [_ Hasked].
    destruct (loop_turn_cases unquote env url path "error_log.txt" 3 attempt
                answer (world s) w' _ Hasked Hrun)
      as [_ [_ [[v' [E Hv]] | [[E _] | [e' [E He]]]]]]; try discriminate E.
    injection E as <-.
    apply Forall_app. split; [exact I4|]. constructor; [|constructor].
    right. exists e. auto.
  - (* result *)
    rewrite Hd in I4. apply Forall_app in I4. destruct I4 as [I4a I4b].
    inversion I4b; subst. apply Forall_app. now split.
  - (* the future raises *)
    rewrite Hd in I4. apply Forall_app in I4. destruct I4 as [I4a I4b].
    inversion I4b; subst. apply Forall_app. now split.
Qed.

(** What has been printed. *)
Lemma pool_results_step (s s' : Pool) :
  Forall (fun d => future_of env links (fst d) (snd d)) (done s) ->
  Forall (fun d => outcome_of links (fst d) (snd d)) (results s) ->
  s --> s' ->
  Forall (fun d => outcome_of links (fst d) (snd d)) (results s').
Proof.
  intros I4 I5 Hstep.
  destruct Hstep; cbn [results]; try exact I5.
  match goal with H : done _ = _ |- _ => rewrite H in I4 end.
  apply Forall_app in I4. destruct I4 as [_ I4].
  inversion I4 as [|? ? Hv _]; subst.
  apply Forall_app. split; [exact I5|]. constructor; [|constructor].
  simpl in Hv |- *.
  destruct Hv as [[v' [Ev Hv]] | [e [Ev _]]];
    [injection Ev as <-; exact Hv | discriminate Ev].
Qed.

Lemma pool_inv_step (s s' : Pool) : inv s -> s --> s' -> inv s'.
Proof.
  unfold pool_inv.
  intros [I1 [I2 [I3 [I4 [I5 [I6 I7]]]]]] Hstep.
  split; [eapply pool_threads_step; eassumption|].
  split; [eapply pool_dirs_step; eassumption|].
  split; [eapply pool_occ_step; eassumption|].
  split; [eapply pool_futures_step; eassumption|].
  split; [eapply pool_results_step; eassumption|].
  split; [|eapply pool_locals_step; eassumption].
  destruct Hstep; cbn [phase results]; try discriminate;
    try (intros Hf; apply I6; exact Hf);
    try (intros Hf; match goal with H : phase _ = _ |- _ => rewrite H in Hf end;
         discriminate Hf).
  intros _. assumption.
Qed.

Lemma pool_inv_reachable (s s' : Pool) :
  inv s -> reachable unquote env links max_workers path s s' -> inv s'.
Proof.
  intros Hs. induction 1 as [|s1 s2 _ IH Hstep]; [exact Hs|].
  eapply pool_inv_step; eassumption.
Qed.

Lemma reachable_trans (s1 s2 s3 : Pool) :
  reachable unquote env links max_workers path s1 s2 ->
  reachable unquote env links max_workers path s2 s3 ->
  reachable unquote env links max_workers path s1 s3.
Proof.
  intros H12. induction 1 as [|s s' _ IH Hstep]; [exact H12|].
  eapply reach_step; eassumption.
Qed.

Lemma reachable_one (s s' : Pool) :
  s --> s' -> reachable unquote env links max_workers path s s'.
Proof. intros H. eapply reach_step; [apply reach_here | exact H]. Qed.

(** *** A task is a call of [download_link] *)

(** The steps of one task, taken one after the other from the test of its
    loop, are the loop of [download_link]: the future gets what the loop
    ends in, and the world is the one the loop leaves. *)
Lemma task_runs_loop (fuel : nat) :
  forall (s : Pool) (ws1 ws2 : list (option nat)) (i : nat) (url : string)
         (attempt : Z) (r : outcome (option string)) (w' : World),
  workers s = (ws1 ++ Some i :: ws2)%list -> nth_error links i = Some url ->
  locals s i = AtLoop attempt ->
  retry_loop unquote env fuel url path 3 "error_log.txt" attempt (world s) = (r, w') ->
  r <> OutOfFuel ->
  exists l',
    reachable unquote env links max_workers path s
      {| phase := phase s; dirs := dirs s; queue := queue s;
         workers := ws1 ++ None :: ws2; locals := l';
         done := done s ++ [(i, r)]; results := results s; world := w' |}.
Proof.
  induction fuel as [|fuel IH]; intros s ws1 ws2 i url attempt r w' Hw Hi Hl Hrun Hr;
    destruct (Z_lt_le_dec attempt 3) as [Hlt|Hge].
  - simpl in Hrun. apply Z.ltb_lt in Hlt. rewrite Hlt in Hrun.
    injection Hrun as <- _. now elim Hr.
  - simpl in Hrun. assert ((attempt <? 3) = false) as Hf by (apply Z.ltb_ge; lia).
    rewrite Hf in Hrun. injection Hrun as <- <-.
    exists (locals s). apply reachable_one. eapply step_falls_out; eassumption.
  - rewrite retry_loop_turn in Hrun by exact Hlt.
    pose proof (step_request unquote env links max_workers path
                  s ws1 ws2 i url attempt Hw Hi Hl Hlt) as S1.
    destruct (loop_turn unquote env url path 3 "error_log.txt" attempt
                (fst (requests_get env url (world s)))
                (snd (requests_get env url (world s))))
      as [[[v|attempt']|e|] w2] eqn:Eturn.
    + (* the call returns *)
      injection Hrun as <- <-.
      match type of S1 with download_links_step _ _ _ _ _ _ ?s1 =>
        pose proof (step_turn_returns unquote env links max_workers path s1 ws1 ws2 i url
                      attempt _ v w2 Hw Hi
                      (set_local_same i _ (locals s)) Eturn) as S2 end.
      cbn [phase dirs queue workers locals done results world] in S2.
      eexists. eapply reach_step; [apply reachable_one, S1 | exact S2].
    + (* the next turn *)
      match type of S1 with download_links_step _ _ _ _ _ _ ?s1 =>
        pose proof (step_turn_again unquote env links max_workers path s1 ws1 ws2 i url
                      attempt _ attempt' w2 Hw Hi
                      (set_local_same i _ (locals s)) Eturn) as S2 end.
      cbn [phase dirs queue workers locals done results world] in S2.
      match type of S2 with download_links_step _ _ _ _ _ _ ?s2 =>
        destruct (IH s2 ws1 ws2 i url attempt' r w') as [l' R] end;
        cbn [phase dirs queue workers locals done results world];
        [exact Hw | exact Hi | apply set_local_same | exact Hrun | exact Hr |].
      cbn [phase dirs queue workers locals done results world] in R.
      exists l'. eapply reachable_trans; [|exact R].
      eapply reach_step; [apply reachable_one, S1 | exact S2].
    + (* the call raises *)
      injection Hrun as <- <-.
      match type of S1 with download_links_step _ _ _ _ _ _ ?s1 =>
        pose proof (step_turn_raises unquote env links max_workers path s1 ws1 ws2 i url
                      attempt _ e w2 Hw Hi
                      (set_local_same i _ (locals s)) Eturn) as S2 end.
      cbn [phase dirs queue workers locals done results world] in S2.
      eexists. eapply reach_step; [apply reachable_one, S1 | exact S2].
    + injection Hrun as <- _. now elim Hr.
  - simpl in Hrun. assert ((attempt <? 3) = false) as Hf by (apply Z.ltb_ge; lia).
    rewrite Hf in Hrun. injection Hrun as <- <-.
    exists (locals s). apply reachable_one. eapply step_falls_out; eassumption.
Qed.

(** A running task comes to its end, wherever it is. *)
Lemma task_ends (s : Pool) (ws1 ws2 : list (option nat)) (i : nat) :
  inv s -> (forall e, phase s <> Aborted e) ->
  workers s = (ws1 ++ Some i :: ws2)%list ->
  exists l' r w',
    reachable unquote env links max_workers path s
      {| phase := phase s; dirs := dirs s; queue := queue s;
         workers := ws1 ++ None :: ws2; locals := l';
         done := done s ++ [(i, r)]; results := results s; world := w' |}.
Proof.
  intros Hinv Hph Hw.
  assert (exists url, nth_error links i = Some url) as [url Hurl].
  { destruct Hinv as [_ [_ [I3 _]]].
    destruct (submitted (List.length links) (phase s)) as [k|] eqn:Hk.
    - destruct I3 as [I3a I3]. specialize (I3 i). unfold dispatched in I3.
      rewrite Hw, in_flight_app in I3. simpl in I3.
      rewrite !occ_app, occ_cons, Nat.eqb_refl in I3.
      destruct (Nat.ltb_spec i k) as [Hi|]; [|lia].
      assert (i < List.length links)%nat as Hi' by lia.
      apply nth_error_Some in Hi'.
      destruct (nth_error links i) as [url|]; [now exists url | now elim Hi'].
    - destruct (phase s); try discriminate Hk. now elim (Hph e). }
  assert (Hloop : forall s1 attempt,
            workers s1 = (ws1 ++ Some i :: ws2)%list -> locals s1 i = AtLoop attempt ->
            exists l' r w',
              reachable unquote env links max_workers path s1
                {| phase := phase s1; dirs := dirs s1; queue := queue s1;
                   workers := ws1 ++ None :: ws2; locals := l';
                   done := done s1 ++ [(i, r)]; results := results s1;
                   world := w' |}).
  { intros s1 attempt Hw1 Hl1.
    destruct (retry_loop unquote env (Z.to_nat (3 - attempt)) url path 3
                "error_log.txt" attempt (world s1)) as [r w'] eqn:Erun.
    destruct (task_runs_loop (Z.to_nat (3 - attempt)) s1 ws1 ws2 i url attempt r w'
                Hw1 Hurl Hl1 Erun) as [l' R].
    - pose proof (retry_loop_fuel unquote env url path "error_log.txt" 3
                    (Z.to_nat (3 - attempt)) attempt (world s1)) as Hfuel.
      rewrite Erun in Hfuel. apply Hfuel. lia.
    - now exists l', r, w'. }
  destruct (locals s i) as [attempt|attempt answer] eqn:Hl.
  - now apply (Hloop s attempt).
  - destruct (loop_turn unquote env url path 3 "error_log.txt" attempt answer
                (world s)) as [[[v|attempt']|e|] w2] eqn:Eturn.
    + do 3 eexists. apply reachable_one. eapply step_turn_returns; eassumption.
    + pose proof (step_turn_again unquote env links max_workers path s ws1 ws2 i url
                    attempt answer attempt' w2 Hw Hurl Hl Eturn) as S1.
      match type of S1 with download_links_step _ _ _ _ _ _ ?s1 =>
        destruct (Hloop s1 attempt') as [l' [r [w' R]]] end;
        cbn [workers locals]; [exact Hw | apply set_local_same |].
      cbn [phase dirs queue workers locals done results world] in R.
      exists l', r, w'. eapply reachable_trans; [apply reachable_one, S1 | exact R].
    + do 3 eexists. apply reachable_one. eapply step_turn_raises; eassumption.
    + exfalso.
      assert (In i (in_flight (workers s))) as Hin
        by (rewrite Hw; apply in_flight_running).
      destruct Hinv as [_ [_ [_ [_ [_ [_ I7]]]]]].
      specialize (I7 i Hin). rewrite Hl in I7. destruct I7 as [_ Hasked].
      destruct (loop_turn_cases unquote env url path "error_log.txt" 3 attempt
                  answer (world s) w2 _ Hasked Eturn)
        as [_ [_ [[v [E _]] | [[E _] | [e [E _]]]]]]; discriminate E.
Qed.

(** *** The run comes to its end *)

Hypothesis directory_can_be_made : makedirs env path = None.
Hypothesis log_can_be_opened : open_a env "error_log.txt" = None.
Hypothesis env_raises_Exceptions : only_Exceptions env.

Lemma env_raises_Exception (e : exn) : env_raises env e -> is_Exception e = true.
Proof.
  destruct env_raises_Exceptions as [Hget [Hresp Hopen]].
  intros [[i [url E]] | [[i [url [r [Eg E]]]] | [name E]]].
  - eapply Hget, E.
  - eapply Hresp; [exact Eg | exact E].
  - eapply Hopen, E.
Qed.

(** The future of a task holds a returned value. *)
Lemma future_returned (i : nat) (r : outcome (option string)) :
  future_of env links i r -> exists v, r = Return v.
Proof.
  intros [[v [-> _]] | [e [_ [[He Hf] | Hlog]]]].
  - now exists v.
  - apply env_raises_Exception in He. congruence.
  - congruence.
Qed.



Lemma collecting_finishes (m : nat) :
  forall s, (backlog s <= m)%nat -> inv s -> phase s = Collecting ->
  exists s', reachable unquote env links max_workers path s s' /\ phase s' = Finished.
Proof.
  induction m as [|m IH]; intros s Hm Hinv Hp.
  - (* nothing is queued, running or completed *)
    unfold backlog in Hm.
    destruct (queue s) eqn:Eq; [|simpl in Hm; lia].
    destruct (in_flight (workers s)) eqn:Ew; [|simpl in Hm; lia].
    destruct (done s) eqn:Ed; [|simpl in Hm; lia].
    destruct Hinv as [_ [_ [I3 _]]]. rewrite Hp in I3. cbn [submitted] in I3.
    destruct I3 as [_ I3].
    assert (Hlen : List.length (results s) = List.length links).
    { assert (Permutation (map fst (results s)) (seq 0 (List.length links))) as HP.
      { apply (Permutation_count_occ Nat.eq_dec).
        intros j. specialize (I3 j). unfold dispatched in I3.
        rewrite Eq, Ew, Ed in I3. simpl in I3.
        fold (occ j (seq 0 (List.length links))). rewrite occ_seq. exact I3. }
      apply Permutation_length in HP. now rewrite length_map, length_seq in HP. }
    eexists. split; [apply reachable_one, step_return; assumption | reflexivity].
  - destruct (done s) as [|[i r] d2] eqn:Ed.
    + destruct (in_flight (workers s)) as [|i0 fl] eqn:Ew.
      * destruct (queue s) as [|i q] eqn:Eq.
        { apply (IH s); [unfold backlog; rewrite Eq, Ew, Ed; simpl; lia | | ];
            assumption. }
        (* a queued task is taken by an idle worker, spawned if there is none *)
        assert (exists s1 ws2,
                  reachable unquote env links max_workers path s s1
                  /\ phase s1 = Collecting /\ queue s1 = i :: q
                  /\ done s1 = [] /\ workers s1 = None :: ws2
                  /\ in_flight ws2 = []) as [s1 [ws2 [R1 [P1 [Q1 [D1 [W1 F1]]]]]]].
        { destruct (in_flight_idle _ Ew) as [Hnone | [ws2 Hws]].
          - eexists. exists []. split.
            + apply reachable_one. apply (step_spawn _ _ _ _ _ s O).
              * now right.
              * rewrite Hnone. simpl. lia.
            + cbn [phase queue done workers]. rewrite Hnone. auto.
          - exists s, ws2. split; [apply reach_here|].
            rewrite Hws in Ew. simpl in Ew. auto. }
        assert (S1 : download_links_step unquote env links max_workers path s1
                  {| phase := phase s1; dirs := dirs s1; queue := q;
                     workers := [] ++ Some i :: ws2;
                     locals := set_local i (AtLoop 0) (locals s1); done := done s1;
                     results := results s1; world := world s1 |}).
        { apply step_take; [exact W1 | exact Q1]. }
        match type of S1 with download_links_step _ _ _ _ _ _ ?s2 =>
          destruct (IH s2) as [s' [R' P']] end.
        { unfold backlog in *. cbn [queue workers done]. simpl in_flight.
          rewrite F1, D1. rewrite Eq, Ew, Ed in Hm. simpl in *. lia. }
        { eapply pool_inv_step; [|exact S1].
          eapply pool_inv_reachable; eassumption. }
        { exact P1. }
        exists s'. split; [|exact P'].
        eapply reachable_trans; [exact R1|].
        eapply reachable_trans; [apply reachable_one, S1 | exact R'].
      * (* a running task comes to its end *)
        destruct (in_flight_split (workers s)) as [ws1 [i [ws2 Hws]]];
          [rewrite Ew; discriminate|].
        destruct (task_ends s ws1 ws2 i Hinv) as [l' [r [w' R1]]];
          [rewrite Hp; discriminate | exact Hws |].
        match type of R1 with reachable _ _ _ _ _ _ ?s2 =>
          destruct (IH s2) as [s' [R' P']] end.
        { unfold backlog in *. cbn [queue workers done].
          rewrite Hws in Hm. rewrite in_flight_app in *. simpl in *.
          rewrite Ed in *. rewrite !length_app in *. simpl in *. lia. }
        { eapply pool_inv_reachable; [exact Hinv | exact R1]. }
        { exact Hp. }
        exists s'. split; [|exact P'].
        eapply reachable_trans; [exact R1 | exact R'].
    + (* a completed future is taken and its result printed *)
      assert (exists v, r = Return v) as [v ->].
      { destruct Hinv as [_ [_ [_ [I4 _]]]]. rewrite Ed in I4.
        inversion I4 as [|? ? Hf _]; subst. exact (future_returned _ _ Hf). }
      assert (S1 : download_links_step unquote env links max_workers path s
                {| phase := Collecting; dirs := dirs s; queue := queue s;
                   workers := workers s; locals := locals s; done := [] ++ d2;
                   results := results s ++ [(i, v)];
                   world := snd (print (str_of_result v) (world s)) |}).
      { apply step_result; [exact Hp | exact Ed]. }
      match type of S1 with download_links_step _ _ _ _ _ _ ?s2 =>
        destruct (IH s2) as [s' [R' P']] end.
      * unfold backlog in *. cbn [queue workers done]. rewrite Ed in Hm.
        simpl in *. lia.
      * eapply pool_inv_step; [exact Hinv | exact S1].
      * reflexivity.
      * exists s'. split; [|exact P'].
        eapply reachable_trans; [apply reachable_one, S1 | exact R'].
Qed.

Lemma collecting_ends (s : Pool) :
  inv s -> phase s = Collecting ->
  exists s', reachable unquote env links max_workers path s s' /\ phase s' = Finished.
Proof. apply (collecting_finishes (backlog s)). lia. Qed.

Lemma submitting_ends (k : nat) :
  forall s i, k = (List.length links - i)%nat -> inv s -> phase s = Submitting i ->
  exists s', reachable unquote env links max_workers path s s' /\ phase s' = Finished.
Proof.
  induction k as [|k IH]; intros s i Hk Hinv Hp.
  - assert (i = List.length links) as ->.
    { destruct Hinv as [_ [_ [I3 _]]]. rewrite Hp in I3. cbn [submitted] in I3. lia. }
    assert (S1 : download_links_step unquote env links max_workers path s
              {| phase := Collecting; dirs := dirs s; queue := queue s;
                 workers := workers s; locals := locals s; done := done s;
                 results := results s; world := world s |})
      by (apply step_submitted; exact Hp).
    match type of S1 with download_links_step _ _ _ _ _ _ ?s2 =>
      destruct (collecting_ends s2) as [s' [R' P']] end.
    + eapply pool_inv_step; [exact Hinv | exact S1].
    + reflexivity.
    + exists s'. split; [|exact P'].
      eapply reachable_trans; [apply reachable_one, S1 | exact R'].
  - assert (exists url, nth_error links i = Some url) as [url Hurl].
    { assert (i < List.length links)%nat as Hi by lia.
      apply nth_error_Some in Hi.
      destruct (nth_error links i) as [url|]; [now exists url | now elim Hi]. }
    assert (S1 : download_links_step unquote env links max_workers path s
              {| phase := Submitting (S i); dirs := dirs s; queue := queue s ++ [i];
                 workers := workers s; locals := locals s; done := done s;
                 results := results s; world := world s |})
      by (eapply step_submit; eassumption).
    match type of S1 with download_links_step _ _ _ _ _ _ ?s2 =>
      destruct (IH s2 (S i)) as [s' [R' P']] end.
    + lia.
    + eapply pool_inv_step; [exact Hinv | exact S1].
    + reflexivity.
    + exists s'. split; [|exact P'].
      eapply reachable_trans; [apply reachable_one, S1 | exact R'].
Qed.

Lemma madedirs_ends (s : Pool) :
  inv s -> phase s = MadeDirs ->
  exists s', reachable unquote env links max_workers path s s' /\ phase s' = Finished.
Proof.
  intros Hinv Hp.
  assert (S1 : download_links_step unquote env links max_workers path s
            {| phase := Submitting 0; dirs := dirs s; queue := queue s;
               workers := workers s; locals := locals s; done := done s;
               results := results s; world := world s |})
    by (apply step_executor; assumption).
  match type of S1 with download_links_step _ _ _ _ _ _ ?s2 =>
    destruct (submitting_ends (List.length links - 0) s2 0%nat) as [s' [R' P']] end.
  - reflexivity.
  - eapply pool_inv_step; [exact Hinv | exact S1].
  - reflexivity.
  - exists s'. split; [|exact P'].
    eapply reachable_trans; [apply reachable_one, S1 | exact R'].
Qed.

Lemma begin_ends (s : Pool) :
  inv s -> phase s = Begin ->
  exists s', reachable unquote env links max_workers path s s' /\ phase s' = Finished.
Proof.
  intros Hinv Hp.
  assert (S1 : download_links_step unquote env links max_workers path s
            {| phase := MadeDirs; dirs := path :: dirs s; queue := queue s;
               workers := workers s; locals := locals s; done := done s;
               results := results s; world := world s |})
    by (apply step_makedirs; assumption).
  match type of S1 with download_links_step _ _ _ _ _ _ ?s2 =>
    destruct (madedirs_ends s2) as [s' [R' P']] end.
  - eapply pool_inv_step; [exact Hinv | exact S1].
  - reflexivity.
  - exists s'. split; [|exact P'].
    eapply reachable_trans; [apply reachable_one, S1 | exact R'].
Qed.

(** From every state that has not raised, the run can be carried on to
    the return of [download_links]. *)
Lemma run_ends (s : Pool) :
  inv s -> (forall e, phase s <> Aborted e) ->
  exists s', reachable unquote env links max_workers path s s' /\ phase s' = Finished.
Proof.
  intros Hinv Hs. destruct (phase s) as [| |i| | |e] eqn:Hp.
  - now apply begin_ends.
  - now apply madedirs_ends.
  - now apply (submitting_ends (List.length links - i) s i).
  - now apply collecting_ends.
  - exists s. split; [apply reach_here | exact Hp].
  - now elim (Hs e).
Qed.

End CoordinatorFacts.



(** * Further properties of the script *)

(** ** Stripped texts *)

Lemma lstrip_head (s : string) :
  Py.lstrip s = EmptyString
  \/ exists c t, Py.lstrip s = String c t /\ Py.isspace c = false.
Proof.
  induction s as [|c s IH]; [now left|]. simpl.
  destruct (Py.isspace c) eqn:Hc; [exact IH|]. right. now exists c, s.
Qed.

Lemma rstrip_idempotent (s : string) : Py.rstrip (Py.rstrip s) = Py.rstrip s.
Proof.
  induction s as [|c s IH]; [reflexivity|]. simpl.
  destruct (Py.rstrip s) as [|d u] eqn:Hr.
  - destruct (Py.isspace c) eqn:Hc; [reflexivity|]. simpl. now rewrite Hc.
  - change (Py.rstrip (String c (String d u)))
      with (match Py.rstrip (String d u) with
            | EmptyString => if Py.isspace c then EmptyString else String c EmptyString
            | t' => String c t'
            end).
    now rewrite IH.
Qed.

Lemma rstrip_line_end (s : string) : Py.rstrip (s ++ nl) = Py.rstrip s.
Proof.
  induction s as [|c s IH]; [reflexivity|]. simpl. now rewrite IH.
Qed.

(** What [strip] returns: nothing, or a text that begins with a character
    that is no white space and that [rstrip] leaves as it is. *)
Lemma strip_shape (s : string) :
  Py.strip s = EmptyString
  \/ exists c t, Py.strip s = String c t /\ Py.isspace c = false
                 /\ Py.rstrip (String c t) = String c t.
Proof.
  unfold Py.strip. destruct (lstrip_head s) as [->|[c [t [-> Hc]]]]; [now left|].
  right. destruct (rstrip_head c t Hc) as [t' Ht]. exists c, t'.
  split; [exact Ht|]. split; [exact Hc|]. rewrite <- Ht. apply rstrip_idempotent.
Qed.

Lemma strip_idempotent (s : string) : Py.strip (Py.strip s) = Py.strip s.
Proof.
  destruct (strip_shape s) as [->|[c [t [-> [Hc Hr]]]]]; [reflexivity|].
  unfold Py.strip. simpl Py.lstrip. rewrite Hc. exact Hr.
Qed.

(** A stripped text written as a line is read back by [strip]. *)
Lemma strip_of_stripped_line (s : string) : Py.strip (Py.strip s ++ nl) = Py.strip s.
Proof.
  destruct (strip_shape s) as [->|[c [t [-> [Hc Hr]]]]]; [reflexivity|].
  unfold Py.strip. simpl Py.lstrip. rewrite Hc.
  change (String c (t ++ nl)) with (String c t ++ nl).
  now rewrite rstrip_line_end.
Qed.

Lemma lines_text_cons (line_end l : string) (ls : list string) :
  lines_text line_end (l :: ls) = l ++ line_end ++ lines_text line_end ls.
Proof. unfold lines_text. simpl. now rewrite append_assoc. Qed.

(** The lines of a text written line by line, with LF or with CR LF. *)
Lemma iter_lines_text (ls : list string) :
  Forall (fun l => one_line l = true) ls ->
  TextFile.iter_lines (lines_text nl ls) = map (fun l => l ++ nl) ls.
Proof.
  intros H. unfold lines_text.
  rewrite <- (append_nil_r (fold_right _ _ _)).
  rewrite iter_lines_lines by exact H. apply app_nil_r.
Qed.

Lemma universal_newlines_line (s rest : string) :
  one_line s = true ->
  TextFile.universal_newlines (s ++ String CR nl ++ rest)
  = s ++ nl ++ TextFile.universal_newlines rest.
Proof.
  induction s as [|c s IH]; intros H; [reflexivity|].
  apply one_line_inv in H. destruct H as [_ [Hcr Hs]].
  change ((String c s) ++ String CR nl ++ rest)
    with (String c (s ++ String CR nl ++ rest)).
  cbn [TextFile.universal_newlines]. rewrite Hcr. now rewrite (IH Hs).
Qed.

Lemma lines_keepends_line (s rest : string) :
  one_line s = true ->
  TextFile.lines_keepends (s ++ nl ++ rest) = (s ++ nl) :: TextFile.lines_keepends rest.
Proof.
  induction s as [|c s IH]; intros H; [reflexivity|].
  apply one_line_inv in H. destruct H as [Hlf [_ Hs]].
  simpl. rewrite Hlf. simpl in IH. now rewrite (IH Hs).
Qed.

Lemma iter_lines_line_crlf (s rest : string) :
  one_line s = true ->
  TextFile.iter_lines (s ++ String CR nl ++ rest)
  = (s ++ nl) :: TextFile.iter_lines rest.
Proof.
  intros H. unfold TextFile.iter_lines.
  rewrite universal_newlines_line by exact H. now apply lines_keepends_line.
Qed.

Lemma iter_lines_text_crlf (ls : list string) :
  Forall (fun l => one_line l = true) ls ->
  TextFile.iter_lines (lines_text (String CR nl) ls) = map (fun l => l ++ nl) ls.
Proof.
  induction 1 as [|l ls Hl Hls IH]; [reflexivity|].
  rewrite lines_text_cons, iter_lines_line_crlf by exact Hl. simpl. now rewrite IH.
Qed.

(** ** Keyword and link files *)

Lemma strip_line_end (l : string) : Py.strip (l ++ nl) = Py.strip l.
Proof.
  unfold Py.strip. induction l as [|c l IH]; [reflexivity|].
  simpl. destruct (Py.isspace c); [exact IH|].
  change (String c (l ++ nl)) with (String c l ++ nl). apply rstrip_line_end.
Qed.

Lemma iter_lines_are_lines (contents : string) :
  Forall is_line (TextFile.iter_lines contents).
Proof. apply lines_keepends_lines, universal_newlines_no_CR. Qed.

(** What [strip] makes of a line of a file: free of line ends, and left as
    it is by a further [strip]. *)
Lemma stripped_line_clean (contents line : string) :
  In line (TextFile.iter_lines contents) ->
  one_line (Py.strip line) = true /\ Py.strip (Py.strip line) = Py.strip line.
Proof.
  intros Hin. split; [|apply strip_idempotent].
  apply strip_is_one_line.
  pose proof (iter_lines_are_lines contents) as H. rewrite Forall_forall in H.
  now apply H.
Qed.

(** X1. Every keyword that [read_keywords] returns is not empty, holds no
    line end, and has no white space at either end. *)
Theorem read_keywords_clean (fs : Files) (keyword_file : string) (keywords : list string) :
  read_keywords fs keyword_file = inr keywords ->
  Forall (fun keyword => keyword <> EmptyString /\ one_line keyword = true
                         /\ Py.strip keyword = keyword) keywords.
Proof.
  unfold read_keywords. destruct (fs keyword_file) as [contents|]; [|discriminate].
  intros H. inversion H; subst keywords. clear H.
  apply Forall_forall. intros keyword Hin. apply in_map_iff in Hin.
  destruct Hin as [line [<- Hline]]. apply filter_In in Hline.
  destruct Hline as [Hline Hne].
  destruct (stripped_line_clean contents line Hline) as [H1 H2].
  split; [|split; assumption].
  apply negb_true_iff, String.eqb_neq in Hne. exact Hne.
Qed.

Lemma read_keywords_clean_witness :
  Forall (fun keyword => keyword <> EmptyString /\ one_line keyword = true
                         /\ Py.strip keyword = keyword) ["mario"; "zelda"].
Proof.
  apply (read_keywords_clean SampleFiles.fs "keywords.txt"). reflexivity.
Defined.

Lemma filter_map_strip (keep : string -> bool) (ls : list string) :
  map Py.strip (filter (fun line => keep (Py.strip line)) (map (fun l => l ++ nl) ls))
  = filter keep (map Py.strip ls).
Proof.
  induction ls as [|l ls IH]; [reflexivity|]. simpl.
  rewrite strip_line_end. destruct (keep (Py.strip l)); simpl;
    [rewrite strip_line_end|]; now rewrite IH.
Qed.

(** X2. A keyword file written line by line, with LF or with CR LF line
    ends, gives its lines stripped, the lines that strip to nothing left
    out, in order. *)
Theorem read_keywords_lines (fs : Files) (keyword_file : string) (ls : list string) :
  Forall (fun l => one_line l = true) ls ->
  read_keywords (store fs keyword_file (lines_text nl ls)) keyword_file
  = inr (filter (fun k => negb (String.eqb k EmptyString)) (map Py.strip ls))
  /\ read_keywords (store fs keyword_file (lines_text (String CR nl) ls)) keyword_file
     = inr (filter (fun k => negb (String.eqb k EmptyString)) (map Py.strip ls)).
Proof.
  intros H. unfold read_keywords. rewrite !store_same.
  rewrite iter_lines_text, iter_lines_text_crlf by exact H.
  rewrite (filter_map_strip (fun k => negb (String.eqb k EmptyString))). now split.
Qed.

Lemma read_keywords_lines_witness :
  read_keywords (store (fun _ => None) "k.txt"
                   (lines_text (String CR nl) [" mario "; ""; "zelda"])) "k.txt"
  = inr ["mario"; "zelda"].
Proof.
  apply (read_keywords_lines (fun _ => None) "k.txt" [" mario "; ""; "zelda"]).
  repeat constructor.
Defined.

(** X3. Every link that [read_links] returns begins with http:// or
    https://, holds no line end, and has no white space at either end. *)
Theorem read_links_clean (fs : Files) (link_file : string) (links : list string) :
  read_links fs link_file = inr links ->
  Forall (fun h => match_http h = true /\ one_line h = true /\ Py.strip h = h) links.
Proof.
  unfold read_links, ingest. destruct (fs link_file) as [contents|]; [|discriminate].
  intros H. inversion H; subst links. clear H.
  apply Forall_forall. intros h Hin. apply in_map_iff in Hin.
  destruct Hin as [line [<- Hline]]. apply filter_In in Hline.
  destruct Hline as [Hline Hm].
  destruct (stripped_line_clean contents line Hline) as [H1 H2]. auto.
Qed.

Lemma read_links_clean_witness :
  Forall (fun h => match_http h = true /\ one_line h = true /\ Py.strip h = h)
    ["http://h/mario1.zip"].
Proof. apply (read_links_clean SampleFiles.fs "links.txt"). reflexivity. Defined.

(** X5. A link file written line by line, with LF or with CR LF line ends,
    gives its lines stripped, those that do not then begin with http:// or
    https:// left out, in order. *)
Theorem read_links_lines (fs : Files) (link_file : string) (ls : list string) :
  Forall (fun l => one_line l = true) ls ->
  read_links (store fs link_file (lines_text nl ls)) link_file
  = inr (filter match_http (map Py.strip ls))
  /\ read_links (store fs link_file (lines_text (String CR nl) ls)) link_file
     = inr (filter match_http (map Py.strip ls)).
Proof.
  intros H. unfold read_links, ingest. rewrite !store_same.
  rewrite iter_lines_text, iter_lines_text_crlf by exact H.
  rewrite (filter_map_strip match_http). now split.
Qed.

Lemma read_links_lines_witness :
  read_links (store (fun _ => None) "l.txt"
                (lines_text nl ["--- mario ---"; "  https://h/a b.zip "; "ftp://h/c"; ""]))
    "l.txt"
  = inr ["https://h/a b.zip"].
Proof.
  destruct (read_links_lines (fun _ => None) "l.txt"
              ["--- mario ---"; "  https://h/a b.zip "; "ftp://h/c"; ""]) as [H _].
  - repeat (apply Forall_cons; [vm_compute; reflexivity|]). apply Forall_nil.
  - rewrite H. vm_compute. reflexivity.
Defined.

Lemma filter_map_fixed (links : list string) :
  Forall (fun h => match_http h = true /\ Py.strip h = h) links ->
  filter match_http (map Py.strip links) = links.
Proof.
  induction 1 as [|h links [Hm Hs] Hl IH]; [reflexivity|].
  simpl. rewrite Hs, Hm. now rewrite IH.
Qed.

(** X4. What [read_links] returns is stable: written to a file one link
    per line and read again, the same list comes back. *)
Theorem read_links_reread (fs : Files) (link_file again : string) (links : list string) :
  read_links fs link_file = inr links ->
  read_links (store fs again (lines_text nl links)) again = inr links.
Proof.
  intros Hread.
  assert (Hall : Forall (fun h => match_http h = true /\ one_line h = true
                                  /\ Py.strip h = h) links).
  { revert Hread. unfold read_links, ingest.
    destruct (fs link_file) as [contents|]; [|discriminate].
    intros H. inversion H; subst links. clear H.
    apply Forall_forall. intros h Hin. apply in_map_iff in Hin.
    destruct Hin as [line [<- Hline]]. apply filter_In in Hline.
    destruct Hline as [Hline Hm].
    destruct (stripped_line_clean contents line Hline) as [H1 H2]. auto. }
  unfold read_links, ingest. rewrite store_same.
  rewrite iter_lines_text by (eapply Forall_impl; [|exact Hall]; simpl; tauto).
  rewrite (filter_map_strip match_http). f_equal. apply filter_map_fixed.
  eapply Forall_impl; [|exact Hall]. simpl. tauto.
Qed.

Lemma read_links_reread_witness :
  read_links (store SampleFiles.fs "again.txt" (lines_text nl ["http://h/mario1.zip"]))
    "again.txt"
  = inr ["http://h/mario1.zip"].
Proof.
  apply (read_links_reread SampleFiles.fs "links.txt" "again.txt").
  vm_compute. reflexivity.
Defined.

(** ** More on [fuzzy_match] *)

Lemma slice_to_nil {A} (stop : option Z) : Py.slice_to stop (@nil A) = [].
Proof.
  destruct stop as [k|]; simpl; [|reflexivity].
  destruct (0 <=? k); apply firstn_nil.
Qed.

Lemma matches_nil_iff partial_ratio lower (links : list Link) (keyword : string) :
  matches partial_ratio lower links keyword = []
  <-> forall link, In link links -> link_score partial_ratio lower keyword link <= 0.
Proof.
  unfold matches, all_scored. induction links as [|l links IH]; simpl.
  - split; [intros _ link [] | reflexivity].
  - destruct (Z.ltb_spec 0 (link_score partial_ratio lower keyword l)) as [Hl|Hl]; simpl.
    + split; [discriminate|]. intros H. specialize (H l (or_introl eq_refl)). lia.
    + rewrite IH. split.
      * intros H link [<-|Hin]; [exact Hl | now apply H].
      * intros H link Hin. apply H. now right.
Qed.

(** X6. [fuzzy_match] without cut-off returns nothing exactly when no link
    scores above 0 (an empty list of links among the cases), and then it
    returns nothing for every cut-off. *)
Theorem fuzzy_match_nothing
    (partial_ratio : string -> string -> Z) (lower : string -> string)
    (links : list Link) (keyword : string) :
  (fuzzy_match partial_ratio lower links keyword None = []
   <-> forall link, In link links -> link_score partial_ratio lower keyword link <= 0)
  /\ ((forall link, In link links -> link_score partial_ratio lower keyword link <= 0) ->
      forall topn, fuzzy_match partial_ratio lower links keyword topn = []).
Proof.
  assert (Hnil : matches partial_ratio lower links keyword = [] ->
                 forall topn, fuzzy_match partial_ratio lower links keyword topn = []).
  { intros Hm topn. unfold fuzzy_match, ranked_links.
    rewrite scored_links_matches, Hm. simpl. now rewrite slice_to_nil. }
  split.
  - rewrite <- matches_nil_iff. split.
    + intros H. apply length_zero_iff_nil.
      rewrite <- fuzzy_match_all_length, H. reflexivity.
    + intros H. now apply Hnil.
  - intros H. apply Hnil. now apply matches_nil_iff.
Qed.

(** The head of a list sorted by [sort_reverse] is its first element of
    greatest key. *)
Lemma sort_reverse_head {A} (key : A -> Z) (l : list A) (x : A) (rest : list A) :
  Py.sort_reverse key l = x :: rest ->
  exists pre post, l = (pre ++ x :: post)%list
    /\ (forall a, In a pre -> key a < key x)
    /\ (forall a, In a post -> key a <= key x).
Proof.
  revert x rest. induction l as [|a t IH]; intros x rest H; [discriminate H|].
  simpl in H. destruct (Py.sort_reverse key t) as [|y r] eqn:Hs.
  - assert (t = []) as ->.
    { apply Permutation_nil. rewrite <- Hs. apply sort_reverse_perm. }
    simpl in H. inversion H; subst. exists [], []. repeat split; intros b [].
  - destruct (IH y r eq_refl) as [pre [post [Ht [Hpre Hpost]]]].
    simpl in H. destruct (Z.ltb_spec (key a) (key y)) as [Hlt|Hge].
    + inversion H; subst x rest. exists (a :: pre), post. subst t.
      split; [reflexivity|]. split; [|exact Hpost].
      intros b [<-|Hb]; [exact Hlt | now apply Hpre].
    + inversion H; subst x rest. exists [], t. split; [reflexivity|].
      split; [intros b []|]. intros b Hb. subst t.
      apply in_app_or in Hb. destruct Hb as [Hb|[<-|Hb]].
      * specialize (Hpre b Hb). lia.
      * lia.
      * specialize (Hpost b Hb). lia.
Qed.

Lemma filter_map_split {A B} (f : A -> B) (keep : B -> bool) (l : list A)
    (pre post : list B) (x : B) :
  filter keep (map f l) = (pre ++ x :: post)%list ->
  exists lpre a lpost, l = (lpre ++ a :: lpost)%list /\ f a = x
    /\ filter keep (map f lpre) = pre /\ filter keep (map f lpost) = post.
Proof.
  revert pre. induction l as [|b l IH]; intros pre H.
  - destruct pre; discriminate H.
  - simpl in H. destruct (keep (f b)) eqn:Hk.
    + destruct pre as [|p pre]; simpl in H; inversion H; subst.
      * exists [], b, l. repeat split.
      * destruct (IH pre H2) as [lpre [a [lpost [-> [Ha [Hpre Hpost]]]]]].
        exists (b :: lpre), a, lpost. simpl. rewrite Hk, Hpre. auto.
    + destruct (IH pre H) as [lpre [a [lpost [-> [Ha [Hpre Hpost]]]]]].
      exists (b :: lpre), a, lpost. simpl. rewrite Hk, Hpre. auto.
Qed.

(** X7. The first href that [fuzzy_match] returns, for no cut-off or a
    cut-off of at least 1, is the href of the first link of the page among
    those of greatest score: every link before it scores less, and no link
    scores more. *)
Theorem fuzzy_match_best_first
    (partial_ratio : string -> string -> Z) (lower : string -> string)
    (links : list Link) (keyword : string) (topn : option Z)
    (h : string) (others : list string) :
  (topn = None \/ exists k, topn = Some k /\ 1 <= k) ->
  fuzzy_match partial_ratio lower links keyword topn = h :: others ->
  exists before best after,
    links = (before ++ best :: after)%list
    /\ href best = h
    /\ 0 < link_score partial_ratio lower keyword best
    /\ (forall link, In link before ->
          link_score partial_ratio lower keyword link
          < link_score partial_ratio lower keyword best)
    /\ (forall link, In link after ->
          link_score partial_ratio lower keyword link
          <= link_score partial_ratio lower keyword best).
Proof.
  intros Htop Hfm.
  assert (exists s rest, ranked_links partial_ratio lower links keyword = (s, h) :: rest)
    as [s [rest Hr]].
  { unfold fuzzy_match in Hfm.
    destruct (ranked_links partial_ratio lower links keyword) as [|[s h'] rest].
    - rewrite slice_to_nil in Hfm. discriminate Hfm.
    - exists s, rest. destruct Htop as [->|[k [-> Hk]]]; simpl in Hfm.
      + inversion Hfm. reflexivity.
      + assert ((0 <=? k) = true) as Hle by (apply Z.leb_le; lia).
        rewrite Hle in Hfm.
        destruct (Z.to_nat k) as [|n] eqn:En; [lia|].
        simpl in Hfm. inversion Hfm. reflexivity. }
  unfold ranked_links in Hr. rewrite scored_links_matches in Hr.
  destruct (sort_reverse_head fst _ _ _ Hr) as [pre [post [Hm [Hpre Hpost]]]].
  unfold matches, all_scored in Hm.
  destruct (filter_map_split _ _ _ _ _ _ Hm)
    as [before [best [after [Hl [Hbest [Hb Ha]]]]]].
  injection Hbest as Hs Hh.
  assert (Hpos : 0 < link_score partial_ratio lower keyword best).
  { assert (In (s, h) (filter (fun p => 0 <? fst p)
              (map (fun link => (link_score partial_ratio lower keyword link, href link))
                   links))) as Hin
      by (rewrite Hm; apply in_or_app; right; now left).
    apply filter_In in Hin. destruct Hin as [_ Hin]. apply Z.ltb_lt in Hin.
    simpl in Hin. lia. }
  exists before, best, after. split; [exact Hl|]. split; [exact Hh|].
  split; [exact Hpos|]. rewrite Hs. simpl in Hpre, Hpost. split.
  - intros link Hin.
    destruct (Z.ltb_spec 0 (link_score partial_ratio lower keyword link)) as [Hp|Hp];
      [|lia].
    apply (Hpre (link_score partial_ratio lower keyword link, href link)).
    rewrite <- Hb. apply filter_In. split.
    + now apply (in_map (fun l => (link_score partial_ratio lower keyword l, href l))).
    + now apply Z.ltb_lt.
  - intros link Hin.
    destruct (Z.ltb_spec 0 (link_score partial_ratio lower keyword link)) as [Hp|Hp];
      [|lia].
    apply (Hpost (link_score partial_ratio lower keyword link, href link)).
    rewrite <- Ha. apply filter_In. split.
    + now apply (in_map (fun l => (link_score partial_ratio lower keyword l, href l))).
    + now apply Z.ltb_lt.
Qed.

Lemma fuzzy_match_best_first_witness :
  exists before best after,
    Sample.links = (before ++ best :: after)%list
    /\ href best = "http://h/mario1.zip"
    /\ 0 < link_score Sample.exact_ratio Sample.lower "mario" best
    /\ (forall link, In link before ->
          link_score Sample.exact_ratio Sample.lower "mario" link
          < link_score Sample.exact_ratio Sample.lower "mario" best)
    /\ (forall link, In link after ->
          link_score Sample.exact_ratio Sample.lower "mario" link
          <= link_score Sample.exact_ratio Sample.lower "mario" best).
Proof.
  apply (fuzzy_match_best_first Sample.exact_ratio Sample.lower Sample.links "mario"
           (Some 1) "http://h/mario1.zip" []).
  - right. exists 1. split; [reflexivity | lia].
  - vm_compute. reflexivity.
Defined.

(** X8. Cut-offs nest: for [0 <= k1 <= k2] the result for [k1] is a prefix
    of the result for [k2]; a cut-off of 0 gives nothing; a cut-off that is
    not below the number of matches gives all of them. *)
Theorem fuzzy_match_cutoffs
    (partial_ratio : string -> string -> Z) (lower : string -> string)
    (links : list Link) (keyword : string) :
  (forall k1 k2, 0 <= k1 <= k2 ->
     Prefix (fuzzy_match partial_ratio lower links keyword (Some k1))
            (fuzzy_match partial_ratio lower links keyword (Some k2)))
  /\ fuzzy_match partial_ratio lower links keyword (Some 0) = []
  /\ (forall k,
        Z.of_nat (List.length (matches partial_ratio lower links keyword)) <= k ->
        fuzzy_match partial_ratio lower links keyword (Some k)
        = fuzzy_match partial_ratio lower links keyword None).
Proof.
  split; [|split].
  - intros k1 k2 [H1 H2]. unfold fuzzy_match. apply Prefix_map. simpl.
    assert ((0 <=? k1) = true) as -> by (apply Z.leb_le; lia).
    assert ((0 <=? k2) = true) as -> by (apply Z.leb_le; lia).
    replace (Z.to_nat k1) with (Nat.min (Z.to_nat k1) (Z.to_nat k2)) by lia.
    rewrite <- firstn_firstn. apply Prefix_firstn.
  - reflexivity.
  - intros k Hk. unfold fuzzy_match. f_equal. simpl.
    assert ((0 <=? k) = true) as -> by (apply Z.leb_le; lia).
    apply firstn_all2.
    rewrite (Permutation_length (ranked_links_perm partial_ratio lower links keyword)).
    lia.
Qed.

(** ** The ranking half of [main] *)

Lemma dict_set_keys {V : Type} (d : list (string * V)) (key : string) (value : V) :
  map fst (dict_set d key value)
  = if existsb (String.eqb key) (map fst d) then map fst d
    else (map fst d ++ [key])%list.
Proof.
  induction d as [|[k v] d IH]; [reflexivity|]. simpl.
  rewrite (String.eqb_sym key k). destruct (String.eqb k key); simpl; [reflexivity|].
  rewrite IH. now destruct (existsb (String.eqb key) (map fst d)).
Qed.

Lemma existsb_eqb_In (key : string) (l : list string) :
  existsb (String.eqb key) l = true <-> In key l.
Proof.
  rewrite existsb_exists. split.
  - intros [x [Hin Hx]]. apply String.eqb_eq in Hx. now subst.
  - intros Hin. exists key. split; [exact Hin | apply String.eqb_refl].
Qed.

Lemma first_occurrences_fold (keys seen : list string) :
  NoDup seen ->
  let result :=
    fold_left
      (fun seen key => if existsb (String.eqb key) seen then seen else (seen ++ [key])%list)
      keys seen in
  NoDup result /\ (forall k, In k result <-> In k seen \/ In k keys).
Proof.
  revert seen. induction keys as [|key keys IH]; intros seen Hnd; simpl.
  - split; [exact Hnd|]. intros k. tauto.
  - destruct (existsb (String.eqb key) seen) eqn:He.
    + destruct (IH seen Hnd) as [H1 H2]. split; [exact H1|].
      intros k. rewrite H2. apply existsb_eqb_In in He.
      split; [tauto|]. intros [H|[<-|H]]; tauto.
    + assert (~ In key seen) as Hnot.
      { intros Hin. apply existsb_eqb_In in Hin. congruence. }
      destruct (IH (seen ++ [key])%list) as [H1 H2].
      { apply NoDup_app; [exact Hnd | repeat constructor; intros [] |].
        intros x Hx [<-|[]]. contradiction. }
      split; [exact H1|]. intros k. rewrite H2, in_app_iff. simpl. tauto.
Qed.

(** X9. The mapping that [main] builds has one entry per distinct keyword,
    at the place of the keyword's first occurrence, and the entry of a
    keyword holds what [fuzzy_match] returns for it: a keyword listed twice
    gives one block of the report. *)
Theorem main_keyword_links_keys
    (partial_ratio : string -> string -> Z) (lower : string -> string)
    (links : list Link) (keywords : list string) (topn : option Z) :
  let keyword_links := main_keyword_links partial_ratio lower links keywords topn in
  map fst keyword_links = first_occurrences keywords
  /\ NoDup (map fst keyword_links)
  /\ (forall keyword, In keyword (map fst keyword_links) <-> In keyword keywords)
  /\ (forall keyword hrefs, In (keyword, hrefs) keyword_links ->
        hrefs = fuzzy_match partial_ratio lower links keyword topn).
Proof.
  intros keyword_links.
  assert (Hkeys : forall acc,
            map fst (fold_left
                       (fun d keyword =>
                          dict_set d keyword
                            (fuzzy_match partial_ratio lower links keyword topn))
                       keywords acc)
            = fold_left
                (fun seen key =>
                   if existsb (String.eqb key) seen then seen else (seen ++ [key])%list)
                keywords (map fst acc)).
  { induction keywords as [|keyword kws IH]; intros acc; [reflexivity|].
    simpl. rewrite IH, dict_set_keys. reflexivity. }
  assert (Hk : map fst keyword_links = first_occurrences keywords) by apply Hkeys.
  destruct (first_occurrences_fold keywords [] (NoDup_nil _)) as [Hnd Hin].
  fold (first_occurrences keywords) in Hnd, Hin.
  split; [exact Hk|]. rewrite Hk. split; [exact Hnd|]. split.
  - intros keyword. rewrite Hin. simpl. tauto.
  - assert (Hvals : forall kws acc,
              Forall (fun e => snd e = fuzzy_match partial_ratio lower links (fst e) topn)
                acc ->
              Forall (fun e => snd e = fuzzy_match partial_ratio lower links (fst e) topn)
                (fold_left
                   (fun d keyword =>
                      dict_set d keyword
                        (fuzzy_match partial_ratio lower links keyword topn))
                   kws acc)).
    { induction kws as [|keyword kws IH]; intros acc Hacc; [exact Hacc|].
      simpl. apply IH. apply dict_set_entries; [exact Hacc | reflexivity |].
      intros k v -> _. reflexivity. }
    intros keyword hrefs He.
    specialize (Hvals keywords [] (Forall_nil _)). rewrite Forall_forall in Hvals.
    exact (Hvals _ He).
Qed.

(** ** [main] *)

Lemma ingest_clean (contents : string) :
  Forall (fun h => match_http h = true /\ one_line h = true /\ Py.strip h = h)
    (ingest (TextFile.iter_lines contents)).
Proof.
  unfold ingest. apply Forall_forall. intros h Hin. apply in_map_iff in Hin.
  destruct Hin as [line [<- Hline]]. apply filter_In in Hline.
  destruct Hline as [Hline Hm].
  destruct (stripped_line_clean contents line Hline) as [H1 H2]. auto.
Qed.

Lemma truthy_nonempty (s : string) : s <> EmptyString -> truthy (Some s) = Some s.
Proof. destruct s; [intros H; now elim H | reflexivity]. Qed.

(** X10. Ranking and downloading in one run, with the report as the link
    file: when the keyword file is read, the page is fetched and every
    extracted href begins with http:// or https:// and holds no white
    space, [main] saves the report, prints one line, and hands to
    [download_links] exactly the hrefs of the report, block after block, with
    the [--concurrent] and [--path] given. *)
Theorem main_downloads_ranked
    (partial_ratio : string -> string -> Z) (lower : string -> string)
    (net : PageEnv) (extract_links : string -> string -> list Link)
    (args : Args) (fs : Files) (url keyword_file html_content : string)
    (keywords : list string) :
  truthy (args_url args) = Some url ->
  truthy (args_keywords args) = Some keyword_file ->
  read_keywords fs keyword_file = inr keywords ->
  fetch_page net url = Value html_content ->
  Forall (fun link => plain_url (href link) = true) (extract_links html_content url) ->
  args_download args = true ->
  args_linkfile args = Some (args_output args) ->
  args_output args <> EmptyString ->
  let keyword_links :=
    main_keyword_links partial_ratio lower (extract_links html_content url) keywords
      (args_topn args) in
  main partial_ratio lower net extract_links args fs
  = (store fs (args_output args) (report keyword_links),
     ["Links saved to " ++ args_output args],
     MainDownloads (List.concat (map snd keyword_links))
       (args_concurrent args) (args_path args)).
Proof.
  intros Hu Hk Hread Hpage Hlinks Hd Hl Hout keyword_links.
  unfold main. rewrite Hu, Hk, Hread, Hpage. cbv zeta. fold keyword_links.
  unfold save_links. rewrite save_links_contents_report.
  unfold main_download. rewrite Hd, Hl, (truthy_nonempty _ Hout).
  unfold read_links. rewrite store_same.
  pose proof (main_keyword_links_entries partial_ratio lower
                (extract_links html_content url) keywords (args_topn args)
                (read_keywords_one_line _ _ _ Hread) Hlinks) as Hall.
  fold keyword_links in Hall. rewrite Forall_forall in Hall.
  rewrite ingest_report; [reflexivity | |];
    apply Forall_forall; intros entry He; now apply Hall.
Qed.

Lemma main_downloads_ranked_witness :
  main Sample.exact_ratio Sample.lower SampleFiles.net SampleFiles.extract_links
    SampleFiles.args SampleFiles.fs
  = (store SampleFiles.fs "out.txt"
       (report (main_keyword_links Sample.exact_ratio Sample.lower Sample.links
                  ["mario"; "zelda"] None)),
     ["Links saved to out.txt"],
     MainDownloads
       (List.concat
          (map snd (main_keyword_links Sample.exact_ratio Sample.lower Sample.links
                      ["mario"; "zelda"] None)))
       2 "dl").
Proof.
  apply (main_downloads_ranked Sample.exact_ratio Sample.lower SampleFiles.net
           SampleFiles.extract_links SampleFiles.args SampleFiles.fs
           "http://h/" "keywords.txt" "<html>" ["mario"; "zelda"]);
    try reflexivity.
  - repeat constructor.
  - discriminate.
Defined.

(** X11. [main] writes no file but the report, and the report only when
    the ranking half gets through: either the files are as before and
    nothing was printed, or both [--url] and [--keywords] were given, the
    keyword file was read and the page fetched, and the output file holds
    the blocks of the mapping, whatever the download half then does. *)
Theorem main_files
    (partial_ratio : string -> string -> Z) (lower : string -> string)
    (net : PageEnv) (extract_links : string -> string -> list Link)
    (args : Args) (fs : Files) :
  let '(fs', printed, _) := main partial_ratio lower net extract_links args fs in
  (forall name, name <> args_output args -> fs' name = fs name)
  /\ ((fs' = fs /\ printed = [])
      \/ exists url keyword_file keywords html_content,
           truthy (args_url args) = Some url
           /\ truthy (args_keywords args) = Some keyword_file
           /\ read_keywords fs keyword_file = inr keywords
           /\ fetch_page net url = Value html_content
           /\ fs' (args_output args)
              = Some (report (main_keyword_links partial_ratio lower
                                (extract_links html_content url) keywords
                                (args_topn args)))
           /\ printed = ["Links saved to " ++ args_output args]).
Proof.
  unfold main.
  destruct (truthy (args_url args)) as [url|] eqn:Hu;
    [|split; [reflexivity | left; split; reflexivity]].
  destruct (truthy (args_keywords args)) as [keyword_file|] eqn:Hk;
    [|split; [reflexivity | left; split; reflexivity]].
  destruct (read_keywords fs keyword_file) as [msg|keywords] eqn:Hread;
    [split; [reflexivity | left; split; reflexivity]|].
  destruct (fetch_page net url) as [html_content|msg|e] eqn:Hpage;
    try (split; [reflexivity | left; split; reflexivity]).
  cbv zeta. unfold save_links. split.
  - intros name Hname. unfold store. apply String.eqb_neq in Hname. now rewrite Hname.
  - right. exists url, keyword_file, keywords, html_content.
    rewrite store_same, save_links_contents_report. repeat split; assumption.
Qed.

(** X12. [main] goes on to [download_links] only with [--download] set and
    a link file given, with the [--concurrent] and [--path] of the command
    line, and only with links read from that file: each begins with http://
    or https://, holds no line end and has no white space at either end. *)
Theorem main_downloads_only_urls
    (partial_ratio : string -> string -> Z) (lower : string -> string)
    (net : PageEnv) (extract_links : string -> string -> list Link)
    (args : Args) (fs fs' : Files) (printed links : list string)
    (max_workers : Z) (path : string) :
  main partial_ratio lower net extract_links args fs
  = (fs', printed, MainDownloads links max_workers path) ->
  args_download args = true
  /\ max_workers = args_concurrent args /\ path = args_path args
  /\ (exists link_file, truthy (args_linkfile args) = Some link_file
                        /\ read_links fs' link_file = inr links)
  /\ Forall (fun h => match_http h = true /\ one_line h = true /\ Py.strip h = h) links.
Proof.
  assert (Hd : forall files,
            main_download args files = MainDownloads links max_workers path ->
            args_download args = true
            /\ max_workers = args_concurrent args /\ path = args_path args
            /\ (exists link_file, truthy (args_linkfile args) = Some link_file
                                  /\ read_links files link_file = inr links)
            /\ Forall (fun h => match_http h = true /\ one_line h = true
                                /\ Py.strip h = h) links).
  { intros files. unfold main_download.
    destruct (args_download args); [|discriminate].
    destruct (truthy (args_linkfile args)) as [link_file|]; [|discriminate].
    destruct (read_links files link_file) as [msg|ls] eqn:Hr; [discriminate|].
    intros H. inversion H; subst. repeat split.
    - exists link_file. split; [reflexivity | exact Hr].
    - unfold read_links in Hr. destruct (files link_file) as [contents|]; [|discriminate].
      inversion Hr. apply ingest_clean. }
  unfold main.
  destruct (truthy (args_url args)) as [url|];
    [|intros H; inversion H; subst; now apply Hd].
  destruct (truthy (args_keywords args)) as [keyword_file|];
    [|intros H; inversion H; subst; now apply Hd].
  destruct (read_keywords fs keyword_file) as [msg|keywords]; [discriminate|].
  destruct (fetch_page net url) as [html_content|msg|e]; try discriminate.
  cbv zeta. unfold save_links. intros H. inversion H; subst. now apply Hd.
Qed.

Lemma main_downloads_only_urls_witness :
  Forall (fun h => match_http h = true /\ one_line h = true /\ Py.strip h = h)
    (List.concat
       (map snd (main_keyword_links Sample.exact_ratio Sample.lower Sample.links
                   ["mario"; "zelda"] None))).
Proof.
  apply (main_downloads_only_urls Sample.exact_ratio Sample.lower SampleFiles.net
           SampleFiles.extract_links SampleFiles.args SampleFiles.fs
           (store SampleFiles.fs "out.txt"
              (report (main_keyword_links Sample.exact_ratio Sample.lower Sample.links
                         ["mario"; "zelda"] None)))
           ["Links saved to out.txt"] _ 2 "dl").
  vm_compute. reflexivity.
Defined.

(** ** Every run of [download_link] *)

Section RunFacts.
Variable unquote : string -> string.
Variable env : Env.
Variables url path error_log : string.
Variable retries : Z.

(** How the loop runs from any turn on: [S j] attempts are made, the first
    [j] of them fail and are followed by a retry notice, and the last one
    decides the result.  [w_last] and [w_after] are the world before and
    after the last attempt. *)
Lemma retry_loop_run (fuel : nat) :
  forall (attempt : Z) (w : World),
  attempt < retries -> retries - attempt <= Z.of_nat fuel ->
  exists r w' (j : nat) w_last w_after res,
    retry_loop unquote env fuel url path retries error_log attempt w = (r, w')
    /\ attempt + Z.of_nat (S j) <= retries
    /\ requests_made w' = (requests_made w + S j)%nat
    /\ stdout w' = (stdout w ++ retry_notices url retries (attempt + 1) j)%list
    /\ attempt_once unquote env url path w_last = (res, w_after)
    /\ requests_made w_last = (requests_made w + j)%nat
    /\ disk w' = disk w_after /\ bars w' = bars w_after
    /\ ((exists msg, res = Return msg /\ r = Return (Some msg) /\ logs w' = logs w)
        \/ (exists e, res = Raise e /\ is_Exception e = true
              /\ attempt + Z.of_nat (S j) = retries
              /\ open_a env error_log = None
              /\ r = Return (Some ("Failed to download " ++ url ++ ": " ++ exn_str e))
              /\ logs w' = append_to (logs w) error_log (error_log_line url retries e))
        \/ (exists e, res = Raise e /\ is_Exception e = false /\ r = Raise e
              /\ logs w' = logs w)
        \/ (exists e e', res = Raise e /\ is_Exception e = true
              /\ attempt + Z.of_nat (S j) = retries
              /\ open_a env error_log = Some e' /\ r = Raise e'
              /\ logs w' = logs w)).
Proof.
  induction fuel as [|fuel IH]; intros attempt w Ha Hfuel; [lia|].
  destruct (attempt_once unquote env url path w) as [res w1] eqn:E1.
  destruct (attempt_once_frame _ _ _ _ _ _ _ E1) as [F1 [F2 [F3 F4]]].
  destruct res as [msg|e|]; [| |now elim F4].
  - rewrite (retry_loop_return unquote env url path error_log retries
               fuel attempt w w1 msg) by assumption.
    exists (Return (Some msg)), w1, O, w, w1, (Return msg).
    split; [reflexivity|]. split; [simpl; lia|]. split; [lia|].
    split; [simpl; now rewrite app_nil_r|]. split; [exact E1|].
    split; [lia|]. split; [reflexivity|]. split; [reflexivity|].
    left. exists msg. auto.
  - destruct (is_Exception e) eqn:He.
    + destruct (Z.eq_dec (attempt + 1) retries) as [Hlast|Hmore].
      * destruct (open_a env error_log) as [e'|] eqn:Hlog.
        -- rewrite (retry_loop_log_raises unquote env url path error_log retries
                      fuel attempt w w1 e e') by assumption.
           exists (Raise e'), w1, O, w, w1, (Raise e).
           split; [reflexivity|]. split; [simpl; lia|].
           split; [lia|]. split; [simpl; now rewrite app_nil_r|]. split; [exact E1|].
           split; [lia|]. split; [reflexivity|]. split; [reflexivity|].
           right; right; right. exists e, e'. repeat split; try assumption; lia.
        -- rewrite (retry_loop_give_up unquote env url path error_log retries
                      fuel attempt w w1 e) by assumption.
           eexists _, _, O, w, w1, (Raise e).
           split; [reflexivity|]. split; [simpl; lia|]. simpl.
           split; [lia|]. split; [now rewrite app_nil_r|]. split; [exact E1|].
           split; [lia|]. split; [reflexivity|]. split; [reflexivity|].
           right; left. exists e. rewrite F3. repeat split; try assumption; lia.
      * rewrite (retry_loop_again unquote env url path error_log retries
                   fuel attempt w w1 e) by (assumption || lia).
        destruct (IH (attempt + 1)
                     (snd (print (retry_notice url (attempt + 1) retries) w1)))
          as [r [w' [j [w_last [w_after [res [E [G0 [G1 [G2 [G3 [G4 [G5 [G6 G7]]]]]]]]]]]]]];
          [lia | lia |].
        simpl in G1, G2, G4, G7.
        exists r, w', (S j), w_last, w_after, res.
        split; [exact E|]. split; [lia|]. split; [lia|].
        split; [rewrite G2, F2; simpl; now rewrite <- app_assoc|].
        split; [exact G3|]. split; [lia|]. split; [exact G5|]. split; [exact G6|].
        rewrite F3 in G7.
        destruct G7 as [[msg [R1 [R2 R3]]]
                       | [[e' [R1 [R2 [R3 [R4 [R5 R6]]]]]]
                         | [[e' [R1 [R2 [R3 R4]]]]
                           | [e' [e2 [R1 [R2 [R3 [R4 [R5 R6]]]]]]]]]].
        -- left. exists msg. auto.
        -- right; left. exists e'. repeat split; try assumption; lia.
        -- right; right; left. exists e'. auto.
        -- right; right; right. exists e', e2. repeat split; try assumption; lia.
    + rewrite (retry_loop_propagate unquote env url path error_log retries
                 fuel attempt w w1 e) by assumption.
      exists (Raise e), w1, O, w, w1, (Raise e).
      split; [reflexivity|]. split; [simpl; lia|]. split; [lia|].
      split; [simpl; now rewrite app_nil_r|]. split; [exact E1|].
      split; [lia|]. split; [reflexivity|]. split; [reflexivity|].
      right; right; left. exists e. auto.
Qed.


End RunFacts.

(** X13. Whatever the network and the disk do, a call of [download_link]
    with [retries >= 1] makes between 1 and [retries] requests, prints the
    retry notices numbered 1, 2, ... for all but the last of them and nothing
    else, and ends in one of four ways: the message of a finished download,
    the error log untouched; the message of a download given up, after
    exactly [retries] requests, the error log opened and longer by the one
    line for the last exception; an exception outside [Exception], the error
    log untouched; or, after exactly [retries] requests, the exception raised
    when the error log is opened, the error log untouched. *)
Theorem download_link_run
    (unquote : string -> string) (env : Env) (url path error_log : string)
    (retries : Z) (w : World) :
  1 <= retries ->
  exists r w' (made : nat),
    download_link unquote env url path retries error_log w = (r, w')
    /\ (1 <= made)%nat /\ Z.of_nat made <= retries
    /\ requests_made w' = (requests_made w + made)%nat
    /\ stdout w' = (stdout w ++ retry_notices url retries 1 (made - 1))%list
    /\ ((exists v, r = Return v /\ Success url v /\ logs w' = logs w)
        \/ (exists e, r = Return (Some ("Failed to download " ++ url ++ ": " ++ exn_str e))
              /\ Z.of_nat made = retries
              /\ logs w' error_log
                 = logs w error_log ++ "Failed to download " ++ url ++ " after "
                   ++ Py.str_of_int retries ++ " attempts: " ++ exn_str e ++ nl
              /\ open_a env error_log = None
              /\ forall name, name <> error_log -> logs w' name = logs w name)
        \/ (exists e, r = Raise e /\ is_Exception e = false /\ logs w' = logs w)
        \/ (exists e, r = Raise e /\ open_a env error_log = Some e
              /\ Z.of_nat made = retries /\ logs w' = logs w)).
Proof.
  intros Hr. unfold download_link.
  destruct (retry_loop_run unquote env url path error_log retries
              (Z.to_nat retries) 0 w)
    as [r [w' [j [w_last [w_after [res [E [G0 [G1 [G2 [G3 [_ [_ [_ G7]]]]]]]]]]]]]];
    [lia | lia |].
  exists r, w', (S j). split; [exact E|]. split; [lia|]. split; [lia|].
  split; [exact G1|]. split; [now replace (S j - 1)%nat with j by lia|].
  destruct G7 as [[msg [R1 [R2 R3]]]
                 | [[e [R1 [R2 [R3 [Rlog [R4 R5]]]]]]
                   | [[e [R1 [R2 [R3 R4]]]]
                     | [e [e' [R1 [R2 [R3 [Rlog [R4 R5]]]]]]]]]].
  - left. subst r res. exists (Some msg). split; [reflexivity|]. split; [|exact R3].
    apply attempt_once_return in G3. destruct G3 as [resp [total [_ [_ [-> _]]]]].
    eexists. reflexivity.
  - right; left. exists e. split; [exact R4|]. split; [lia|]. rewrite R5.
    split; [apply append_to_same|]. split; [exact Rlog|].
    intros name Hname. now apply append_to_other.
  - right; right; left. exists e. auto.
  - right; right; right. exists e'. repeat split; try assumption; lia.
Qed.

Lemma download_link_run_witness :
  exists r w' (made : nat),
    download_link Sample.unquote Sample.env_flaky "http://h/f.zip" "." 2
      "error_log.txt" Sample.w0 = (r, w')
    /\ (1 <= made)%nat /\ Z.of_nat made <= 2
    /\ requests_made w' = (0 + made)%nat.
Proof.
  destruct (download_link_run Sample.unquote Sample.env_flaky "http://h/f.zip" "."
              "error_log.txt" 2 Sample.w0) as [r [w' [made [E [H1 [H2 [H3 _]]]]]]];
    [lia|].
  exists r, w', made. auto.
Defined.



(** ** Where the file goes *)

(** X15. Where the file is written.  A name taken from the URL holds no
    slash, so the file is an entry of the destination directory itself: the
    base name of its path is that name.  A name taken from the header is
    used as it stands: when it begins with a slash it replaces the
    destination directory altogether. *)
Theorem local_filename_placement (url path : string) (resp : Response) :
  let url_name := Py.split_last "/"%char url in
  ((content_disposition resp = None
    \/ exists header, content_disposition resp = Some header
                      /\ Re.findall_filename header = []) ->
   local_filename_of url path resp = OsPath.join path url_name
   /\ existsb (Ascii.eqb "/"%char) (list_ascii_of_string url_name) = false
   /\ OsPath.basename (local_filename_of url path resp) = url_name)
  /\ (forall header name others,
        content_disposition resp = Some header ->
        Re.findall_filename header = name :: others ->
        Py.startswith "/" name = true ->
        local_filename_of url path resp = name).
Proof.
  intros url_name. split.
  - intros H.
    assert (Hlf : local_filename_of url path resp = OsPath.join path url_name).
    { unfold local_filename_of.
      destruct H as [->|[header [-> Hm]]]; [reflexivity|].
      destruct header; [reflexivity | now rewrite Hm]. }
    split; [exact Hlf|]. split; [apply split_last_free|].
    rewrite Hlf, basename_join. apply split_last_whole, split_last_free.
  - intros header name others Hh Hm Hs. unfold local_filename_of. rewrite Hh.
    destruct header as [|c header]; [discriminate Hm|]. rewrite Hm.
    unfold OsPath.join. now rewrite Hs.
Qed.

Lemma local_filename_placement_witness :
  local_filename_of "http://h/dir/f.zip" "dl" Sample.reply = "dl/f.zip"
  /\ OsPath.basename (local_filename_of "http://h/dir/f.zip" "dl" Sample.reply) = "f.zip".
Proof.
  destruct (local_filename_placement "http://h/dir/f.zip" "dl" Sample.reply) as [H _].
  destruct H as [H1 [_ H3]]; [left; reflexivity|].
  split; [rewrite H1 | rewrite H3]; vm_compute; reflexivity.
Defined.

(** X16. The description of the progress bar does not depend on the
    destination directory: joining a directory in front of a name leaves
    the base name as it was. *)
Theorem display_name_any_directory
    (unquote : string -> string) (url path path' : string) (resp : Response) :
  display_name_of unquote (local_filename_of url path resp)
  = display_name_of unquote (local_filename_of url path' resp)
  /\ forall a b, OsPath.basename (OsPath.join a b) = OsPath.basename b.
Proof.
  split; [|apply basename_join].
  assert (H : exists name, forall p, local_filename_of url p resp = OsPath.join p name).
  { unfold local_filename_of.
    destruct (content_disposition resp) as [[|c header]|];
      try (eexists; reflexivity).
    destruct (Re.findall_filename (String c header)); eexists; reflexivity. }
  destruct H as [name Hn]. unfold display_name_of.
  now rewrite !Hn, !basename_join.
Qed.

(** *** A header of the usual form *)

(** X17. A Content-Disposition header of the usual form, some text without
    the letter f, then [filename=] and the name in double quotes, then text
    without a double quote: the pattern finds that name and nothing else,
    when the name is not empty and holds neither a double quote nor a line
    feed, and the file is written under the destination directory joined
    with it. *)
Theorem findall_filename_usual
    (pre name post url path : string) (resp : Response) :
  free_of (Ascii.eqb "f"%char) pre = true ->
  name <> EmptyString ->
  free_of (fun c => Ascii.eqb QUOTE c || Ascii.eqb LF c) name = true ->
  free_of (Ascii.eqb QUOTE) post = true ->
  let header :=
    pre ++ ("filename=" ++ String QUOTE EmptyString) ++ name ++ String QUOTE post in
  Re.findall_filename header = [name]
  /\ (content_disposition resp = Some header ->
      local_filename_of url path resp = OsPath.join path name).
Proof.
  intros Hpre Hne Hname Hpost header.
  assert (Hfind : Re.findall_filename header = [name])
    by (now apply findall_filename_header).
  split; [exact Hfind|].
  intros Hh. unfold local_filename_of. rewrite Hh.
  destruct header as [|c h] eqn:Eh; [discriminate Hfind|]. now rewrite Hfind.
Qed.

Lemma findall_filename_usual_witness :
  Re.findall_filename
    ("attachment; " ++ ("filename=" ++ String QUOTE EmptyString) ++ "a b.zip"
     ++ String QUOTE "; size=5")
  = ["a b.zip"].
Proof.
  apply (findall_filename_usual "attachment; " "a b.zip" "; size=5" "" "" Sample.reply);
    try reflexivity.
  discriminate.
Defined.

(** ** The requests of a batch *)

Lemma Subseq_nil_l {A} (l : list A) : Subseq [] l.
Proof. induction l; constructor; assumption. Qed.

Lemma Subseq_app_r {A} (l1 l2 more : list A) :
  Subseq l1 l2 -> Subseq l1 (l2 ++ more)%list.
Proof.
  induction 1; simpl; [apply Subseq_nil_l | now apply Subseq_skip | now apply Subseq_keep].
Qed.

Lemma Subseq_snoc {A} (l1 l2 : list A) (a : A) :
  Subseq l1 l2 -> Subseq (l1 ++ [a])%list (l2 ++ [a])%list.
Proof.
  induction 1; simpl;
    [apply Subseq_keep, Subseq_nil | now apply Subseq_skip | now apply Subseq_keep].
Qed.

(** The count of a task that is not in the list does not matter. *)
Lemma requests_set_local (l : list nat) (i : nat) (st : Stage) (f : nat -> Stage) :
  ~ In i l ->
  list_sum (map (fun j => requests_of (set_local i st f j)) l)
  = list_sum (map (fun j => requests_of (f j)) l).
Proof.
  induction l as [|j l IH]; intros Hi; [reflexivity|]. simpl.
  rewrite set_local_other by (intros ->; apply Hi; now left).
  rewrite IH; [reflexivity|]. intros H. apply Hi. now right.
Qed.

(** The requests of the running tasks, the one of worker [i] apart. *)
Lemma running_requests_at (ws1 ws2 : list (option nat)) (i : nat) (f : nat -> Stage) :
  list_sum (map (fun j => requests_of (f j)) (in_flight (ws1 ++ Some i :: ws2)))
  = (list_sum (map (fun j => requests_of (f j)) (in_flight (ws1 ++ None :: ws2)))
     + requests_of (f i))%nat.
Proof.
  rewrite !in_flight_app. simpl. rewrite !map_app, !list_sum_app. simpl. lia.
Qed.

Lemma running_requests_set (ws1 ws2 : list (option nat)) (i : nat) (st : Stage)
    (f : nat -> Stage) (q : list nat) :
  NoDup (q ++ in_flight (ws1 ++ Some i :: ws2)) ->
  list_sum (map (fun j => requests_of (set_local i st f j))
              (in_flight (ws1 ++ Some i :: ws2)))
  = (list_sum (map (fun j => requests_of (f j)) (in_flight (ws1 ++ None :: ws2)))
     + requests_of st)%nat.
Proof.
  intros Hnd. rewrite running_requests_at, set_local_same.
  rewrite requests_set_local; [reflexivity|].
  rewrite in_flight_app in *. simpl in *. rewrite app_assoc in Hnd.
  apply NoDup_remove_2 in Hnd. intros H. apply Hnd.
  apply in_or_app. apply in_app_or in H.
  destruct H as [H|H]; [left; apply in_or_app; now right | now right].
Qed.

Lemma NoDup_task_ends (q : list nat) (ws1 ws2 : list (option nat)) (i : nat) :
  NoDup (q ++ in_flight (ws1 ++ Some i :: ws2)) ->
  NoDup (q ++ in_flight (ws1 ++ None :: ws2)).
Proof.
  rewrite !in_flight_app. simpl. rewrite !app_assoc. apply NoDup_remove_1.
Qed.

Section TallyFacts.
Variable unquote : string -> string.
Variable env : Env.
Variable links : list string.
Variable max_workers : Z.
Variable path : string.
Variable w0 : World.

Lemma pool_tally_step (s s' : Pool) :
  pool_inv env links max_workers path s -> pool_tally w0 s ->
  download_links_step unquote env links max_workers path s s' ->
  pool_tally w0 s'.
Proof.
  unfold pool_tally, running_requests, ended_tasks, printed_results.
  intros [_ [_ [I3 [_ [_ [_ I7]]]]]] [T0 [T1 [T2 T3]]] Hstep.
  destruct Hstep as
    [ s Hp Hm | s e Hp Hm | s Hp Hc | s Hp Hc | s i url Hp Hi | s Hp | s i Hp Hw
    | s ws1 ws2 i q Hw Hq
    | s ws1 ws2 i url attempt Hw Hi Hl Ha
    | s ws1 ws2 i attempt Hw Hl Ha
    | s ws1 ws2 i url attempt answer attempt' w' Hw Hi Hl Hrun
    | s ws1 ws2 i url attempt answer v w' Hw Hi Hl Hrun
    | s ws1 ws2 i url attempt answer e w' Hw Hi Hl Hrun
    | s d1 d2 i v Hp Hd | s d1 d2 i e Hp Hd | s Hp Hlen ];
    cbn [phase queue workers locals done results world raised_tasks];
    try (rewrite Hp in T2; cbn [raised_tasks] in T2).
  - auto.
  - split; [exact T0|]. split; [exact T1|]. split; [lia | exact T3].
  - auto.
  - split; [exact T0|]. split; [exact T1|]. split; [lia | exact T3].
  - (* submit: the link was not handed over before *)
    split; [|auto].
    rewrite Hp in I3. cbn [submitted] in I3. destruct I3 as [_ I3].
    specialize (I3 i). rewrite Nat.ltb_irrefl in I3. unfold dispatched in I3.
    rewrite !occ_app in I3.
    assert (~ In i (queue s ++ in_flight (workers s))) as Hnot.
    { intros H. apply in_app_or in H.
      destruct H as [H|H]; apply (count_occ_In Nat.eq_dec) in H; unfold occ in I3; lia. }
    apply (Permutation_NoDup (l := i :: queue s ++ in_flight (workers s))).
    + rewrite <- app_assoc. apply Permutation_middle.
    + now constructor.
  - auto.
  - (* spawn *)
    rewrite in_flight_app. simpl. rewrite app_nil_r. auto.
  - (* take *)
    rewrite Hw, Hq in T0. rewrite Hw in T1, T2.
    assert (Hnd : NoDup (q ++ in_flight (ws1 ++ Some i :: ws2))).
    { rewrite in_flight_app in *. simpl.
      apply (Permutation_NoDup (l := i :: q ++ in_flight ws1 ++ in_flight ws2));
        [|exact T0].
      rewrite app_assoc. rewrite (app_assoc q). apply Permutation_middle. }
    split; [exact Hnd|].
    rewrite (running_requests_set ws1 ws2 i (AtLoop 0) (locals s) q Hnd).
    simpl requests_of. change (Z.to_nat 0) with 0%nat. rewrite Nat.add_0_r. auto.
  - (* the GET *)
    rewrite Hw in T0 |- *. split; [exact T0|].
    rewrite (running_requests_set ws1 ws2 i _ (locals s) (queue s) T0).
    rewrite Hw, running_requests_at, Hl in T1, T2. simpl requests_of in *.
    destruct (requests_get_frame env url (world s)) as [F1 [F2 _]].
    rewrite F1, F2. split; [lia|]. split; [lia | exact T3].
  - (* the loop is left: not with a count below 3 *)
    assert (Hin : In i (in_flight (workers s)))
      by (rewrite Hw; apply in_flight_running).
    specialize (I7 i Hin). rewrite Hl in I7. simpl in I7. lia.
  - (* the next turn *)
    assert (Hin : In i (in_flight (workers s)))
      by (rewrite Hw; apply in_flight_running).
    specialize (I7 i Hin). rewrite Hl in I7. destruct I7 as [Hrange Hasked].
    destruct (loop_turn_cases unquote env url path "error_log.txt" 3 attempt
                answer (world s) w' _ Hasked Hrun)
      as [F1 [F2 [[v [E _]] | [[E _] | [e [E _]]]]]]; try discriminate E.
    injection E as ->.
    rewrite Hw in T0 |- *. split; [exact T0|].
    rewrite (running_requests_set ws1 ws2 i _ (locals s) (queue s) T0).
    rewrite Hw, running_requests_at, Hl in T1, T2. simpl requests_of in *.
    rewrite F1. replace (Z.to_nat (attempt + 1)) with (S (Z.to_nat attempt)) by lia.
    split; [lia|]. split; [lia|].
    destruct F2 as [-> | ->]; [exact T3 | now apply Subseq_app_r].
  - (* the call returns *)
    assert (Hin : In i (in_flight (workers s)))
      by (rewrite Hw; apply in_flight_running).
    specialize (I7 i Hin). rewrite Hl in I7. destruct I7 as [Hrange Hasked].
    destruct (loop_turn_cases unquote env url path "error_log.txt" 3 attempt
                answer (world s) w' _ Hasked Hrun) as [F1 [F2 _]].
    rewrite Hw in T0. split; [now apply NoDup_task_ends in T0|].
    rewrite Hw, running_requests_at, Hl in T1, T2. simpl requests_of in *.
    rewrite length_app. cbn [List.length]. rewrite F1.
    split; [lia|]. split; [lia|].
    destruct F2 as [-> | ->]; [exact T3 | now apply Subseq_app_r].
  - (* the call raises *)
    assert (Hin : In i (in_flight (workers s)))
      by (rewrite Hw; apply in_flight_running).
    specialize (I7 i Hin). rewrite Hl in I7. destruct I7 as [Hrange Hasked].
    destruct (loop_turn_cases unquote env url path "error_log.txt" 3 attempt
                answer (world s) w' _ Hasked Hrun) as [F1 [F2 _]].
    rewrite Hw in T0. split; [now apply NoDup_task_ends in T0|].
    rewrite Hw, running_requests_at, Hl in T1, T2. simpl requests_of in *.
    rewrite length_app. cbn [List.length]. rewrite F1.
    split; [lia|]. split; [lia|].
    destruct F2 as [-> | ->]; [exact T3 | now apply Subseq_app_r].
  - (* result *)
    rewrite Hd, length_app in T1, T2. cbn [List.length] in T1, T2.
    rewrite !length_app. cbn [List.length print snd requests_made stdout].
    split; [exact T0|]. split; [lia|]. split; [lia|].
    rewrite map_app. apply Subseq_snoc. exact T3.
  - (* the future raises *)
    rewrite Hd, length_app in T1, T2. cbn [List.length] in T1, T2.
    rewrite length_app. split; [exact T0|]. split; [lia|]. split; [lia | exact T3].
  - auto.
Qed.

Lemma pool_tally_reachable (s : Pool) :
  1 <= max_workers ->
  reachable unquote env links max_workers path (initial w0) s -> pool_tally w0 s.
Proof.
  intros Hc. induction 1 as [|s1 s2 Hreach IH Hstep].
  - unfold pool_tally, running_requests, ended_tasks, printed_results. simpl.
    split; [constructor|]. split; [lia|]. split; [lia | apply Subseq_nil_l].
  - eapply pool_tally_step; [|exact IH | exact Hstep].
    eapply pool_inv_reachable; [apply pool_inv_initial; exact Hc | exact Hreach].
Qed.

End TallyFacts.

(** X18. The requests and the console of a batch.  In every state of a
    run of [download_links] with [max_workers >= 1], the GET requests made
    since the start are at least those that the downloads in flight have
    made so far and one for each download that has ended, and at most those
    and three for each download that has ended; a download in flight has
    made at most three; and the results printed stand on the console in the
    order of the loop, between the retry notices of the workers.  When the
    function has returned, the batch has made between [n] and [3 n] requests
    for its [n] links. *)
Theorem download_links_requests
    (unquote : string -> string) (env : Env) (links : list string)
    (max_workers : Z) (path : string) (w : World) (s : Pool) :
  1 <= max_workers ->
  reachable unquote env links max_workers path (initial w) s ->
  (requests_made w + running_requests s + ended_tasks s
   <= requests_made (world s))%nat
  /\ (requests_made (world s)
      <= requests_made w + running_requests s
         + 3 * (ended_tasks s + raised_tasks (phase s)))%nat
  /\ (forall i, In i (in_flight (workers s)) -> (requests_of (locals s i) <= 3)%nat)
  /\ Subseq (printed_results s) (stdout (world s))
  /\ (phase s = Finished ->
      (requests_made w + List.length links <= requests_made (world s))%nat
      /\ (requests_made (world s) <= requests_made w + 3 * List.length links)%nat).
Proof.
  intros Hc Hreach.
  destruct (pool_tally_reachable unquote env links max_workers path w s Hc Hreach)
    as [_ [T1 [T2 T3]]].
  assert (Hinv : pool_inv env links max_workers path s).
  { eapply pool_inv_reachable; [apply pool_inv_initial; exact Hc | exact Hreach]. }
  destruct Hinv as [_ [_ [I3 [_ [_ [I6 I7]]]]]].
  split; [exact T1|]. split; [exact T2|]. split; [|split; [exact T3|]].
  - intros i Hi. specialize (I7 i Hi).
    destruct (locals s i) as [attempt|attempt answer]; simpl in *; lia.
  - intros Hp.
    rewrite Hp in I3. cbn [submitted] in I3. destruct I3 as [_ I3].
    specialize (I6 Hp).
    assert (Hperm : Permutation (map fst (results s)) (seq 0 (List.length links))).
    { apply occ_bounded_perm; [now rewrite length_map|].
      intros j. specialize (I3 j). unfold dispatched in I3.
      rewrite !occ_app in I3. lia. }
    assert (Hocc : forall j, occ j (map fst (results s))
                             = if (j <? List.length links)%nat then 1%nat else 0%nat).
    { intros j. rewrite <- occ_seq. unfold occ.
      now apply (Permutation_count_occ Nat.eq_dec). }
    assert (Hdone : done s = []).
    { apply (map_eq_nil fst), occ_all_zero. intros j.
      specialize (I3 j). specialize (Hocc j). unfold dispatched in I3.
      rewrite !occ_app in I3. lia. }
    assert (Hfl : in_flight (workers s) = []).
    { apply occ_all_zero. intros j.
      specialize (I3 j). specialize (Hocc j). unfold dispatched in I3.
      rewrite !occ_app in I3. lia. }
    unfold running_requests, ended_tasks in T1, T2.
    rewrite Hp, Hdone, Hfl, I6 in *.
    cbn [raised_tasks List.length map] in T1, T2.
    change (list_sum []) with 0%nat in T1, T2. lia.
Qed.

Lemma download_links_requests_witness :
  exists s,
    reachable Sample.unquote Sample.env_flaky ["http://h/a.zip"; "http://h/b.zip"]
      2 "dl" (initial Sample.w0) s
    /\ phase s = Finished
    /\ (2 <= requests_made (world s))%nat /\ (requests_made (world s) <= 6)%nat.
Proof.
  assert (Hexc : only_Exceptions Sample.env_flaky).
  { split; [|split].
    - intros i url e H. simpl in H. destruct (i <? 2)%nat; inversion H. reflexivity.
    - intros i url r e H. simpl in H. destruct (i <? 2)%nat; inversion H; subst r.
      simpl. intros [H1|[H1|H1]]; discriminate H1.
    - intros name e H. discriminate H. }
  assert (Hc : 1 <= 2) by lia.
  destruct (run_ends Sample.unquote Sample.env_flaky ["http://h/a.zip"; "http://h/b.zip"]
              2 "dl" Hc eq_refl eq_refl Hexc (initial Sample.w0)) as [s [Hr Hp]].
  - apply pool_inv_initial. exact Hc.
  - discriminate.
  - exists s. split; [exact Hr|]. split; [exact Hp|].
    destruct (download_links_requests Sample.unquote Sample.env_flaky
                ["http://h/a.zip"; "http://h/b.zip"] 2 "dl" Sample.w0 s Hc Hr)
      as [_ [_ [_ [_ H]]]].
    destruct (H Hp) as [H1 H2]. simpl in H1, H2. split; lia.
Defined.

(** ** When the log or the directory cannot be had *)

Section LogFacts.
Variable unquote : string -> string.
Variable env : Env.
Variables url path error_log : string.
Variable retries : Z.

(** Every attempt fails and the log cannot be opened: the exception of
    [open] leaves the loop after the last attempt. *)
Lemma retry_loop_failures_no_log (n : nat) :
  forall (errs : nat -> exn) (fuel : nat) (attempt : Z) (w : World) (e' : exn),
  retries = attempt + Z.of_nat (S n) -> (S n <= fuel)%nat ->
  (forall j, (j < S n)%nat ->
     attempt_fails unquote env (requests_made w + j) url path (errs j)) ->
  open_a env error_log = Some e' ->
  exists w',
    retry_loop unquote env fuel url path retries error_log attempt w = (Raise e', w')
    /\ requests_made w' = (requests_made w + S n)%nat
    /\ stdout w' = (stdout w ++ retry_notices url retries (attempt + 1) n)%list
    /\ logs w' = logs w.
Proof.
  induction n as [|n IH]; intros errs fuel attempt w e' Hr Hfuel Hfail Hlog;
    (destruct fuel as [|fuel]; [lia|]);
    destruct (Hfail O ltac:(lia)) as [Hexc Hrun];
    destruct (Hrun w (eq_sym (Nat.add_0_r _))) as [w1 E1];
    destruct (attempt_once_frame _ _ _ _ _ _ _ E1) as [F1 [F2 [F3 _]]].
  - rewrite (retry_loop_log_raises unquote env url path error_log retries
               fuel attempt w w1 (errs O) e') by (assumption || lia).
    exists w1. split; [reflexivity|]. split; [lia|].
    split; [simpl; now rewrite app_nil_r | exact F3].
  - rewrite (retry_loop_again unquote env url path error_log retries
               fuel attempt w w1 (errs O)) by (assumption || lia).
    destruct (IH (fun j => errs (S j)) fuel (attempt + 1)
                 (snd (print (retry_notice url (attempt + 1) retries) w1)) e')
      as [w' [E [G1 [G2 G3]]]].
    + lia.
    + lia.
    + intros j Hj. simpl.
      replace (requests_made w1 + j)%nat with (requests_made w + S j)%nat by lia.
      apply Hfail. lia.
    + exact Hlog.
    + exists w'. split; [exact E|]. simpl in G1, G2, G3.
      split; [lia|]. split; [|congruence].
      rewrite G2, F2. simpl. now rewrite <- app_assoc.
Qed.

End LogFacts.

(** X19. When every attempt fails and the error log cannot be opened for
    appending, [download_link] with [retries = N >= 1] does not return: after
    [N] requests and the [N - 1] retry notices, the exception raised by
    [open(error_log, 'a')] leaves the call, whether or not it is an instance
    of [Exception], and the log holds what it held. *)
Theorem download_link_log_unwritable
    (unquote : string -> string) (env : Env) (url path error_log : string)
    (N : Z) (errs : nat -> exn) (e' : exn) (w : World) :
  1 <= N ->
  (forall j, (j < Z.to_nat N)%nat ->
     attempt_fails unquote env (requests_made w + j) url path (errs j)) ->
  open_a env error_log = Some e' ->
  exists w',
    download_link unquote env url path N error_log w = (Raise e', w')
    /\ requests_made w' = (requests_made w + Z.to_nat N)%nat
    /\ stdout w' = (stdout w ++ retry_notices url N 1 (Z.to_nat N - 1))%list
    /\ logs w' = logs w.
Proof.
  intros HN Hfail Hlog. unfold download_link.
  destruct (Z.to_nat N) as [|n] eqn:En; [lia|].
  destruct (retry_loop_failures_no_log unquote env url path error_log N n errs
              (S n) 0 w e') as [w' [E [G1 [G2 G3]]]];
    [lia | lia | exact Hfail | exact Hlog |].
  exists w'. replace (S n - 1)%nat with n by lia. auto.
Qed.

Lemma download_link_log_unwritable_witness :
  exists w',
    download_link Sample.unquote SampleFiles.env_no_log "http://h/f.zip" "." 3
      "error_log.txt" Sample.w0
    = (Raise SampleFiles.permission_denied, w')
    /\ requests_made w' = 3%nat
    /\ logs w' = logs Sample.w0.
Proof.
  destruct (download_link_log_unwritable Sample.unquote SampleFiles.env_no_log
              "http://h/f.zip" "." "error_log.txt" 3 (fun _ => Sample.timeout)
              SampleFiles.permission_denied Sample.w0)
    as [w' [E [G1 [_ G3]]]].
  - lia.
  - intros j _. split; [reflexivity|]. intros w _. eexists. reflexivity.
  - reflexivity.
  - exists w'. split; [exact E|]. split; [exact G1 | exact G3].
Defined.



(** X21. A task of the pool is the call [download_link(url, path)]: when
    the steps of a task that has just been taken are made one after the
    other, with no step of another thread between them, its future is
    completed with what [download_link] returns or raises from the world
    the task found, the thread is idle again, and the world is the one that
    [download_link] leaves. *)
Theorem task_is_download_link
    (unquote : string -> string) (env : Env) (links : list string)
    (max_workers : Z) (path : string) (s : Pool)
    (ws1 ws2 : list (option nat)) (i : nat) (url : string) :
  workers s = (ws1 ++ Some i :: ws2)%list -> nth_error links i = Some url ->
  locals s i = AtLoop 0 ->
  exists l',
    reachable unquote env links max_workers path s
      {| phase := phase s; dirs := dirs s; queue := queue s;
         workers := ws1 ++ None :: ws2; locals := l';
         done := done s
                 ++ [(i, fst (download_link unquote env url path 3 "error_log.txt"
                                (world s)))];
         results := results s;
         world := snd (download_link unquote env url path 3 "error_log.txt"
                         (world s)) |}.
Proof.
  intros Hw Hi Hl.
  apply (task_runs_loop unquote env links max_workers path (Z.to_nat 3)
           s ws1 ws2 i url 0); try assumption.
  - unfold download_link. apply surjective_pairing.
  - apply download_link_fuel_suffices.
Qed.

Lemma task_is_download_link_witness :
  exists l' w',
    reachable Sample.unquote Sample.env_flaky ["http://h/a.zip"] 1 "dl"
      SampleFiles.pool_running
      {| phase := Collecting; dirs := ["dl"]; queue := []; workers := [None];
         locals := l';
         done := [(O, Return (Some "Downloaded http://h/a.zip to dl/a.zip"))];
         results := []; world := w' |}
    /\ requests_made w' = 3%nat.
Proof.
  destruct (task_is_download_link Sample.unquote Sample.env_flaky ["http://h/a.zip"]
              1 "dl" SampleFiles.pool_running [] [] O "http://h/a.zip"
              eq_refl eq_refl eq_refl) as [l' R].
  exists l'.
  exists (snd (download_link Sample.unquote Sample.env_flaky "http://h/a.zip" "dl" 3
                 "error_log.txt" Sample.w0)).
  split; [|vm_compute; reflexivity].
  assert (E : fst (download_link Sample.unquote Sample.env_flaky "http://h/a.zip" "dl" 3
                     "error_log.txt" Sample.w0)
              = Return (Some "Downloaded http://h/a.zip to dl/a.zip"))
    by (vm_compute; reflexivity).
  rewrite <- E. exact R.
Defined.

(** ** Runs on sample values *)

Example rank_mario :
  fuzzy_match Sample.exact_ratio Sample.lower Sample.links "Mario" None
  = ["http://h/mario1.zip"; "http://h/mario3.zip"].
Proof. reflexivity. Qed.

Example rank_zelda :
  fuzzy_match Sample.exact_ratio Sample.lower Sample.links "zelda" None = [].
Proof. reflexivity. Qed.

Example sort_keeps_ties_in_order :
  Py.sort_reverse fst [(1, "a"); (3, "b"); (1, "c"); (3, "d"); (2, "e")]
  = [(3, "b"); (3, "d"); (2, "e"); (1, "a"); (1, "c")].
Proof. reflexivity. Qed.

Example slice_examples :
  Py.slice_to (Some 2) [1; 2; 3] = [1; 2]
  /\ Py.slice_to (Some 5) [1; 2; 3] = [1; 2; 3]
  /\ Py.slice_to (Some 0) [1; 2; 3] = []
  /\ Py.slice_to (Some (-1)) [1; 2; 3] = [1; 2]
  /\ Py.slice_to (Some (-5)) [1; 2; 3] = []
  /\ Py.slice_to None [1; 2; 3] = [1; 2; 3].
Proof. repeat split; reflexivity. Qed.

Example report_text :
  save_links_contents [("mario", ["http://a"; "https://b"]); ("zelda", [])]
  = "--- mario ---" ++ nl ++ "http://a" ++ nl ++ "https://b" ++ nl ++ nl
    ++ "--- zelda ---" ++ nl ++ nl.
Proof. reflexivity. Qed.

Example lines_of_text :
  TextFile.iter_lines ("a" ++ nl ++ "b" ++ String CR "c" ++ String CR nl ++ nl ++ "d")
  = ["a" ++ nl; "b" ++ nl; "c" ++ nl; nl; "d"].
Proof. reflexivity. Qed.

Example strip_examples :
  Py.strip ("  http://a b " ++ nl) = "http://a b" /\ Py.strip nl = "".
Proof. split; reflexivity. Qed.

(** The group of the pattern is greedy: it runs to the last double quote of
    the line. *)
Example findall_greedy :
  Re.findall_filename
    ("attachment; filename=" ++ String QUOTE "a.zip" ++ String QUOTE "; name="
     ++ String QUOTE "b" ++ String QUOTE "")
  = ["a.zip" ++ String QUOTE "; name=" ++ String QUOTE "b"].
Proof. reflexivity. Qed.

Example findall_none :
  Re.findall_filename "attachment; filename=a.zip" = []
  /\ Re.findall_filename ("attachment; filename=" ++ String QUOTE (String QUOTE "")) = [].
Proof. split; reflexivity. Qed.

(** A URL that ends in a slash gives an empty name; an absolute name in the
    header replaces the destination directory. *)
Example file_name_edges :
  local_filename_of "http://h/dir/" "dl" Sample.reply = "dl/"
  /\ OsPath.join "dl" "/tmp/x.zip" = "/tmp/x.zip"
  /\ OsPath.join "dl/" "x.zip" = "dl/x.zip"
  /\ OsPath.join "" "x.zip" = "x.zip".
Proof. repeat split; reflexivity. Qed.

Example three_timeouts :
  let '(r, w) := download_link Sample.unquote Sample.env_down "http://h/f.zip" "."
                   3 "error_log.txt" Sample.w0 in
  r = Return (Some "Failed to download http://h/f.zip: timed out")
  /\ requests_made w = 3%nat
  /\ stdout w = ["Retrying http://h/f.zip (1/3)..."; "Retrying http://h/f.zip (2/3)..."]
  /\ logs w "error_log.txt"
     = "Failed to download http://h/f.zip after 3 attempts: timed out" ++ nl
  /\ disk w = [].
Proof. vm_compute. repeat split; reflexivity. Qed.

Example two_timeouts_then_file :
  let '(r, w) := download_link Sample.unquote Sample.env_flaky "http://h/f.zip" "."
                   3 "error_log.txt" Sample.w0 in
  r = Return (Some "Downloaded http://h/f.zip to ./f.zip")
  /\ requests_made w = 3%nat
  /\ stdout w = ["Retrying http://h/f.zip (1/3)..."; "Retrying http://h/f.zip (2/3)..."]
  /\ logs w "error_log.txt" = ""
  /\ disk w = [("./f.zip", "abcde")]
  /\ bars w = [("f.zip", 5)].
Proof. vm_compute. repeat split; reflexivity. Qed.

(** The error log cannot be opened: the third timeout is followed by the
    exception of [open], and the call returns nothing. *)
Example three_timeouts_no_log :
  let '(r, w) := download_link Sample.unquote SampleFiles.env_no_log "http://h/f.zip"
                   "." 3 "error_log.txt" Sample.w0 in
  r = Raise SampleFiles.permission_denied
  /\ requests_made w = 3%nat
  /\ stdout w = ["Retrying http://h/f.zip (1/3)..."; "Retrying http://h/f.zip (2/3)..."]
  /\ logs w "error_log.txt" = "".
Proof. vm_compute. repeat split; reflexivity. Qed.

(** The display name of a long file name, percent-decoded and cut. *)
Example display_name_cut :
  display_name_of Sample.unquote_spaces "dl/Super%20Mario%20Bros%20(USA)%20(Rev%201).zip"
  = "Super Mario Bros (USA) (Rev..."
  /\ display_name_of Sample.unquote_spaces "dl/a%20b.zip" = "a b.zip".
Proof. vm_compute. split; reflexivity. Qed.
